(** * YOLOv8 detection post-processing (yolov8/yolov8.ipynb)

    A shallow embedding of the decoding pipeline of the notebook: the
    [DFL] module, [dist2bbox] and [post_process], over a small model of
    the tensor library they call; of [frame_process] and of the
    statements of [inference] that prepare the input of the session and
    decode its output; and of [update_lr] of the training notebook.

    - Tensor elements are taken from a [Scalar] interface.  The instance
      on [R] is exact real arithmetic: rounding of 32-bit floats is not
      modelled.  A second instance, [xreal], adds the IEEE special
      values NaN and the two infinities.
    - A tensor object is a [handle]: the buffer it lives in together
      with the offsets of its elements, so that views alias the buffer
      of the tensor they were taken from, as in the library.
    - Code runs in a state-and-exception monad over a [world]: the
      buffers, the tape of the random generator and the files.
    - Of the library, what the notebook calls is modelled: [view] (with
      one inferred size, and refused when the elements do not lie in
      memory as the new shape needs them), [transpose], [unsqueeze],
      [split], [cat], [softmax], [sigmoid], the broadcasting arithmetic,
      and [Conv2d] without bias on batched inputs.
    - [non_max_suppression] is imported by the notebook from a module
      that is not part of the sources; module [NMS] follows its
      description in the specification.
    - The image library [cv2] is a parameter: [frame_process] is
      embedded over any colour conversion and resizing.  *)

From Stdlib Require Import String.
From Stdlib Require Import List Sorted Arith ZArith Lia Bool.
From Stdlib Require Import Reals Lra.
Import ListNotations.

Set Implicit Arguments.

(** ** Scalars *)

Class Scalar (A : Type) := {
  s_zero : A;
  s_one : A;
  s_add : A -> A -> A;
  s_sub : A -> A -> A;
  s_mul : A -> A -> A;
  s_div : A -> A -> A;
  s_neg : A -> A;
  s_exp : A -> A;
  s_of_nat : nat -> A
}.

#[export] Instance R_Scalar : Scalar R := {
  s_zero := 0%R;
  s_one := 1%R;
  s_add := Rplus;
  s_sub := Rminus;
  s_mul := Rmult;
  s_div := Rdiv;
  s_neg := Ropp;
  s_exp := exp;
  s_of_nat := INR
}.

(** ** Shapes, multi-indices and row-major tensors *)

Module Shape.

Definition numel (s : list nat) : nat := fold_right Nat.mul 1 s.

(** Row-major position of a multi-index. *)
Fixpoint offset (s idx : list nat) : nat :=
  match s, idx with
  | _ :: s', i :: idx' => i * numel s' + offset s' idx'
  | _, _ => 0
  end.

(** All multi-indices of a shape, in row-major order. *)
Fixpoint indices (s : list nat) : list (list nat) :=
  match s with
  | [] => [[]]
  | n :: s' => flat_map (fun i => map (cons i) (indices s')) (seq 0 n)
  end.

(** [inb s idx]: the multi-index is within the shape. *)
Fixpoint inb (s idx : list nat) : Prop :=
  match s, idx with
  | [], [] => True
  | n :: s', i :: idx' => i < n /\ inb s' idx'
  | _, _ => False
  end.

(** Replace component [k] of a list. *)
Fixpoint upd {X} (k : nat) (v : X) (l : list X) : list X :=
  match l, k with
  | [], _ => []
  | _ :: l', O => v :: l'
  | x :: l', S k' => x :: upd k' v l'
  end.

Definition swap (d1 d2 : nat) (l : list nat) : list nat :=
  upd d1 (nth d2 l 0) (upd d2 (nth d1 l 0) l).

(** Negative dimensions count from the end. *)
Definition norm_dim (rank : nat) (d : Z) : option nat :=
  if (0 <=? d)%Z then
    if (d <? Z.of_nat rank)%Z then Some (Z.to_nat d) else None
  else
    if (- Z.of_nat rank <=? d)%Z then Some (Z.to_nat (Z.of_nat rank + d)) else None.

End Shape.
Import Shape.

Record tensor (A : Type) := mkT { shape : list nat; data : list A }.
Arguments mkT {A} _ _.

Section TensorBasics.
Context {A : Type}.

Definition wf (t : tensor A) : Prop := length (data t) = numel (shape t).

Definition get (d : A) (t : tensor A) (idx : list nat) : A :=
  nth (offset (shape t) idx) (data t) d.

Definition tabulate (s : list nat) (f : list nat -> A) : tensor A :=
  mkT s (map f (indices s)).

End TensorBasics.

Definition tmap {A B} (f : A -> B) (t : tensor A) : tensor B :=
  mkT (shape t) (map f (data t)).


(** ** Reals with the special values of IEEE 754

    [xreal] adds NaN and the two infinities to the reals, with the
    arithmetic of IEEE 754 on them (one zero, no overflow, no rounding):
    what a tensor of floats can hold that a tensor of reals cannot. *)

Inductive xreal : Type :=
| Fin (r : R)
| PInf
| NInf
| NaN.

Definition x_neg (a : xreal) : xreal :=
  match a with
  | Fin r => Fin (- r)
  | PInf => NInf
  | NInf => PInf
  | NaN => NaN
  end.

Definition x_add (a b : xreal) : xreal :=
  match a, b with
  | NaN, _ => NaN
  | _, NaN => NaN
  | Fin r, Fin s => Fin (r + s)
  | PInf, NInf => NaN
  | NInf, PInf => NaN
  | PInf, _ => PInf
  | NInf, _ => NInf
  | Fin _, PInf => PInf
  | Fin _, NInf => NInf
  end.

Definition x_sub (a b : xreal) : xreal := x_add a (x_neg b).

(** An infinity times or divided by the finite [r]. *)
Definition x_signed (inf : xreal) (r : R) : xreal :=
  if Rlt_dec 0 r then inf else x_neg inf.

Definition x_mul (a b : xreal) : xreal :=
  match a, b with
  | NaN, _ => NaN
  | _, NaN => NaN
  | Fin r, Fin s => Fin (r * s)
  | Fin r, inf => if Req_dec_T r 0 then NaN else x_signed inf r
  | inf, Fin s => if Req_dec_T s 0 then NaN else x_signed inf s
  | PInf, PInf => PInf
  | NInf, NInf => PInf
  | PInf, NInf => NInf
  | NInf, PInf => NInf
  end.

Definition x_div (a b : xreal) : xreal :=
  match a, b with
  | NaN, _ => NaN
  | _, NaN => NaN
  | Fin r, Fin s =>
      if Req_dec_T s 0 then
        if Req_dec_T r 0 then NaN else x_signed PInf r
      else Fin (r / s)
  | Fin _, _ => Fin 0
  | inf, Fin s => if Req_dec_T s 0 then inf else x_signed inf s
  | _, _ => NaN
  end.

Definition x_exp (a : xreal) : xreal :=
  match a with
  | Fin r => Fin (exp r)
  | PInf => PInf
  | NInf => Fin 0
  | NaN => NaN
  end.

#[export] Instance xreal_Scalar : Scalar xreal := {
  s_zero := Fin 0;
  s_one := Fin 1;
  s_add := x_add;
  s_sub := x_sub;
  s_mul := x_mul;
  s_div := x_div;
  s_neg := x_neg;
  s_exp := x_exp;
  s_of_nat := fun n => Fin (INR n)
}.
(** ** Exceptions, and the monad of the interpreter state *)

Inductive exn : Type :=
| ValueError (msg : string)
| IndexError (msg : string)
| RuntimeError (msg : string)
| FileNotFoundError (path : string).

Inductive result (X : Type) : Type :=
| Ok (x : X)
| Raise (e : exn).
Arguments Ok {X} _.
Arguments Raise {X} _.

Definition M (W X : Type) : Type := W -> result X * W.

Definition ret {W X} (x : X) : M W X := fun w => (Ok x, w).

Definition raise {W X} (e : exn) : M W X := fun w => (Raise e, w).

Definition bind {W X Y} (m : M W X) (f : X -> M W Y) : M W Y :=
  fun w =>
    match m w with
    | (Ok x, w') => f x w'
    | (Raise e, w') => (Raise e, w')
    end.

Notation "x <- m ;; k" := (bind m (fun x => k))
  (at level 61, m at next level, right associativity).
Notation "' p <- m ;; k" := (bind m (fun x => match x with p => k end))
  (at level 61, p pattern, m at next level, right associativity).
Notation "m ;;; k" := (bind m (fun _ => k))
  (at level 61, right associativity).

(** A list comprehension [[f xi for xi in l]]. *)
Fixpoint mapM {W X Y} (f : X -> M W Y) (l : list X) : M W (list Y) :=
  match l with
  | [] => ret []
  | x :: l' => y <- f x ;; ys <- mapM f l' ;; ret (y :: ys)
  end.

(** Tuple unpacking [a, b = l] and [a, b, c = l], and [l[i]]. *)
Definition unpack2 {W X} (l : list X) : M W (X * X) :=
  match l with
  | [a; b] => ret (a, b)
  | _ => raise (ValueError "wrong number of values to unpack")
  end.

Definition unpack3 {W X} (l : list X) : M W (X * X * X) :=
  match l with
  | [a; b; c] => ret (a, b, c)
  | _ => raise (ValueError "wrong number of values to unpack")
  end.

Definition list_item {W X} (l : list X) (i : nat) : M W X :=
  match nth_error l i with
  | Some x => ret x
  | None => raise (IndexError "index out of range")
  end.

(** ** Tensor values: what the library's operations compute *)

Section TensorValues.
Context {A : Type} {SA : Scalar A}.

Definition ssum (l : list A) : A := fold_right s_add s_zero l.

Definition geta (t : tensor A) (idx : list nat) : A := get s_zero t idx.

(** [softmax(d)]: exponentials normalised along dimension [d]. *)
Definition softmax_val (d : nat) (v : tensor A) : tensor A :=
  tabulate (shape v) (fun idx =>
    s_div (s_exp (geta v idx))
          (ssum (map (fun k => s_exp (geta v (upd d k idx)))
                     (seq 0 (nth d (shape v) 0))))).

(** [conv2d] without bias, padding or dilation and with stride 1, on a
    batched (rank 4) input; the only convolution the notebook builds. *)
Definition conv2d_val (wt inp : tensor A) : option (tensor A) :=
  match shape wt, shape inp with
  | [co; ci; kh; kw], [n; c; hh; ww] =>
      if (c =? ci) && (kh <=? hh) && (kw <=? ww) then
        Some (tabulate [n; co; hh - kh + 1; ww - kw + 1] (fun idx =>
          match idx with
          | [b; o; y; x] =>
              ssum (map (fun cij =>
                      match cij with
                      | [cc; i; j] =>
                          s_mul (geta inp [b; cc; y + i; x + j]) (geta wt [o; cc; i; j])
                      | _ => s_zero
                      end) (indices [ci; kh; kw]))
          | _ => s_zero
          end))
      else None
  | _, _ => None
  end.

(** Broadcasting: shapes are aligned on the right, the shorter one being
    completed with leading 1s; a dimension of size 1 stretches. *)
Fixpoint bzip (s1 s2 : list nat) : option (list nat) :=
  match s1, s2 with
  | [], [] => Some []
  | a :: r1, b :: r2 =>
      if a =? b then option_map (cons a) (bzip r1 r2)
      else if a =? 1 then option_map (cons b) (bzip r1 r2)
      else if b =? 1 then option_map (cons a) (bzip r1 r2)
      else None
  | _, _ => None
  end.

Definition pad (n : nat) (s : list nat) : list nat := repeat 1 (n - length s) ++ s.

Definition bshape (s1 s2 : list nat) : option (list nat) :=
  let n := Nat.max (length s1) (length s2) in
  bzip (pad n s1) (pad n s2).

Fixpoint bidx_aligned (s idx : list nat) : list nat :=
  match s, idx with
  | n :: s', i :: idx' => (if n =? 1 then 0 else i) :: bidx_aligned s' idx'
  | _, _ => []
  end.

(** The index read in an operand of shape [s] for the output index [idx]. *)
Definition bidx (s idx : list nat) : list nat :=
  bidx_aligned s (skipn (length idx - length s) idx).

Definition binop_val (f : A -> A -> A) (t1 t2 : tensor A) : option (tensor A) :=
  match bshape (shape t1) (shape t2) with
  | Some s =>
      Some (tabulate s (fun idx =>
              f (geta t1 (bidx (shape t1) idx)) (geta t2 (bidx (shape t2) idx))))
  | None => None
  end.

(** [torch.cat]: the operands agree on every dimension but [dim]. *)
Definition cat_compatible (dim : nat) (s0 s : list nat) : bool :=
  if list_eq_dec Nat.eq_dec (upd dim 0 s) (upd dim 0 s0) then true else false.

Fixpoint cat_get (dim : nat) (ts : list (tensor A)) (idx : list nat) : A :=
  match ts with
  | [] => s_zero
  | t :: ts' =>
      let n := nth dim (shape t) 0 in
      if nth dim idx 0 <? n then geta t idx
      else cat_get dim ts' (upd dim (nth dim idx 0 - n) idx)
  end.

Definition cat_val (dim : nat) (ts : list (tensor A)) : option (tensor A) :=
  match ts with
  | [] => None
  | t0 :: _ =>
      if (dim <? length (shape t0))
         && forallb (fun t => cat_compatible dim (shape t0) (shape t)) ts
      then Some (tabulate
                   (upd dim (list_sum (map (fun t => nth dim (shape t) 0) ts)) (shape t0))
                   (cat_get dim ts))
      else None
  end.

Definition sigmoid (x : A) : A := s_div s_one (s_add s_one (s_exp (s_neg x))).

End TensorValues.

(** ** Layouts: the operations that return views *)

(** [view]: the requested sizes, one of which may be [-1]. *)
Definition view_shape (n : nat) (spec : list Z) : option (list nat) :=
  let known := filter (fun z => negb (z =? -1)%Z) spec in
  if existsb (fun z => (z <? 0)%Z) known then None
  else
    let k := numel (map Z.to_nat known) in
    match length spec - length known with
    | 0 => if k =? n then Some (map Z.to_nat spec) else None
    | 1 => if k =? 0 then None
           else if n mod k =? 0
                then Some (map (fun z => if (z =? -1)%Z then n / k else Z.to_nat z) spec)
                else None
    | _ => None
    end.

(** Tensor objects are strided: the position of an element is a base
    plus, for each dimension, its index times a stride.  [view] gives a
    new shape to the same elements, and the library accepts it when the
    tensor is strided for the new shape too.  [is_strided s offs] tests
    it for the positions [offs] of the elements: the base is the position
    of the first element, and the stride of a dimension of size above 1
    is read off the element of index 1 in that dimension. *)
Fixpoint affine (strides idx : list nat) : nat :=
  match strides, idx with
  | st :: r, i :: idx' => i * st + affine r idx'
  | _, _ => 0
  end.

Fixpoint cand_strides (s offs : list nat) : list nat :=
  match s with
  | [] => []
  | n :: s' =>
      (if n <=? 1 then 0 else nth (numel s') offs 0 - nth 0 offs 0)
      :: cand_strides s' offs
  end.

Definition is_strided (s offs : list nat) : bool :=
  forallb (fun idx =>
             nth (offset s idx) offs 0 =? nth 0 offs 0 + affine (cand_strides s offs) idx)
          (indices s).

(** The strides of a contiguous tensor. *)
Fixpoint rm_strides (s : list nat) : list nat :=
  match s with
  | [] => []
  | _ :: s' => numel s' :: rm_strides s'
  end.

Definition transpose_layout (d1 d2 : nat) (t : tensor nat) : tensor nat :=
  tabulate (swap d1 d2 (shape t)) (fun idx => get 0 t (swap d1 d2 idx)).

(** The slice [start, start+len) of dimension [dim]. *)
Definition narrow (dim start len : nat) (t : tensor nat) : tensor nat :=
  tabulate (upd dim len (shape t))
           (fun idx => get 0 t (upd dim (start + nth dim idx 0) idx)).

Fixpoint split_layout (dim start : nat) (sizes : list nat) (t : tensor nat)
  : list (tensor nat) :=
  match sizes with
  | [] => []
  | n :: r => narrow dim start n t :: split_layout dim (start + n) r t
  end.

(** Chunk sizes of [split] with an integer size. *)
Definition chunk_sizes (n total : nat) : option (list nat) :=
  if total =? 0 then Some [0]
  else if n =? 0 then None
  else Some (repeat n (total / n)
             ++ (if total mod n =? 0 then [] else [total mod n])).

Definition unsqueeze_layout (d : nat) (t : tensor nat) : tensor nat :=
  mkT (firstn d (shape t) ++ 1 :: skipn d (shape t)) (data t).
(** ** The interpreter state and the tensor objects *)

(** A tensor object: the buffer that holds its elements and, for each
    element in row-major order, the position of the element in that
    buffer.  Two handles on one buffer alias each other. *)
Record handle : Type := mkH { buf : nat; lay : tensor nat }.

Definition t_shape (h : handle) : list nat := shape (lay h).

Section World.
Context {A : Type} {SA : Scalar A}.

(** [heap]: the buffers, by address.  [rng]: the values the global
    random generator will deliver next.  [fs]: the arrays stored in the
    files of the working directory. *)
Record world : Type := mkW {
  heap : list (list A);
  rng : nat -> A;
  fs : string -> option (tensor A)
}.

Definition T (X : Type) : Type := M world X.

Definition buffer (w : world) (b : nat) : list A := nth b (heap w) [].

(** The element of a tensor object at a multi-index, and all of them. *)
Definition hget (w : world) (h : handle) (idx : list nat) : A :=
  nth (get 0 (lay h) idx) (buffer w (buf h)) s_zero.

Definition hval (w : world) (h : handle) : tensor A :=
  tmap (fun o => nth o (buffer w (buf h)) s_zero) (lay h).

(** A new tensor object in a buffer of its own. *)
Definition alloc (v : tensor A) : T handle :=
  fun w =>
    (Ok (mkH (length (heap w)) (mkT (shape v) (seq 0 (length (data v))))),
     mkW (heap w ++ [data v]) (rng w) (fs w)).

Definition alloc_opt (e : exn) (v : option (tensor A)) : T handle :=
  match v with
  | Some t => alloc t
  | None => raise e
  end.

Definition read (h : handle) : T (tensor A) := fun w => (Ok (hval w h), w).

(** The next [n] values of the random generator. *)
Definition draw (n : nat) : T (list A) :=
  fun w =>
    (Ok (map (rng w) (seq 0 n)),
     mkW (heap w) (fun i => rng w (n + i)) (fs w)).

(** *** Views *)

Definition t_view (h : handle) (spec : list Z) : T handle :=
  match view_shape (numel (t_shape h)) spec with
  | Some s =>
      if is_strided s (data (lay h))
      then ret (mkH (buf h) (mkT s (data (lay h))))
      else raise (RuntimeError "view size is not compatible with size and stride")
  | None => raise (RuntimeError "shape is invalid for input size")
  end.

Definition t_transpose (h : handle) (d1 d2 : Z) : T handle :=
  match norm_dim (length (t_shape h)) d1, norm_dim (length (t_shape h)) d2 with
  | Some n1, Some n2 => ret (mkH (buf h) (transpose_layout n1 n2 (lay h)))
  | _, _ => raise (IndexError "dimension out of range")
  end.

Definition t_unsqueeze (h : handle) (d : Z) : T handle :=
  match norm_dim (S (length (t_shape h))) d with
  | Some n => ret (mkH (buf h) (unsqueeze_layout n (lay h)))
  | None => raise (IndexError "dimension out of range")
  end.

(** [split] with a tuple of sizes. *)
Definition t_split_sizes (h : handle) (sizes : list nat) (d : Z) : T (list handle) :=
  match norm_dim (length (t_shape h)) d with
  | Some n =>
      if list_sum sizes =? nth n (t_shape h) 0
      then ret (map (mkH (buf h)) (split_layout n 0 sizes (lay h)))
      else raise (RuntimeError "split sizes do not sum to the dimension size")
  | None => raise (IndexError "dimension out of range")
  end.

(** [split] with one size: chunks of that size, the last one shorter. *)
Definition t_split (h : handle) (size : nat) (d : Z) : T (list handle) :=
  match norm_dim (length (t_shape h)) d with
  | Some n =>
      match chunk_sizes size (nth n (t_shape h) 0) with
      | Some sizes => ret (map (mkH (buf h)) (split_layout n 0 sizes (lay h)))
      | None => raise (RuntimeError "split size can only be 0 if the dimension is empty")
      end
  | None => raise (IndexError "dimension out of range")
  end.

(** *** Operations that return a new tensor *)

Definition t_softmax (h : handle) (d : Z) : T handle :=
  match norm_dim (length (t_shape h)) d with
  | Some n => v <- read h ;; alloc (softmax_val n v)
  | None => raise (IndexError "dimension out of range")
  end.

Definition t_sigmoid (h : handle) : T handle :=
  v <- read h ;; alloc (tmap sigmoid v).

Definition t_binop (f : A -> A -> A) (h1 h2 : handle) : T handle :=
  v1 <- read h1 ;;
  v2 <- read h2 ;;
  alloc_opt (RuntimeError "the sizes of the tensors must match") (binop_val f v1 v2).

Definition t_add : handle -> handle -> T handle := t_binop s_add.
Definition t_sub : handle -> handle -> T handle := t_binop s_sub.
Definition t_mul : handle -> handle -> T handle := t_binop s_mul.

(** Division by a Python number. *)
Definition t_div_scalar (h : handle) (c : nat) : T handle :=
  v <- read h ;; alloc (tmap (fun x => s_div x (s_of_nat c)) v).

Definition t_cat (hs : list handle) (d : Z) : T handle :=
  match hs with
  | [] => raise (RuntimeError "expected a non-empty list of tensors")
  | h0 :: _ =>
      match norm_dim (length (t_shape h0)) d with
      | Some n =>
          vs <- mapM read hs ;;
          alloc_opt (RuntimeError "sizes of tensors must match except in the cat dimension")
                    (cat_val n vs)
      | None => raise (IndexError "dimension out of range")
      end
  end.

Definition torch_arange (n : nat) : T handle :=
  alloc (mkT [n] (map s_of_nat (seq 0 n))).

(** [np.load]: the array stored in a file. *)
Definition np_load (path : string) : T (tensor A) :=
  fun w =>
    match fs w path with
    | Some t => (Ok t, w)
    | None => (Raise (FileNotFoundError path), w)
    end.

(** [torch.tensor]: a tensor with a copy of the array. *)
Definition torch_tensor (a : tensor A) : T handle := alloc a.

(** *** Modules *)

(** [nn.Conv2d(c_in, c_out, k, bias=False)]: the weight, of shape
    [c_out, c_in, k, k], is initialised from the random generator. *)
Record Conv2d : Type := mkConv2d { weight : handle }.

Definition nn_Conv2d (c_in c_out k : nat) : T Conv2d :=
  init <- draw (numel [c_out; c_in; k; k]) ;;
  wt <- alloc (mkT [c_out; c_in; k; k] init) ;;
  ret (mkConv2d wt).

Definition Conv2d_call (self : Conv2d) (x : handle) : T handle :=
  wt <- read (weight self) ;;
  v <- read x ;;
  alloc_opt (RuntimeError "conv2d: bad input shape") (conv2d_val wt v).

(** [nn.Parameter(t)] shares the data of [t]. *)
Definition nn_Parameter (h : handle) : T handle := ret h.

(** *** The one in-place operation: [dst[:] = src] *)

Fixpoint write_all (cells : list (nat * A)) (b : list A) : list A :=
  match cells with
  | [] => b
  | (o, v) :: r => write_all r (upd o v b)
  end.

Definition setitem_all (dst src : handle) : T unit :=
  fun w =>
    match t_shape dst with
    | [] => (Raise (IndexError "slice of a 0-d tensor"), w)
    | _ =>
        let v := hval w src in
        if match bshape (t_shape dst) (shape v) with
           | Some s => if list_eq_dec Nat.eq_dec s (t_shape dst) then true else false
           | None => false
           end
        then
          let vals := map (fun idx => geta v (bidx (shape v) idx)) (indices (t_shape dst)) in
          let b' := write_all (combine (data (lay dst)) vals) (buffer w (buf dst)) in
          (Ok tt, mkW (upd (buf dst) b' (heap w)) (rng w) (fs w))
        else (Raise (RuntimeError "shape mismatch in assignment"), w)
    end.

End World.
Arguments world A : clear implicits.
Arguments T A X : clear implicits.
(** ** The notebook: [DFL], [dist2bbox], [post_process] *)

Section Notebook.
Context {A : Type} {SA : Scalar A}.

(** class DFL(nn.Module) *)
Record DFL : Type := mkDFL { conv : Conv2d; c1 : nat }.

Definition DFL_init (c1 : nat) : T A DFL :=
  conv <- nn_Conv2d c1 1 1 ;;
  x <- torch_arange c1 ;;
  xv <- t_view x [1; Z.of_nat c1; 1; 1]%Z ;;
  p <- nn_Parameter xv ;;
  setitem_all (weight conv) p ;;;
  ret (mkDFL conv c1).

Definition DFL_forward (self : DFL) (x : handle) : T A handle :=
  ' (b, c, a) <- unpack3 (t_shape x) ;;
  v <- t_view x [Z.of_nat b; 4; Z.of_nat (c1 self); Z.of_nat a]%Z ;;
  t <- t_transpose v 2 1 ;;
  s <- t_softmax t 1 ;;
  o <- Conv2d_call (conv self) s ;;
  t_view o [Z.of_nat b; 4; Z.of_nat a]%Z.

Definition dist2bbox (distance anchor_points : handle) (xywh : bool) (dim : Z)
  : T A handle :=
  parts <- t_split distance 2 dim ;;
  ' (lt, rb) <- unpack2 parts ;;
  x1y1 <- t_sub anchor_points lt ;;
  x2y2 <- t_add anchor_points rb ;;
  if xywh then
    s <- t_add x1y1 x2y2 ;;
    c_xy <- t_div_scalar s 2 ;;
    wh <- t_sub x2y2 x1y1 ;;
    t_cat [c_xy; wh] dim
  else
    t_cat [x1y1; x2y2] dim.

Definition post_process (x : list handle) : T A (handle * list handle) :=
  dfl <- DFL_init 16 ;;
  a <- np_load "./anchors.npy" ;;
  anchors <- torch_tensor a ;;
  s <- np_load "./strides.npy" ;;
  strides <- torch_tensor s ;;
  xs <- mapM (fun xi =>
                x0 <- list_item x 0 ;;
                b <- list_item (t_shape x0) 0 ;;
                t_view xi [Z.of_nat b; 144; -1]%Z) x ;;
  c <- t_cat xs 2 ;;
  parts <- t_split_sizes c [16 * 4; 80] 1 ;;
  ' (box, cls) <- unpack2 parts ;;
  d <- DFL_forward dfl box ;;
  au <- t_unsqueeze anchors 0 ;;
  db <- dist2bbox d au true 1 ;;
  dbox <- t_mul db strides ;;
  sg <- t_sigmoid cls ;;
  y <- t_cat [dbox; sg] 1 ;;
  ret (y, x).

End Notebook.
(** ** The callers of the decoding code: [frame_process] and [inference] *)

(** [permute]: dimension [i] of the result is dimension [p_i] of the
    tensor.  [place k p] is the place of [k] in [p], and [unpermute p idx]
    the index in the tensor of the element of index [idx] in the
    result. *)
Fixpoint place (k : nat) (p : list nat) : nat :=
  match p with
  | [] => 0
  | d :: r => if d =? k then 0 else S (place k r)
  end.

Definition unpermute (p idx : list nat) : list nat :=
  map (fun k => nth (place k p) idx 0) (seq 0 (length p)).

Definition permute_layout (p : list nat) (t : tensor nat) : tensor nat :=
  tabulate (map (fun d => nth d (shape t) 0) p) (fun idx => get 0 t (unpermute p idx)).

(** The dimensions are read from left to right: each is brought within
    the rank, then compared with those already seen. *)
Fixpoint permute_dims (rank : nat) (seen : list nat) (dims : list Z) : result (list nat) :=
  match dims with
  | [] => Ok []
  | d :: r =>
      match norm_dim rank d with
      | None => Raise (IndexError "dimension out of range")
      | Some n =>
          if existsb (Nat.eqb n) seen then Raise (RuntimeError "repeated dim in permute")
          else match permute_dims rank (n :: seen) r with
               | Ok l => Ok (n :: l)
               | Raise e => Raise e
               end
      end
  end.

Fixpoint nodupb (l : list nat) : bool :=
  match l with
  | [] => true
  | x :: r => negb (existsb (Nat.eqb x) r) && nodupb r
  end.

(** The image library [cv2] works on arrays of bytes; the notebook calls
    its colour conversion, with the code [COLOR_BGR2RGB], and its
    resizing.  They are taken as given. *)
Record cv2_lib : Type := mkCv2 {
  cv2_cvtColor_BGR2RGB : tensor nat -> result (tensor nat);
  cv2_resize : tensor nat -> nat * nat -> result (tensor nat)
}.

Section Callers.
Context {A : Type} {SA : Scalar A}.

Definition t_permute (h : handle) (dims : list Z) : T A handle :=
  if length dims =? length (t_shape h) then
    match permute_dims (length (t_shape h)) [] dims with
    | Ok p => ret (mkH (buf h) (permute_layout p (lay h)))
    | Raise e => raise e
    end
  else raise (RuntimeError "number of dimensions does not match the desired ordering").

(** [np.transpose] on a tensor: the tensor is read as an array, the axes
    of the array are permuted, and the result is wrapped as a tensor on
    the same memory. *)
Definition np_transpose (h : handle) (axes : list Z) : T A handle :=
  if length axes =? length (t_shape h) then
    match permute_dims (length (t_shape h)) [] axes with
    | Ok p => ret (mkH (buf h) (permute_layout p (lay h)))
    | Raise _ => raise (ValueError "invalid axes")
    end
  else raise (ValueError "axes don't match array").

(** [torch.from_numpy] on an array of bytes. *)
Definition torch_from_numpy (a : tensor nat) : T A handle := alloc (tmap s_of_nat a).

(** [.float()] on a tensor of bytes: a copy, of floats. *)
Definition t_float (h : handle) : T A handle := v <- read h ;; alloc v.

(** [t /= c], in place.  The library refuses to write in place to a
    tensor two elements of which lie at one position. *)
Definition t_idiv_scalar (h : handle) (c : nat) : T A unit :=
  fun w =>
    let b := buffer w (buf h) in
    let offs := data (lay h) in
    if nodupb offs then
      let vals := map (fun o => s_div (nth o b s_zero) (s_of_nat c)) offs in
      (Ok tt, mkW (upd (buf h) (write_all (combine offs vals) b) (heap w)) (rng w) (fs w))
    else (Raise (RuntimeError "unsupported operation: elements share a memory location"), w).

(** The outcome of a call of the image library. *)
Definition lift_result {X} (r : result X) : T A X := fun w => (r, w).

Definition frame_process (cv2 : cv2_lib) (frame : tensor nat) (input_shape : nat * nat)
  : T A handle :=
  img <- lift_result (cv2_cvtColor_BGR2RGB cv2 frame) ;;
  img <- lift_result (cv2_resize cv2 img input_shape) ;;
  img <- torch_from_numpy img ;;
  img <- t_float img ;;
  t_idiv_scalar img 255 ;;;
  np_transpose img [2; 0; 1]%Z.

(** The statements of the loop of [inference] that prepare the input of
    the session from a frame: the array is the argument of [ep.run]. *)
Definition inference_input (cv2 : cv2_lib) (frame : tensor nat) : T A (tensor A) :=
  let input_shape := (640, 640) in
  im <- frame_process cv2 frame input_shape ;;
  im <- (if length (t_shape im) =? 3 then t_unsqueeze im 0 else ret im) ;;
  p <- t_permute im [0; 2; 3; 1]%Z ;;
  read p.

End Callers.

Section Decoding.
Context {A : Type} {SA : Scalar A}.

(** The statements of the loop of [inference] that decode the arrays
    returned by the session. *)
Definition inference_decode (outputs : list (tensor A)) : T A (handle * list handle) :=
  outputs <- mapM (fun item => t <- torch_tensor item ;; t_permute t [0; 3; 1; 2]%Z)
                  outputs ;;
  post_process outputs.

End Decoding.

(** ** The training notebook (2_pytorch_onnx_re-train.ipynb): [update_lr] *)

Section Optimizers.
Variable V : Type.

(** A parameter group of an optimizer is a dictionary from the names of
    the hyper-parameters to their values.  [d[k] = v] replaces the value
    of a key where it stands and adds a new key at the end. *)
Definition dict : Type := list (string * V).

Fixpoint dict_get (k : string) (d : dict) : option V :=
  match d with
  | [] => None
  | (k', v') :: r => if String.eqb k' k then Some v' else dict_get k r
  end.

Fixpoint dict_set (k : string) (v : V) (d : dict) : dict :=
  match d with
  | [] => [(k, v)]
  | (k', v') :: r => if String.eqb k' k then (k', v) :: r else (k', v') :: dict_set k v r
  end.

Record Optimizer : Type := mkOptimizer { param_groups : list dict }.

(** The optimizer after the call: the function changes the dictionaries
    of the optimizer it is given and returns nothing. *)
Definition update_lr (optimizer : Optimizer) (lr : V) : Optimizer :=
  mkOptimizer (map (fun param_group => dict_set "lr" lr param_group)
                   (param_groups optimizer)).

End Optimizers.
(** ** Assertions on runs *)

(** The library accepts to view [h] with shape [s]. *)
Definition viewable (h : handle) (s : list nat) : Prop :=
  is_strided s (data (lay h)) = true.

(** The elements of [h] fill a buffer, in order: what an operation that
    allocates its result returns. *)
Definition contiguous (h : handle) : Prop :=
  data (lay h) = seq 0 (numel (t_shape h)).

Section Assertions.
Context {A : Type} {SA : Scalar A}.

(** The handle points into the heap and has one offset per element. *)
Definition valid (w : world A) (h : handle) : Prop :=
  buf h < length (heap w) /\ wf (lay h).

(** [w'] has the buffers of [w], unchanged, perhaps more, and the same
    files. *)
Definition ext (w w' : world A) : Prop :=
  (exists l, heap w' = heap w ++ l) /\ fs w' = fs w.

(** In [w] the handle is a tensor of shape [s] with elements [f]. *)
Definition holds (w : world A) (h : handle) (s : list nat) (f : list nat -> A) : Prop :=
  valid w h /\ t_shape h = s /\ forall idx, inb s idx -> hget w h idx = f idx.

(** The run of [m] from [w] returns, and [Q] holds of the value and the
    final state. *)
Definition wp {X} (m : T A X) (w : world A) (Q : X -> world A -> Prop) : Prop :=
  exists x w', m w = (Ok x, w') /\ Q x w'.

(** The outcome of the run of [m] from [w], value or exception, and the
    final state satisfy [phi]. *)
Definition outcome {X} (m : T A X) (w : world A)
           (phi : result X -> world A -> Prop) : Prop :=
  phi (fst (m w)) (snd (m w)).

(** The run of [m] from [w] raises [e]. *)
Definition raises {X} (m : T A X) (w : world A) (e : exn) : Prop :=
  exists w', m w = (Raise e, w').

(** The elements of a concatenation along [dim], from the shapes and
    elements of its operands. *)
Fixpoint cat_fun (dim : nat) (parts : list (list nat * (list nat -> A)))
         (idx : list nat) : A :=
  match parts with
  | [] => s_zero
  | (s, f) :: r =>
      let n := nth dim s 0 in
      if nth dim idx 0 <? n then f idx
      else cat_fun dim r (upd dim (nth dim idx 0 - n) idx)
  end.

Definition cat_size (dim : nat) (parts : list (list nat * (list nat -> A))) : nat :=
  list_sum (map (fun p => nth dim (fst p) 0) parts).

(** The decoded distance in words: the softmax of the bin logits, then
    its dot product with the bin indices 0, 1, ... *)
Definition softmax_list (l : list A) : list A :=
  map (fun x => s_div (s_exp x) (ssum (map s_exp l))) l.

Definition dot (l1 l2 : list A) : A :=
  ssum (map (fun p => s_mul (fst p) (snd p)) (combine l1 l2)).

Definition expected_bin (logits : list A) : A :=
  dot (softmax_list logits) (map s_of_nat (seq 0 (length logits))).

(** The 16 bin logits of side [s] of anchor [j] in batch item [i], in a
    tensor of shape [batch, 64, anchors] with elements [f]. *)
Definition side_logits (f : list nat -> A) (i s j : nat) : list A :=
  map (fun k => f [i; 16 * s + k; j]) (seq 0 16).

(** The box assembler in words: the corners are the anchor minus (left,
    top) and plus (right, bottom); coordinate [k] of the box is, in
    centre form, the mean of the corners (k = 0, 1) and their difference
    (k = 2, 3) and, in corner form, the corners themselves. *)
Definition box_coord (xywh : bool) (ax ay l t r b : A) (k : nat) : A :=
  let x1 := s_sub ax l in
  let y1 := s_sub ay t in
  let x2 := s_add ax r in
  let y2 := s_add ay b in
  if xywh then
    match k with
    | 0 => s_div (s_add x1 x2) (s_of_nat 2)
    | 1 => s_div (s_add y1 y2) (s_of_nat 2)
    | 2 => s_sub x2 x1
    | _ => s_sub y2 y1
    end
  else
    match k with
    | 0 => x1
    | 1 => y1
    | 2 => x2
    | _ => y2
    end.

(** The elements of a tensor value [v] read as a tensor of shape [s]. *)
Definition flat_fun (s : list nat) (v : tensor A) (idx : list nat) : A :=
  nth (offset s idx) (data v) s_zero.

(** The raw predictions, as [post_process] regroups the tensors of the
    list [x]: tensor [xi] is read as [b, 144, n] with
    n = numel xi / (b * 144), and the tensors are laid side by side
    along the last dimension, which numbers the anchor slots. *)
Definition slots_of (b : nat) (xi : handle) : nat := numel (t_shape xi) / (b * 144).

Definition raw_parts (w : world A) (b : nat) (x : list handle)
  : list (list nat * (list nat -> A)) :=
  map (fun xi => ([b; 144; slots_of b xi],
                  flat_fun [b; 144; slots_of b xi] (hval w xi))) x.

Definition slots (b : nat) (x : list handle) : nat :=
  list_sum (map (slots_of b) x).

(** [raw [i; c; j]]: channel [c] of slot [j] in batch item [i]. *)
Definition raw_pred (w : world A) (b : nat) (x : list handle) : list nat -> A :=
  cat_fun 2 (raw_parts w b x).

(** Coordinate [k] of the box of slot [j], in pixels: the distances are
    decoded from the 64 distribution channels, assembled around the
    anchor in centre form and multiplied by the stride of the slot. *)
Definition decoded_box (raw : list nat -> A) (anchors strides : tensor A)
           (i k j : nat) : A :=
  s_mul (box_coord true (geta anchors [0; j]) (geta anchors [1; j])
                   (expected_bin (side_logits raw i 0 j))
                   (expected_bin (side_logits raw i 1 j))
                   (expected_bin (side_logits raw i 2 j))
                   (expected_bin (side_logits raw i 3 j)) k)
        (geta strides [0; j]).

(** The fused tensor: 4 box coordinates, then the sigmoid of each of the
    80 class logits. *)
Definition fused (raw : list nat -> A) (anchors strides : tensor A)
           (idx : list nat) : A :=
  match idx with
  | [i; k; j] =>
      if k <? 4 then decoded_box raw anchors strides i k j
      else sigmoid (raw [i; 64 + (k - 4); j])
  | _ => s_zero
  end.

(** Whatever its outcome, [m] leaves every buffer it finds as it is. *)
Definition frames {X} (m : T A X) : Prop := forall w, ext w (snd (m w)).

(** When [m] returns, its value satisfies [P]. *)
Definition returns {X} (P : X -> Prop) (m : T A X) : Prop :=
  forall w, match fst (m w) with Ok r => P r | Raise _ => True end.

End Assertions.
(** ** More assertions *)

Section Preconditions.
Context {A : Type} {SA : Scalar A}.

(** The lists that [post_process] regroups: a non-empty list of tensors
    that can be viewed as [b, 144, n], [b] being the first size of the
    first one, with at least one slot in all. *)
Definition regroupable (w : world A) (x : list handle) (b : nat) : Prop :=
  (exists x0, nth_error x 0 = Some x0 /\ nth_error (t_shape x0) 0 = Some b)
  /\ 0 < b
  /\ Forall (valid w) x
  /\ Forall (fun xi => numel (t_shape xi) mod (b * 144) = 0) x
  /\ Forall (fun xi => viewable xi [b; 144; slots_of b xi]) x
  /\ 0 < slots b x.

(** The inputs on which [post_process] returns: such a list, and tables
    of one anchor and one stride per slot. *)
Definition decodable (w : world A) (x : list handle) (b : nat) (an st : tensor A) : Prop :=
  regroupable w x b
  /\ (fs w "./anchors.npy" = Some an /\ wf an /\ shape an = [2; slots b x])
  /\ (fs w "./strides.npy" = Some st /\ wf st /\ shape st = [1; slots b x]).

(** When [m] returns, the tensor [proj r] of its value [r] lies in a
    buffer that did not exist before the call. *)
Definition allocates {X} (proj : X -> handle) (m : T A X) : Prop :=
  forall w, match fst (m w) with
            | Ok r => length (heap w) <= buf (proj r)
            | Raise _ => True
            end.

(** The [n] bin logits of side [s] of anchor [j] in batch item [i], in a
    tensor of shape [batch, 4 * n, anchors] with elements [f]. *)
Definition bin_logits (n : nat) (f : list nat -> A) (i s j : nat) : list A :=
  map (fun k => f [i; n * s + k; j]) (seq 0 n).

(** The cells of an array of shape [b, H, W, C], and the first of the
    slots of array [l] of a list: the cells of the arrays before it. *)
Definition cells (item : tensor A) : nat := nth 1 (shape item) 0 * nth 2 (shape item) 0.

Definition first_slot (items : list (tensor A)) (l : nat) : nat :=
  list_sum (map cells (firstn l items)).

(** What [inference] makes of an array of the session: a tensor on a
    copy of the array, permuted to channels first. *)
Definition channels_first (w : world A) (b : nat) (o : handle) (item : tensor A) : Prop :=
  exists H W,
    shape item = [b; H; W; 144]
    /\ lay o = permute_layout [0; 3; 1; 2] (mkT [b; H; W; 144] (seq 0 (numel [b; H; W; 144])))
    /\ holds w o [b; 144; H; W] (fun idx =>
         match idx with
         | [i; c; y; x] => geta item [i; y; x; c]
         | _ => s_zero
         end).

End Preconditions.

(** ** The detection filter

    [non_max_suppression] is imported by the notebook from
    [yolov8_utils], which is not among the sources; [inference] calls it
    on the result of [post_process].  The definitions of this section
    follow section 4.4 of the specification. *)

Module NMS.

(** Modelled from the spec: a detection of [yolov8_utils], "a DecodedBox
    plus a class index, a confidence score, and an implicit detection id
    (its index in the pre-filter list)"; the box is in centre form. *)
Record Detection : Type := mkDetection {
  det_box : R * R * R * R;
  det_class : nat;
  det_conf : R;
  det_id : nat
}.

(** Modelled from the spec: the configuration of the call of
    [non_max_suppression] of [yolov8_utils]: "a confidence threshold, an
    overlap (IoU) threshold, a maximum detections count, an optional
    allow-list of class indices, a flag for class-agnostic suppression". *)
Record config : Type := mkConfig {
  conf_thres : R;
  iou_thres : R;
  max_det : nat;
  classes : option (list nat);
  agnostic : bool
}.

(** A fused prediction row: the box, then the class probabilities. *)
Definition row : Type := (R * R * R * R) * list R.

(** Modelled from the spec: step 1 of [non_max_suppression], "take the
    maximum class probability and its class index"; of equal
    probabilities the first is taken. *)
Fixpoint best_class (k : nat) (scores : list R) (cur : nat * R) : nat * R :=
  match scores with
  | [] => cur
  | p :: r => best_class (S k) r (if Rlt_dec (snd cur) p then (k, p) else cur)
  end.

Definition label (scores : list R) : nat * R :=
  match scores with
  | [] => (0, 0%R)
  | p :: r => best_class 1 r (0, p)
  end.

Fixpoint detections (id : nat) (rows : list row) : list Detection :=
  match rows with
  | [] => []
  | (box, scores) :: r =>
      mkDetection box (fst (label scores)) (snd (label scores)) id
      :: detections (S id) r
  end.

(** Modelled from the spec: steps 1 and 2 of [non_max_suppression],
    "discard rows with confidence below the threshold" and "if a class
    allow-list is given, discard rows whose label is not in it". *)
Definition keep (cfg : config) (d : Detection) : bool :=
  (if Rlt_dec (det_conf d) (conf_thres cfg) then false else true)
  && match classes cfg with
     | Some allowed => existsb (Nat.eqb (det_class d)) allowed
     | None => true
     end.

Definition candidates (cfg : config) (rows : list row) : list Detection :=
  filter (keep cfg) (detections 0 rows).

(** Modelled from the spec: step 3 of [non_max_suppression], "sort
    remaining candidates by confidence descending", where of two
    candidates of equal confidence the one of lower index comes first. *)
Fixpoint insert (d : Detection) (l : list Detection) : list Detection :=
  match l with
  | [] => [d]
  | e :: r => if Rlt_dec (det_conf d) (det_conf e) then e :: insert d r else d :: l
  end.

Definition sort (l : list Detection) : list Detection := fold_right insert [] l.

(** Modelled from the spec: the overlap ratio of two boxes of
    [yolov8_utils], "intersection over union" of their areas. *)
Definition corners (b : R * R * R * R) : R * R * R * R :=
  let '(cx, cy, w, h) := b in
  (cx - w / 2, cy - h / 2, cx + w / 2, cy + h / 2)%R.

Definition iou (a b : R * R * R * R) : R :=
  let '(ax1, ay1, ax2, ay2) := corners a in
  let '(bx1, by1, bx2, by2) := corners b in
  let iw := Rmax 0 (Rmin ax2 bx2 - Rmax ax1 bx1) in
  let ih := Rmax 0 (Rmin ay2 by2 - Rmax ay1 by1) in
  let inter := (iw * ih)%R in
  (inter / ((ax2 - ax1) * (ay2 - ay1) + (bx2 - bx1) * (by2 - by1) - inter))%R.

(** [d], emitted, removes [e]: their overlap exceeds the threshold and,
    unless suppression is class-agnostic, they have the same class. *)
Definition suppresses (cfg : config) (d e : Detection) : bool :=
  (agnostic cfg || (det_class d =? det_class e))
  && (if Rlt_dec (iou_thres cfg) (iou (det_box d) (det_box e)) then true else false).

(** Modelled from the spec: steps 4 and 5 of [non_max_suppression],
    "greedily select the highest-confidence remaining candidate, emit
    it, then remove all not-yet-emitted candidates whose IoU with the
    emitted box exceeds the overlap threshold", and "stop when no
    candidates remain or the emitted count reaches the maximum";
    [budget] is the maximum less the emitted count. *)
Fixpoint greedy (cfg : config) (budget : nat) (cands : list Detection)
  : list Detection :=
  match budget, cands with
  | S n, d :: r => d :: greedy cfg n (filter (fun e => negb (suppresses cfg d e)) r)
  | _, _ => []
  end.

(** Modelled from the spec: [non_max_suppression] of [yolov8_utils] on
    the rows of one batch item; "a maximum of zero is a configuration
    error". *)
Definition non_max_suppression (cfg : config) (rows : list row)
  : result (list Detection) :=
  if max_det cfg =? 0 then Raise (ValueError "invalid configuration")
  else Ok (greedy cfg (max_det cfg) (sort (candidates cfg rows))).

(** The call in [inference]:
    [non_max_suppression(preds, 0.25, 0.7, agnostic=False, max_det=300,
    classes=None)]. *)
Definition inference_config : config :=
  mkConfig (25 / 100) (7 / 10) 300 None false.

(** Non-increasing confidence. *)
Definition descending (d e : Detection) : Prop := (det_conf e <= det_conf d)%R.

End NMS.

(** ** Concrete states and inputs, for the examples *)

Definition w_zeros : world R :=
  mkW [repeat 0%R 64] (fun _ => 0%R) (fun _ => None).

Definition x_rank4 : handle := mkH 0 (mkT [1; 4; 16; 1] (seq 0 64)).

Definition x_one_anchor : handle := mkH 0 (mkT [1; 64; 1] (seq 0 64)).

Definition w_shifted : world R :=
  mkW [repeat 1%R 16 ++ repeat 0%R 48] (fun _ => 0%R) (fun _ => None).

Definition w_scenario : world R :=
  mkW [[2; 2; 2; 2]%R; [10; 10]%R; [32]%R] (fun _ => 0%R) (fun _ => None).

Definition fs_tables (path : string) : option (tensor R) :=
  if String.eqb path "./anchors.npy" then Some (mkT [2; 1] [10; 10]%R)
  else if String.eqb path "./strides.npy" then Some (mkT [1; 1] [32]%R)
  else None.

Definition w_frame : world R := mkW [repeat 0%R 144] (fun _ => 0%R) fs_tables.

Definition x_frame : handle := mkH 0 (mkT [1; 144; 1; 1] (seq 0 144)).

Definition fs_tables_x (path : string) : option (tensor xreal) :=
  if String.eqb path "./anchors.npy" then Some (mkT [2; 1] [Fin 10; Fin 10])
  else if String.eqb path "./strides.npy" then Some (mkT [1; 1] [Fin 32])
  else None.

Definition w_nan : world xreal := mkW [repeat NaN 144] (fun _ => Fin 0) fs_tables_x.

Definition x_nan : handle := mkH 0 (mkT [1; 144; 1; 1] (seq 0 144)).







Definition x_two_slots : handle := mkH 0 (mkT [1; 144; 2; 1] (seq 0 288)).



(** ** More concrete states and inputs, for the examples *)

(** An instance of the image library: the conversion reverses the
    channels of a pixel, the resizing takes the nearest pixel. *)
Definition reverse_channels (frame : tensor nat) : tensor nat :=
  tabulate (shape frame) (fun idx =>
    match idx with
    | [y; x; c] => get 0 frame [y; x; 2 - c]
    | _ => 0
    end).

Definition nearest_pixels (img : tensor nat) (size : nat * nat) : tensor nat :=
  tabulate [snd size; fst size; nth 2 (shape img) 0] (fun idx =>
    match idx with
    | [y; x; c] =>
        get 0 img [y * nth 0 (shape img) 0 / snd size; x * nth 1 (shape img) 0 / fst size; c]
    | _ => 0
    end).

Definition cv2_nearest : cv2_lib :=
  mkCv2 (fun frame => Ok (reverse_channels frame))
        (fun img size => Ok (nearest_pixels img size)).

(** A frame of one row of two pixels, blue and orange. *)
Definition frame_bgr : tensor nat := mkT [1; 2; 3] [255; 0; 0; 0; 128; 255].

Definition fs_anchors_only (path : string) : option (tensor R) :=
  if String.eqb path "./anchors.npy" then Some (mkT [2; 1] [10; 10]%R) else None.

Definition w_no_strides : world R :=
  mkW [repeat 0%R 144] (fun _ => 0%R) fs_anchors_only.

(** The state [w_frame] with another buffer and another generator. *)
Definition w_frame_other : world R :=
  mkW [repeat 0%R 144; [5%R]] (fun _ => 1%R) fs_tables.

(** An array of the session with one cell. *)
Definition output_one_cell : tensor R := mkT [1; 1; 1; 144] (repeat 0%R 144).

Definition x_no_anchor : handle := mkH 0 (mkT [2; 64; 0] []).

Definition x_two_bins : handle := mkH 0 (mkT [1; 8; 1] (seq 0 8)).

Definition distance_rows : handle := mkH 0 (mkT [1; 4] [0; 1; 2; 3]).

Definition anchor_rows : handle := mkH 1 (mkT [1; 2] [0; 1]).

Definition distance_three : handle := mkH 0 (mkT [1; 3; 1] [0; 1; 2]).

(** Two slots, and tables with a single entry. *)
Definition w_single_tables : world R := mkW [repeat 0%R 288] (fun _ => 0%R) fs_tables.

(** An optimizer with two parameter groups, the second without a
    learning rate. *)
Definition optimizer_two_groups : Optimizer R :=
  mkOptimizer [[("lr"%string, 1%R); ("eps"%string, 2%R)]; [("eps"%string, 3%R)]].

(** A raw tensor all of whose logits are +infinity. *)
Definition w_inf : world xreal := mkW [repeat PInf 144] (fun _ => Fin 0) fs_tables_x.
(** ** Facts on indices *)

Lemma length_indices (s : list nat) : length (indices s) = numel s.
Proof.
  induction s as [|n s IH]; simpl; [reflexivity|].
  assert (H : forall k a, length (flat_map (fun i => map (cons i) (indices s)) (seq a k))
                          = k * numel s).
  { induction k as [|k IHk]; intros a; simpl; [reflexivity|].
    rewrite length_app, length_map, IH, IHk. reflexivity. }
  apply H.
Qed.

Lemma nth_flat_map_block {B} (f : nat -> list B) (k : nat) (d : B) :
  (forall i, length (f i) = k) ->
  forall n a i j, i < n -> j < k ->
    nth (i * k + j) (flat_map f (seq a n)) d = nth j (f (a + i)) d.
Proof.
  intros Hlen. induction n as [|n IH]; intros a i j Hi Hj; [lia|].
  simpl. destruct i as [|i].
  - simpl. rewrite app_nth1 by (rewrite Hlen; lia). now rewrite Nat.add_0_r.
  - rewrite app_nth2 by (rewrite Hlen; simpl; lia).
    rewrite Hlen. replace (S i * k + j - k) with (i * k + j) by (simpl; lia).
    rewrite IH by lia. f_equal. f_equal. lia.
Qed.

Lemma offset_lt (s idx : list nat) : inb s idx -> offset s idx < numel s.
Proof.
  revert idx. induction s as [|n s IH]; intros [|i idx] H; simpl in *; try tauto; try lia.
  destruct H as [Hi H]. specialize (IH _ H). nia.
Qed.

Lemma nth_indices (s idx : list nat) (d : list nat) :
  inb s idx -> nth (offset s idx) (indices s) d = idx.
Proof.
  revert idx. induction s as [|n s IH]; intros [|i idx] H; simpl in *; try tauto.
  destruct H as [Hi H].
  rewrite nth_flat_map_block with (k := numel s).
  - simpl. rewrite nth_indep with (d' := i :: d).
    + rewrite map_nth. now rewrite IH.
    + rewrite length_map, length_indices. now apply offset_lt.
  - intros. now rewrite length_map, length_indices.
  - exact Hi.
  - now apply offset_lt.
Qed.

Lemma inb_length (s idx : list nat) : inb s idx -> length idx = length s.
Proof.
  revert idx. induction s as [|n s IH]; intros [|i idx] H; simpl in *; try tauto.
  f_equal. apply IH. tauto.
Qed.

Lemma indices_inb (s idx : list nat) : In idx (indices s) -> inb s idx.
Proof.
  revert idx. induction s as [|n s IH]; intros idx H; simpl in *.
  - destruct H as [<-|[]]. exact I.
  - apply in_flat_map in H. destruct H as [i [Hi H]].
    apply in_map_iff in H. destruct H as [idx' [<- H]].
    apply in_seq in Hi. simpl. split; [lia|]. now apply IH.
Qed.

Section TabulateFacts.
Context {A : Type}.

Lemma shape_tabulate (s : list nat) (f : list nat -> A) : shape (tabulate s f) = s.
Proof. reflexivity. Qed.

Lemma wf_tabulate (s : list nat) (f : list nat -> A) : wf (tabulate s f).
Proof. unfold wf. simpl. now rewrite length_map, length_indices. Qed.

Lemma get_tabulate (d : A) (s : list nat) (f : list nat -> A) (idx : list nat) :
  inb s idx -> get d (tabulate s f) idx = f idx.
Proof.
  intros H. unfold get. simpl.
  rewrite nth_indep with (d' := f idx)
    by (rewrite length_map, length_indices; now apply offset_lt).
  rewrite map_nth. now rewrite nth_indices.
Qed.

End TabulateFacts.

(** ** Facts on lists and indices used below *)

Lemma upd_length {X} (k : nat) (v : X) (l : list X) : length (upd k v l) = length l.
Proof.
  revert k. induction l as [|x l IH]; intros [|k]; simpl; auto.
Qed.

Lemma nth_upd_same {X} (k : nat) (v d : X) (l : list X) :
  k < length l -> nth k (upd k v l) d = v.
Proof.
  revert k. induction l as [|x l IH]; intros [|k] H; simpl in *; try lia; auto.
  apply IH. lia.
Qed.

Lemma nth_upd_other {X} (k j : nat) (v d : X) (l : list X) :
  j <> k -> nth j (upd k v l) d = nth j l d.
Proof.
  revert k j. induction l as [|x l IH]; intros [|k] [|j] H; simpl in *; auto; try lia.
Qed.

Lemma inb_upd (s idx : list nat) (k v : nat) :
  inb s idx -> v < nth k s 0 -> inb s (upd k v idx).
Proof.
  revert idx k. induction s as [|n s IH]; intros [|i idx] [|k] H Hv;
    simpl in *; try tauto; try lia.
  split; [tauto|]. apply IH; tauto.
Qed.

Lemma inb_upd_shape (s idx : list nat) (k n v : nat) :
  inb (upd k n s) idx -> v < nth k s 0 -> inb s (upd k v idx).
Proof.
  revert idx k. induction s as [|m s IH]; intros [|i idx] [|k] H Hv;
    simpl in *; try tauto; try lia.
  split; [tauto|]. apply IH; tauto.
Qed.

Lemma inb_nth (s idx : list nat) (k : nat) :
  inb s idx -> k < length s -> nth k idx 0 < nth k s 0.
Proof.
  revert idx k. induction s as [|n s IH]; intros [|i idx] [|k] H Hk;
    simpl in *; try tauto; try lia.
  apply IH; [tauto|lia].
Qed.

Lemma nth_map_default {X Y} (g : X -> Y) (l : list X) (n : nat) (dx : X) (dy : Y) :
  n < length l -> nth n (map g l) dy = g (nth n l dx).
Proof.
  intros H. rewrite nth_indep with (d' := g dx) by now rewrite length_map.
  apply map_nth.
Qed.

Lemma map_nth_seq {X} (l : list X) (d : X) :
  map (fun o => nth o l d) (seq 0 (length l)) = l.
Proof.
  set (g := fun o => nth o l d).
  apply nth_ext with (d := d) (d' := d).
  - now rewrite length_map, length_seq.
  - intros n Hn. rewrite length_map, length_seq in Hn.
    rewrite nth_indep with (d' := g 0)
      by (now rewrite length_map, length_seq).
    rewrite map_nth. unfold g. now rewrite seq_nth.
Qed.

(** ** The monad *)

Section MonadFacts.
Context {A : Type} {SA : Scalar A}.

Lemma wp_ret {X} (x : X) (w : world A) (Q : X -> world A -> Prop) :
  Q x w -> wp (ret x) w Q.
Proof. intros H. exists x, w. split; [reflexivity|exact H]. Qed.

Lemma wp_bind {X Y} (m : T A X) (f : X -> T A Y) (w : world A)
      (Q : Y -> world A -> Prop) :
  wp m w (fun x w' => wp (f x) w' Q) -> wp (bind m f) w Q.
Proof.
  intros [x [w' [Hm [y [w'' [Hf HQ]]]]]].
  exists y, w''. split; [|exact HQ].
  unfold bind. now rewrite Hm.
Qed.

Lemma wp_mono {X} (m : T A X) (w : world A) (P Q : X -> world A -> Prop) :
  wp m w P -> (forall x w', P x w' -> Q x w') -> wp m w Q.
Proof.
  intros [x [w' [Hm HP]]] H. exists x, w'. split; [exact Hm|]. now apply H.
Qed.

Lemma raises_bind_l {X Y} (m : T A X) (f : X -> T A Y) (w : world A) (e : exn) :
  raises m w e -> raises (bind m f) w e.
Proof.
  intros [w' Hm]. exists w'. unfold bind. now rewrite Hm.
Qed.

Lemma raises_bind_r {X Y} (m : T A X) (f : X -> T A Y) (w : world A) (e : exn) :
  wp m w (fun x w' => raises (f x) w' e) -> raises (bind m f) w e.
Proof.
  intros [x [w' [Hm [w'' Hf]]]]. exists w''. unfold bind. now rewrite Hm.
Qed.

Lemma outcome_bind {X Y} (m : T A X) (f : X -> T A Y) (w : world A)
      (phi : result Y -> world A -> Prop) :
  wp m w (fun x w' => outcome (f x) w' phi) -> outcome (bind m f) w phi.
Proof.
  intros [x [w' [Hm Hf]]]. unfold outcome, bind in *. now rewrite Hm.
Qed.

Lemma wp_of_outcome {X} (m : T A X) (w : world A) (Q : X -> world A -> Prop) :
  outcome m w (fun r w' => match r with Ok x => Q x w' | Raise _ => False end) ->
  wp m w Q.
Proof.
  unfold outcome, wp. destruct (m w) as [[x|e] w']; simpl; [|contradiction].
  intros H. now exists x, w'.
Qed.

Lemma outcome_of_wp {X} (m : T A X) (w : world A) (Q : X -> world A -> Prop) :
  wp m w Q ->
  outcome m w (fun r w' => match r with Ok x => Q x w' | Raise _ => False end).
Proof. intros [x [w' [Hm HQ]]]. unfold outcome. now rewrite Hm. Qed.



Lemma returns_ret {X} (P : X -> Prop) (x : X) : P x -> returns (A := A) P (ret x).
Proof. intros H w. exact H. Qed.

Lemma returns_bind {X Y} (P : Y -> Prop) (m : T A X) (f : X -> T A Y) :
  (forall x, returns P (f x)) -> returns P (bind m f).
Proof.
  intros Hf w. unfold bind. destruct (m w) as [[x|e] w1]; [apply Hf|exact I].
Qed.

Lemma returns_raise {X} (P : X -> Prop) (e : exn) : returns (A := A) P (raise e).
Proof. intros w. exact I. Qed.

Lemma wp_returns {X} (m : T A X) (w : world A) (Q : X -> world A -> Prop) (P : X -> Prop) :
  wp m w Q -> returns P m -> wp m w (fun x w' => Q x w' /\ P x).
Proof.
  intros [x [w' [Hm HQ]]] HP. exists x, w'. split; [exact Hm|]. split; [exact HQ|].
  specialize (HP w). now rewrite Hm in HP.
Qed.

(** ** Extension of the heap *)

Lemma ext_refl (w : world A) : ext w w.
Proof. split; [exists []; now rewrite app_nil_r|reflexivity]. Qed.

Lemma ext_trans (w1 w2 w3 : world A) : ext w1 w2 -> ext w2 w3 -> ext w1 w3.
Proof.
  intros [[l1 H1] F1] [[l2 H2] F2]. split.
  - exists (l1 ++ l2). now rewrite H2, H1, app_assoc.
  - congruence.
Qed.

Lemma buffer_ext (w w' : world A) (b : nat) :
  ext w w' -> b < length (heap w) -> buffer w' b = buffer w b.
Proof.
  intros [[l H] _] Hb. unfold buffer. rewrite H. now apply app_nth1.
Qed.

Lemma valid_ext (w w' : world A) (h : handle) : ext w w' -> valid w h -> valid w' h.
Proof.
  intros [[l H] _] [Hb Hwf]. split; [|exact Hwf].
  rewrite H, length_app. lia.
Qed.

Lemma hget_ext (w w' : world A) (h : handle) (idx : list nat) :
  ext w w' -> valid w h -> hget w' h idx = hget w h idx.
Proof.
  intros He [Hb _]. unfold hget. now rewrite (buffer_ext He Hb).
Qed.

Lemma hval_ext (w w' : world A) (h : handle) :
  ext w w' -> valid w h -> hval w' h = hval w h.
Proof.
  intros He [Hb _]. unfold hval. now rewrite (buffer_ext He Hb).
Qed.

Lemma holds_ext (w w' : world A) (h : handle) s f :
  ext w w' -> holds w h s f -> holds w' h s f.
Proof.
  intros He [Hv [Hs Hf]]. split; [now apply (valid_ext He)|]. split; [exact Hs|].
  intros idx Hi. rewrite (hget_ext _ He Hv). now apply Hf.
Qed.

Lemma holds_eq (w : world A) (h : handle) s (f g : list nat -> A) :
  holds w h s f -> (forall idx, inb s idx -> f idx = g idx) -> holds w h s g.
Proof.
  intros [Hv [Hs Hf]] H. split; [exact Hv|]. split; [exact Hs|].
  intros idx Hi. rewrite Hf by exact Hi. now apply H.
Qed.

(** Reading the value of a handle. *)
Lemma geta_hval (w : world A) (h : handle) s f (idx : list nat) :
  holds w h s f -> inb s idx -> geta (hval w h) idx = f idx.
Proof.
  intros [[Hb Hwf] [Hs Hf]] Hi. rewrite <- Hf by exact Hi.
  unfold geta, get, hval, hget. simpl.
  unfold t_shape in Hs. rewrite Hs. unfold get.
  set (g := fun o => nth o (buffer w (buf h)) s_zero).
  rewrite nth_indep with (d' := g 0).
  - rewrite map_nth. unfold g. now rewrite Hs.
  - rewrite length_map. unfold wf in Hwf. rewrite Hwf, Hs. now apply offset_lt.
Qed.

Lemma shape_hval (w : world A) (h : handle) : shape (hval w h) = t_shape h.
Proof. reflexivity. Qed.

Lemma wf_hval (w : world A) (h : handle) : wf (lay h) -> wf (hval w h).
Proof. unfold wf, hval. simpl. now rewrite length_map. Qed.

(** ** Allocation *)

Lemma alloc_wp (v : tensor A) (w : world A) :
  wf v ->
  wp (alloc v) w (fun h w' =>
    ext w w' /\ holds w' h (shape v) (geta v) /\ rng w' = rng w
    /\ heap w' = heap w ++ [data v]).
Proof.
  intros Hwf. eexists. eexists. split; [reflexivity|].
  split; [|split; [|split; reflexivity]].
  - split; [now exists [data v]|reflexivity].
  - split; [|split; [reflexivity|]].
    + split; simpl.
      * rewrite length_app. simpl. lia.
      * unfold wf. simpl. now rewrite length_seq.
    + intros idx Hi. unfold hget, buffer, geta, get. simpl.
      rewrite app_nth2 by lia. rewrite Nat.sub_diag. simpl.
      rewrite seq_nth by (rewrite Hwf; now apply offset_lt). reflexivity.
Qed.

End MonadFacts.

(** ** Strided layouts *)

Lemma offset_affine (s idx : list nat) : offset s idx = affine (rm_strides s) idx.
Proof.
  revert idx. induction s as [|n s IH]; intros [|i idx]; simpl; auto.
Qed.

Lemma rm_strides_length (s : list nat) : length (rm_strides s) = length s.
Proof. induction s as [|n s IH]; simpl; auto. Qed.

Lemma inb_zeros (s : list nat) : 0 < numel s -> inb s (map (fun _ => 0) s).
Proof.
  induction s as [|n s IH]; simpl; [auto|]. intros H.
  split; [nia|]. apply IH. nia.
Qed.

Lemma offset_zeros (s : list nat) : offset s (map (fun _ => 0) s) = 0.
Proof. induction s as [|n s IH]; simpl; auto. Qed.

Lemma affine_zeros (st s : list nat) : affine st (map (fun _ => 0) s) = 0.
Proof.
  revert st. induction s as [|n s IH]; intros [|t st]; simpl; auto.
Qed.

Lemma cand_strides_agree (offs : list nat) (B : nat) (s st : list nat) :
  nth 0 offs 0 = B ->
  length st = length s ->
  0 < numel s ->
  (forall idx, inb s idx -> nth (offset s idx) offs 0 = B + affine st idx) ->
  forall idx, inb s idx -> affine (cand_strides s offs) idx = affine st idx.
Proof.
  intros HB. revert st. induction s as [|n s IH]; intros [|t st] Hl Hn H [|i idx] Hi;
    simpl in *; try tauto; try discriminate.
  destruct Hi as [Hi Hidx].
  assert (Hs : 0 < numel s) by nia.
  assert (Htail : forall idx', inb s idx' -> nth (offset s idx') offs 0 = B + affine st idx').
  { intros idx' Hi'. specialize (H (0 :: idx')). simpl in H. apply H. split; [lia|exact Hi']. }
  rewrite (IH st) by (auto; lia).
  destruct (Nat.leb_spec n 1) as [Hle|Hgt].
  - replace i with 0 by lia. lia.
  - specialize (H (1 :: map (fun _ => 0) s)). simpl in H.
    rewrite offset_zeros, affine_zeros in H.
    rewrite HB. rewrite Nat.add_0_r in H.
    replace (numel s + 0) with (numel s) in H by lia.
    rewrite H by (split; [lia|now apply inb_zeros]). f_equal. lia.
Qed.

(** A layout with a base and strides passes the test of [view]. *)
Lemma is_strided_intro (s offs : list nat) (B : nat) (st : list nat) :
  length st = length s ->
  (forall idx, inb s idx -> nth (offset s idx) offs 0 = B + affine st idx) ->
  is_strided s offs = true.
Proof.
  intros Hl H. unfold is_strided. apply forallb_forall. intros idx Hin.
  apply indices_inb in Hin. apply Nat.eqb_eq.
  assert (Hn : 0 < numel s) by (pose proof (offset_lt _ _ Hin); lia).
  assert (HB : nth 0 offs 0 = B).
  { specialize (H _ (inb_zeros s Hn)). rewrite offset_zeros, affine_zeros in H. lia. }
  rewrite (cand_strides_agree offs s st HB Hl Hn H _ Hin), HB. now apply H.
Qed.

Lemma contiguous_strided (s : list nat) (N : nat) :
  numel s <= N -> is_strided s (seq 0 N) = true.
Proof.
  intros HN. apply is_strided_intro with (B := 0) (st := rm_strides s).
  - apply rm_strides_length.
  - intros idx Hi. pose proof (offset_lt _ _ Hi).
    rewrite seq_nth by lia. simpl. apply offset_affine.
Qed.

(** ** Bounds of multi-indices, by component *)

Lemma inb_iff_nth (s idx : list nat) :
  inb s idx <-> length idx = length s /\ forall k, k < length s -> nth k idx 0 < nth k s 0.
Proof.
  revert idx. induction s as [|n s IH]; intros [|i idx]; simpl.
  - split; [intros _; split; [reflexivity|intros; lia]|tauto].
  - split; [tauto|intros [H _]; discriminate].
  - split; [tauto|intros [H _]; discriminate].
  - rewrite IH. split.
    + intros [Hi [Hl Hk]]. split; [congruence|]. intros [|k] Hlt; [exact Hi|]. apply Hk. lia.
    + intros [Hl Hk]. split; [apply (Hk 0); lia|]. split; [congruence|].
      intros k Hlt. apply (Hk (S k)). lia.
Qed.

Lemma nth_upd {X} (k j : nat) (v d : X) (l : list X) :
  nth j (upd k v l) d = if (j =? k) && (k <? length l) then v else nth j l d.
Proof.
  destruct (Nat.eqb_spec j k) as [->|Hne]; simpl.
  - destruct (Nat.ltb_spec k (length l)) as [Hlt|Hge].
    + now apply nth_upd_same.
    + revert k Hge. induction l as [|x l IH]; intros [|k] Hge; simpl in *; auto; try lia.
      apply IH. lia.
  - now apply nth_upd_other.
Qed.

Lemma nth_swap (d1 d2 k : nat) (l : list nat) :
  d1 < length l -> d2 < length l ->
  nth k (swap d1 d2 l) 0 =
  if k =? d1 then nth d2 l 0 else if k =? d2 then nth d1 l 0 else nth k l 0.
Proof.
  intros H1 H2. unfold swap. rewrite !nth_upd, !upd_length.
  destruct (Nat.ltb_spec d1 (length l)); [|lia].
  destruct (Nat.ltb_spec d2 (length l)); [|lia].
  rewrite !andb_true_r. reflexivity.
Qed.

Lemma swap_length (d1 d2 : nat) (l : list nat) : length (swap d1 d2 l) = length l.
Proof. unfold swap. now rewrite !upd_length. Qed.

Lemma inb_swap (d1 d2 : nat) (s idx : list nat) :
  d1 < length s -> d2 < length s ->
  inb (swap d1 d2 s) idx -> inb s (swap d1 d2 idx).
Proof.
  intros H1 H2. rewrite !inb_iff_nth, !swap_length. intros [Hl Hk].
  split; [exact Hl|]. intros k Hlt.
  rewrite nth_swap by lia.
  destruct (Nat.eqb_spec k d1) as [->|N1].
  - specialize (Hk d2 H2). rewrite nth_swap in Hk by lia.
    destruct (Nat.eqb_spec d2 d1) as [->|N]; [exact Hk|].
    now rewrite Nat.eqb_refl in Hk.
  - destruct (Nat.eqb_spec k d2) as [->|N2].
    + specialize (Hk d1 H1). rewrite nth_swap in Hk by lia.
      now rewrite Nat.eqb_refl in Hk.
    + specialize (Hk k Hlt). rewrite nth_swap in Hk by lia.
      destruct (Nat.eqb_spec k d1); [lia|]. destruct (Nat.eqb_spec k d2); [lia|]. exact Hk.
Qed.

Lemma norm_dim_lt (r : nat) (d : Z) (n : nat) : norm_dim r d = Some n -> n < r.
Proof.
  unfold norm_dim.
  destruct (Z.leb_spec 0 d).
  - destruct (Z.ltb_spec d (Z.of_nat r)); [|discriminate]. intros [= <-]. lia.
  - destruct (Z.leb_spec (- Z.of_nat r) d); [|discriminate]. intros [= <-]. lia.
Qed.

(** ** Views *)

Section ViewFacts.
Context {A : Type} {SA : Scalar A}.

Lemma t_view_wp (w : world A) (h : handle) s f spec s' (g : list nat -> A) :
  holds w h s f ->
  view_shape (numel s) spec = Some s' ->
  viewable h s' ->
  numel s' = numel s ->
  (forall idx', inb s' idx' ->
     exists idx, inb s idx /\ offset s idx = offset s' idx' /\ f idx = g idx') ->
  wp (t_view h spec) w (fun h' w' => w' = w /\ holds w h' s' g /\ buf h' = buf h).
Proof.
  intros [[Hb Hwf] [Hs Hf]] Hv Hst Hn Hidx.
  unfold t_view. rewrite Hs, Hv, Hst. apply wp_ret.
  split; [reflexivity|]. split; [|reflexivity].
  split; [|split; [reflexivity|]].
  - split; [exact Hb|]. unfold wf in *. simpl. unfold t_shape in Hs. now rewrite Hwf, Hs.
  - intros idx' Hi. destruct (Hidx _ Hi) as [idx [Hi0 [Ho <-]]].
    rewrite <- Hf by exact Hi0. unfold hget, get. simpl.
    unfold t_shape in Hs. now rewrite Hs, Ho.
Qed.

(** A view of any tensor, read through the row-major list of its
    elements. *)
Lemma t_view_flat (w : world A) (h : handle) spec s' :
  valid w h ->
  view_shape (numel (t_shape h)) spec = Some s' ->
  viewable h s' ->
  numel s' = numel (t_shape h) ->
  wp (t_view h spec) w (fun h' w' =>
    w' = w /\ buf h' = buf h
    /\ holds w h' s' (fun idx => nth (offset s' idx) (data (hval w h)) s_zero)).
Proof.
  intros [Hb Hwf] Hv Hst Hn.
  unfold t_view. rewrite Hv, Hst. apply wp_ret.
  split; [reflexivity|]. split; [reflexivity|].
  split; [|split; [reflexivity|]].
  - split; [exact Hb|]. unfold wf in *. simpl. unfold t_shape in Hn. now rewrite Hwf.
  - intros idx Hi. unfold hget, get, hval. simpl.
    rewrite nth_map_default with (dx := 0); [reflexivity|].
    unfold wf in Hwf. rewrite Hwf.
    unfold t_shape in Hn. rewrite <- Hn. now apply offset_lt.
Qed.

Lemma t_transpose_wp (w : world A) (h : handle) s f d1 d2 n1 n2 :
  holds w h s f ->
  norm_dim (length s) d1 = Some n1 ->
  norm_dim (length s) d2 = Some n2 ->
  wp (t_transpose h d1 d2) w (fun h' w' =>
    w' = w /\ buf h' = buf h
    /\ holds w h' (swap n1 n2 s) (fun idx => f (swap n1 n2 idx))).
Proof.
  intros [[Hb Hwf] [Hs Hf]] H1 H2.
  unfold t_transpose. rewrite Hs, H1, H2. apply wp_ret.
  split; [reflexivity|]. split; [reflexivity|].
  unfold t_shape in Hs.
  split; [|split].
  - split; [exact Hb|]. apply wf_tabulate.
  - unfold t_shape. simpl. now rewrite Hs.
  - intros idx Hi. unfold hget. simpl. unfold transpose_layout.
    rewrite Hs, get_tabulate by exact Hi.
    apply (Hf (swap n1 n2 idx)).
    apply inb_swap; eauto using norm_dim_lt.
Qed.

Lemma t_unsqueeze0_wp (w : world A) (h : handle) s f :
  holds w h s f ->
  wp (t_unsqueeze h 0) w (fun h' w' =>
    w' = w /\ buf h' = buf h /\ holds w h' (1 :: s) (fun idx => f (tl idx))).
Proof.
  intros [[Hb Hwf] [Hs Hf]].
  unfold t_unsqueeze. replace (norm_dim (S (length (t_shape h))) 0) with (Some 0)
    by (unfold norm_dim; simpl; destruct (length (t_shape h)); reflexivity).
  apply wp_ret. split; [reflexivity|]. split; [reflexivity|].
  unfold t_shape in Hs.
  split; [|split].
  - split; [exact Hb|]. unfold wf in *. simpl. rewrite Hwf. lia.
  - unfold t_shape. simpl. now rewrite Hs.
  - intros [|i idx] Hi; simpl in Hi; [tauto|]. destruct Hi as [Hi1 Hi].
    rewrite <- Hf by exact Hi. unfold hget, get. simpl.
    rewrite Hs. replace i with 0 by lia. reflexivity.
Qed.

(** A slice of one dimension. *)
Lemma narrow_holds (w : world A) (h : handle) s f dim start len :
  holds w h s f ->
  dim < length s ->
  start + len <= nth dim s 0 ->
  holds w (mkH (buf h) (narrow dim start len (lay h))) (upd dim len s)
        (fun idx => f (upd dim (start + nth dim idx 0) idx)).
Proof.
  intros [[Hb Hwf] [Hs Hf]] Hd Hl. unfold t_shape in Hs.
  split; [|split].
  - split; [exact Hb|]. apply wf_tabulate.
  - unfold t_shape. simpl. now rewrite Hs.
  - intros idx Hi. unfold hget. simpl. unfold narrow.
    rewrite Hs, get_tabulate by exact Hi.
    apply (Hf (upd dim (start + nth dim idx 0) idx)).
    apply inb_upd_shape with (n := len); [exact Hi|].
    assert (Hn : nth dim idx 0 < len).
    { pose proof (@inb_nth _ _ dim Hi) as Hk. rewrite upd_length in Hk.
      specialize (Hk Hd). rewrite nth_upd_same in Hk by exact Hd. exact Hk. }
    lia.
Qed.

Lemma t_split_sizes2_wp (w : world A) (h : handle) s f d dim n1 n2 :
  holds w h s f ->
  norm_dim (length s) d = Some dim ->
  n1 + n2 = nth dim s 0 ->
  wp (t_split_sizes h [n1; n2] d) w (fun parts w' =>
    w' = w /\ exists h1 h2, parts = [h1; h2]
    /\ lay h1 = narrow dim 0 n1 (lay h) /\ lay h2 = narrow dim n1 n2 (lay h)
    /\ holds w h1 (upd dim n1 s) (fun idx => f (upd dim (0 + nth dim idx 0) idx))
    /\ holds w h2 (upd dim n2 s) (fun idx => f (upd dim (n1 + nth dim idx 0) idx))).
Proof.
  intros Hh Hd Hn. pose proof Hh as [_ [Hs _]].
  unfold t_split_sizes. rewrite Hs, Hd. simpl list_sum.
  replace (n1 + (n2 + 0) =? nth dim s 0) with true by (symmetry; apply Nat.eqb_eq; lia).
  apply wp_ret. split; [reflexivity|]. simpl.
  eexists. eexists. split; [reflexivity|]. split; [reflexivity|]. split; [reflexivity|].
  pose proof (norm_dim_lt _ _ Hd) as Hlt.
  split; apply narrow_holds; auto; lia.
Qed.

Lemma t_split2_wp (w : world A) (h : handle) s f d dim n :
  holds w h s f ->
  norm_dim (length s) d = Some dim ->
  chunk_sizes n (nth dim s 0) = Some [n; n] ->
  n + n = nth dim s 0 ->
  wp (t_split h n d) w (fun parts w' =>
    w' = w /\ exists h1 h2, parts = [h1; h2]
    /\ lay h1 = narrow dim 0 n (lay h) /\ lay h2 = narrow dim n n (lay h)
    /\ holds w h1 (upd dim n s) (fun idx => f (upd dim (0 + nth dim idx 0) idx))
    /\ holds w h2 (upd dim n s) (fun idx => f (upd dim (n + nth dim idx 0) idx))).
Proof.
  intros Hh Hd Hc Hn. pose proof Hh as [_ [Hs _]].
  unfold t_split. rewrite Hs, Hd, Hc.
  apply wp_ret. split; [reflexivity|]. simpl.
  eexists. eexists. split; [reflexivity|]. split; [reflexivity|]. split; [reflexivity|].
  pose proof (norm_dim_lt _ _ Hd) as Hlt.
  split; apply narrow_holds; auto; lia.
Qed.

End ViewFacts.

(** ** Broadcasting *)

Lemma bzip_length (p1 p2 s : list nat) :
  bzip p1 p2 = Some s -> length p1 = length s /\ length p2 = length s.
Proof.
  revert p2 s. induction p1 as [|a p1 IH]; intros [|b p2] s H; simpl in H; try discriminate.
  - injection H as <-. auto.
  - assert (Hs : exists s', bzip p1 p2 = Some s' /\ length s = S (length s')).
    { destruct (bzip p1 p2) as [s'|]; simpl in H.
      - exists s'. split; [reflexivity|].
        destruct (a =? b); [|destruct (a =? 1); [|destruct (b =? 1)]];
          try discriminate; injection H as <-; reflexivity.
      - destruct (a =? b); [|destruct (a =? 1); [|destruct (b =? 1)]]; discriminate. }
    destruct Hs as [s' [Hz Hl]]. destruct (IH _ _ Hz) as [L1 L2].
    simpl. rewrite Hl. split; congruence.
Qed.

Lemma bzip_inb (p1 p2 s idx : list nat) :
  bzip p1 p2 = Some s -> inb s idx ->
  inb p1 (bidx_aligned p1 idx) /\ inb p2 (bidx_aligned p2 idx).
Proof.
  revert p2 s idx. induction p1 as [|a p1 IH]; intros [|b p2] s idx H Hi;
    simpl in H; try discriminate.
  - injection H as <-. destruct idx; simpl in *; tauto.
  - destruct (bzip p1 p2) as [s'|] eqn:Hz; simpl in H;
      [|destruct (a =? b); [|destruct (a =? 1); [|destruct (b =? 1)]]; discriminate].
    assert (Hc : exists c, s = c :: s' /\ (c = a \/ a = 1) /\ (c = b \/ b = 1)).
    { destruct (Nat.eqb_spec a b) as [->|Nab].
      - injection H as <-. exists b. auto.
      - destruct (Nat.eqb_spec a 1) as [->|Na1].
        + injection H as <-. exists b. auto.
        + destruct (Nat.eqb_spec b 1) as [->|Nb1]; [|discriminate].
          injection H as <-. exists a. auto. }
    destruct Hc as [c [-> [Ha Hb]]].
    destruct idx as [|i idx]; simpl in Hi; [tauto|]. destruct Hi as [Hic Hi].
    destruct (IH _ _ _ Hz Hi) as [I1 I2]. simpl.
    destruct (Nat.eqb_spec a 1); destruct (Nat.eqb_spec b 1); repeat split; auto; lia.
Qed.

Lemma inb_pad (k : nat) (s idx : list nat) :
  inb (repeat 1 k ++ s) (bidx_aligned (repeat 1 k ++ s) idx) ->
  inb s (bidx_aligned s (skipn k idx)).
Proof.
  revert idx. induction k as [|k IH]; intros idx H; simpl in *; [exact H|].
  destruct idx as [|i idx]; simpl in H; [tauto|]. apply IH. tauto.
Qed.

Lemma bshape_inb (s1 s2 s idx : list nat) :
  bshape s1 s2 = Some s -> inb s idx ->
  inb s1 (bidx s1 idx) /\ inb s2 (bidx s2 idx).
Proof.
  unfold bshape, bidx, pad. intros H Hi.
  destruct (bzip_length _ _ H) as [L1 L2].
  rewrite length_app, repeat_length in L1, L2.
  pose proof (inb_length _ _ Hi) as Hl.
  destruct (bzip_inb _ _ idx H Hi) as [I1 I2].
  split; apply inb_pad.
  - replace (length idx - length s1) with (Nat.max (length s1) (length s2) - length s1) by lia.
    exact I1.
  - replace (length idx - length s2) with (Nat.max (length s1) (length s2) - length s2) by lia.
    exact I2.
Qed.

(** ** Operations that allocate their result *)

Section OpFacts.
Context {A : Type} {SA : Scalar A}.

Lemma alloc_holds (w : world A) (v : tensor A) s (g : list nat -> A) :
  wf v -> shape v = s ->
  (forall idx, inb s idx -> geta v idx = g idx) ->
  wp (alloc v) w (fun h' w' => ext w w' /\ rng w' = rng w /\ holds w' h' s g).
Proof.
  intros Hwf Hs Hg. apply wp_mono with (1 := alloc_wp w Hwf).
  intros h' w' [He [Hh [Hr _]]]. split; [exact He|]. split; [exact Hr|].
  rewrite Hs in Hh. now apply holds_eq with (1 := Hh).
Qed.

Lemma geta_tmap {X} (g : X -> A) (t : tensor X) (d : X) (idx : list nat) :
  wf t -> inb (shape t) idx -> geta (tmap g t) idx = g (get d t idx).
Proof.
  intros Hwf Hi. unfold geta, get, tmap. simpl.
  apply nth_map_default. rewrite Hwf. now apply offset_lt.
Qed.

Lemma read_map_wp (w : world A) (h : handle) s f (g : A -> A) :
  holds w h s f ->
  wp (v <- read h ;; alloc (tmap g v)) w (fun h' w' =>
    ext w w' /\ rng w' = rng w /\ holds w' h' s (fun idx => g (f idx))).
Proof.
  intros Hh. pose proof Hh as [[_ Hwf] [Hs _]].
  apply wp_bind. eexists. eexists. split; [reflexivity|].
  apply alloc_holds.
  - unfold wf. simpl. rewrite !length_map. exact Hwf.
  - exact Hs.
  - intros idx Hi. rewrite geta_tmap with (d := s_zero).
    + f_equal. now apply (geta_hval _ Hh).
    + now apply wf_hval.
    + simpl. unfold t_shape in Hs. now rewrite Hs.
Qed.

Lemma t_sigmoid_wp (w : world A) (h : handle) s f :
  holds w h s f ->
  wp (t_sigmoid h) w (fun h' w' =>
    ext w w' /\ rng w' = rng w /\ holds w' h' s (fun idx => sigmoid (f idx))).
Proof. apply read_map_wp. Qed.

Lemma t_div_scalar_wp (w : world A) (h : handle) s f (c : nat) :
  holds w h s f ->
  wp (t_div_scalar h c) w (fun h' w' =>
    ext w w' /\ rng w' = rng w
    /\ holds w' h' s (fun idx => s_div (f idx) (s_of_nat c))).
Proof. apply (read_map_wp (fun x => s_div x (s_of_nat c))). Qed.

Lemma t_softmax_wp (w : world A) (h : handle) s f d n :
  holds w h s f ->
  norm_dim (length s) d = Some n ->
  wp (t_softmax h d) w (fun h' w' =>
    ext w w' /\ rng w' = rng w
    /\ holds w' h' s (fun idx =>
         s_div (s_exp (f idx))
               (ssum (map (fun k => s_exp (f (upd n k idx))) (seq 0 (nth n s 0)))))).
Proof.
  intros Hh Hd. pose proof Hh as [[_ Hwf] [Hs _]].
  unfold t_softmax. rewrite Hs, Hd.
  apply wp_bind. eexists. eexists. split; [reflexivity|].
  apply alloc_holds.
  - apply wf_tabulate.
  - exact Hs.
  - intros idx Hi. unfold softmax_val, geta at 1.
    rewrite shape_hval, Hs, get_tabulate by exact Hi.
    rewrite (geta_hval _ Hh Hi). f_equal. f_equal.
    apply map_ext_in. intros k Hk. apply in_seq in Hk.
    rewrite (geta_hval _ Hh); [reflexivity|]. apply inb_upd; [exact Hi|lia].
Qed.

Lemma t_binop_wp (op : A -> A -> A) (w : world A) (h1 h2 : handle) s1 f1 s2 f2 s :
  holds w h1 s1 f1 -> holds w h2 s2 f2 ->
  bshape s1 s2 = Some s ->
  wp (t_binop op h1 h2) w (fun h' w' =>
    ext w w' /\ rng w' = rng w
    /\ holds w' h' s (fun idx => op (f1 (bidx s1 idx)) (f2 (bidx s2 idx)))).
Proof.
  intros H1 H2 Hb. pose proof H1 as [_ [Hs1 _]]. pose proof H2 as [_ [Hs2 _]].
  unfold t_binop.
  apply wp_bind. eexists. eexists. split; [reflexivity|].
  apply wp_bind. eexists. eexists. split; [reflexivity|].
  unfold binop_val. rewrite !shape_hval, Hs1, Hs2, Hb. simpl.
  apply alloc_holds.
  - apply wf_tabulate.
  - reflexivity.
  - intros idx Hi. unfold geta at 1. rewrite get_tabulate by exact Hi.
    destruct (bshape_inb _ _ idx Hb Hi) as [I1 I2].
    now rewrite (geta_hval _ H1 I1), (geta_hval _ H2 I2).
Qed.

(** What the allocating operations return is contiguous. *)
Lemma returns_alloc (v : tensor A) : wf v -> returns contiguous (alloc v).
Proof. intros Hwf w. unfold contiguous. simpl. now rewrite Hwf. Qed.

Lemma returns_alloc_opt (e : exn) (v : option (tensor A)) :
  (forall t, v = Some t -> wf t) -> returns contiguous (alloc_opt e v).
Proof.
  intros H. destruct v as [t|]; [apply returns_alloc; now apply H|apply returns_raise].
Qed.

Lemma mapM_read (w : world A) (hs : list handle) :
  mapM read hs w = (Ok (map (hval w) hs), w).
Proof.
  induction hs as [|h hs IH]; simpl; [reflexivity|].
  unfold bind at 1. simpl. unfold bind at 1. now rewrite IH.
Qed.

End OpFacts.

(** ** Concatenation and convolution *)

Lemma cat_compatible_facts (dim : nat) (s s0 : list nat) :
  upd dim 0 s = upd dim 0 s0 ->
  length s = length s0 /\ forall k, k <> dim -> nth k s 0 = nth k s0 0.
Proof.
  intros H. split.
  - apply (f_equal (@length nat)) in H. now rewrite !upd_length in H.
  - intros k Hk. apply (f_equal (fun l => nth k l 0)) in H.
    now rewrite !nth_upd_other in H by exact Hk.
Qed.

Section CatFacts.
Context {A : Type} {SA : Scalar A}.

Lemma cat_get_fun (dim : nat) (s0 : list nat) (vs : list (tensor A))
      (parts : list (list nat * (list nat -> A))) :
  Forall2 (fun v p => shape v = fst p
                      /\ forall idx, inb (fst p) idx -> geta v idx = snd p idx) vs parts ->
  Forall (fun p => upd dim 0 (fst p) = upd dim 0 s0) parts ->
  dim < length s0 ->
  forall idx, inb (upd dim (cat_size dim parts) s0) idx ->
    cat_get dim vs idx = cat_fun dim parts idx.
Proof.
  intros HF. induction HF as [|v [s f] vs parts [Hs Hg] HF IH]; intros Hc Hd idx Hi.
  - reflexivity.
  - simpl in Hs, Hg. inversion Hc as [|? ? Hc1 Hc2]; subst. simpl in Hc1.
    pose proof Hc1 as Hcf. apply cat_compatible_facts in Hcf. destruct Hcf as [Hl Hk].
    simpl. apply inb_iff_nth in Hi. rewrite upd_length in Hi. destruct Hi as [Hli Hi].
    assert (Hdim : nth dim idx 0 < nth dim (shape v) 0 + cat_size dim parts).
    { specialize (Hi dim Hd). rewrite nth_upd_same in Hi by exact Hd.
      unfold cat_size in *. simpl in Hi. exact Hi. }
    destruct (Nat.ltb_spec (nth dim idx 0) (nth dim (shape v) 0)) as [Hlt|Hge].
    + apply Hg. apply inb_iff_nth. split; [congruence|].
      intros k Hk'. destruct (Nat.eq_dec k dim) as [->|Hne]; [exact Hlt|].
      rewrite Hk by exact Hne. specialize (Hi k). rewrite nth_upd_other in Hi by exact Hne.
      apply Hi. lia.
    + apply IH; [exact Hc2|exact Hd|].
      apply inb_iff_nth. rewrite !upd_length. split; [exact Hli|].
      intros k Hk'. rewrite !nth_upd, ?upd_length.
      destruct (Nat.eqb_spec k dim) as [->|Hne]; simpl.
      * destruct (Nat.ltb_spec dim (length idx)); [|lia].
        destruct (Nat.ltb_spec dim (length s0)); [|lia]. lia.
      * specialize (Hi k Hk'). now rewrite nth_upd_other in Hi by exact Hne.
Qed.

Lemma t_cat_wp (w : world A) (h0 : handle) (hs : list handle) s0 f0
      (parts : list (list nat * (list nat -> A))) d dim :
  Forall2 (fun h p => holds w h (fst p) (snd p)) (h0 :: hs) ((s0, f0) :: parts) ->
  norm_dim (length s0) d = Some dim ->
  Forall (fun p => upd dim 0 (fst p) = upd dim 0 s0) ((s0, f0) :: parts) ->
  wp (t_cat (h0 :: hs) d) w (fun h' w' =>
    ext w w' /\ rng w' = rng w
    /\ holds w' h' (upd dim (cat_size dim ((s0, f0) :: parts)) s0)
             (cat_fun dim ((s0, f0) :: parts))).
Proof.
  intros HF Hd Hc.
  assert (H0 : holds w h0 s0 f0) by (inversion HF; assumption).
  pose proof H0 as [_ [Hs0 _]].
  pose proof (norm_dim_lt _ _ Hd) as Hlt.
  unfold t_cat. rewrite Hs0, Hd.
  apply wp_bind. eexists. eexists. split; [apply mapM_read|].
  assert (HV : Forall2 (fun v p => shape v = fst p
              /\ forall idx, inb (fst p) idx -> geta v idx = snd p idx)
              (map (hval w) (h0 :: hs)) ((s0, f0) :: parts)).
  { clear -HF. induction HF as [|h [s f] hs' ps Hh HF IH]; simpl; constructor; auto.
    simpl in *. split; [apply Hh|]. intros idx Hi. now apply (geta_hval _ Hh). }
  assert (Hsz : list_sum (map (fun t : tensor A => nth dim (shape t) 0)
                              (map (hval w) (h0 :: hs)))
                = cat_size dim ((s0, f0) :: parts)).
  { clear -HV. unfold cat_size. induction HV as [|v p vs ps [Hs _] HV IH]; [reflexivity|].
    simpl. rewrite Hs. f_equal. exact IH. }
  assert (Hcomp : forallb (fun t : tensor A => cat_compatible dim s0 (shape t))
                          (map (hval w) (h0 :: hs)) = true).
  { clear -HV Hc. induction HV as [|v p vs ps [Hs _] HV IH]; [reflexivity|].
    inversion Hc; subst. simpl. rewrite IH by assumption. rewrite andb_true_r.
    unfold cat_compatible. rewrite Hs.
    destruct (list_eq_dec Nat.eq_dec (upd dim 0 (fst p)) (upd dim 0 s0)); congruence. }
  unfold cat_val. simpl map at 1. cbv iota. rewrite shape_hval, Hs0.
  replace (dim <? length s0) with true by (symmetry; now apply Nat.ltb_lt).
  cbn [andb]. simpl forallb. simpl forallb in Hcomp.
  rewrite Hcomp. simpl alloc_opt.
  apply alloc_holds.
  - apply wf_tabulate.
  - simpl shape. f_equal. exact Hsz.
  - intros idx Hi. pose proof Hi as Hi'. rewrite <- Hsz in Hi'.
    unfold geta at 1. rewrite get_tabulate by exact Hi'.
    change (cat_get dim (map (hval w) (h0 :: hs)) idx
            = cat_fun dim ((s0, f0) :: parts) idx).
    apply cat_get_fun with (s0 := s0); assumption.
Qed.

Lemma Conv2d_call_wp (w : world A) (self : Conv2d) (x : handle)
      co ci kh kw fw n hh ww fx :
  holds w (weight self) [co; ci; kh; kw] fw ->
  holds w x [n; ci; hh; ww] fx ->
  kh <= hh -> kw <= ww ->
  wp (Conv2d_call self x) w (fun h' w' =>
    ext w w' /\ rng w' = rng w
    /\ holds w' h' [n; co; hh - kh + 1; ww - kw + 1] (fun idx =>
         match idx with
         | [b; o; y; x] =>
             ssum (map (fun cij =>
                     match cij with
                     | [cc; i; j] => s_mul (fx [b; cc; y + i; x + j]) (fw [o; cc; i; j])
                     | _ => s_zero
                     end) (indices [ci; kh; kw]))
         | _ => s_zero
         end)).
Proof.
  intros Hw Hx Hkh Hkw.
  pose proof Hw as [_ [Hsw _]]. pose proof Hx as [_ [Hsx _]].
  unfold Conv2d_call.
  apply wp_bind. eexists. eexists. split; [reflexivity|].
  apply wp_bind. eexists. eexists. split; [reflexivity|].
  unfold conv2d_val. rewrite !shape_hval, Hsw, Hsx.
  rewrite Nat.eqb_refl.
  replace (kh <=? hh) with true by (symmetry; now apply Nat.leb_le).
  replace (kw <=? ww) with true by (symmetry; now apply Nat.leb_le).
  simpl alloc_opt.
  apply alloc_holds.
  - apply wf_tabulate.
  - reflexivity.
  - intros idx Hi. unfold geta at 1. rewrite get_tabulate by exact Hi.
    destruct idx as [|b [|o [|y [|x0 [|? ?]]]]]; simpl in Hi; try tauto.
    apply f_equal. apply map_ext_in. intros cij Hin.
    apply indices_inb in Hin.
    destruct cij as [|cc [|i [|j [|? ?]]]]; simpl in Hin; try tauto.
    rewrite (geta_hval _ Hx), (geta_hval _ Hw); [reflexivity| |]; simpl; repeat split; lia.
Qed.

Lemma returns_t_cat (hs : list handle) (d : Z) : returns contiguous (t_cat hs d).
Proof.
  unfold t_cat. destruct hs as [|h0 hs]; [apply returns_raise|].
  destruct (norm_dim _ d) as [n|]; [|apply returns_raise].
  apply returns_bind. intros vs. apply returns_alloc_opt.
  unfold cat_val. intros t. destruct vs as [|t0 ?]; [discriminate|].
  destruct (_ && _); [|discriminate]. intros [= <-]. apply wf_tabulate.
Qed.

Lemma returns_Conv2d_call (self : Conv2d) (x : handle) :
  returns contiguous (Conv2d_call self x).
Proof.
  unfold Conv2d_call. apply returns_bind. intros wt. apply returns_bind. intros v.
  apply returns_alloc_opt. unfold conv2d_val. intros t.
  destruct (shape wt) as [|? [|? [|? [|? [|? ?]]]]]; try discriminate.
  destruct (shape v) as [|? [|? [|? [|? [|? ?]]]]]; try discriminate.
  destruct (_ && _); [|discriminate]. intros [= <-]. apply wf_tabulate.
Qed.

End CatFacts.

(** ** In-place assignment, and the construction of [DFL] *)

Lemma nth_app_len {X} (l : list X) (x : X) (r : list X) (d : X) :
  nth (length l) (l ++ x :: r) d = x.
Proof. rewrite app_nth2 by lia. now rewrite Nat.sub_diag. Qed.

Lemma upd_app_len {X} (l : list X) (x v : X) (r : list X) :
  upd (length l) v (l ++ x :: r) = l ++ v :: r.
Proof. induction l as [|y l IH]; simpl; [reflexivity|]. now rewrite IH. Qed.

Lemma map_add_seq (k b N : nat) : map (fun o => k + o) (seq b N) = seq (k + b) N.
Proof.
  revert b. induction N as [|N IH]; intros b; simpl; [reflexivity|].
  f_equal. rewrite IH. f_equal. lia.
Qed.

Lemma offsets_indices (s : list nat) : map (offset s) (indices s) = seq 0 (numel s).
Proof.
  induction s as [|m s IH]; [reflexivity|].
  simpl indices. simpl numel.
  assert (H : forall n a,
             map (offset (m :: s)) (flat_map (fun i => map (cons i) (indices s)) (seq a n))
             = seq (a * numel s) (n * numel s)).
  { induction n as [|n IHn]; intros a; simpl flat_map; [reflexivity|].
    rewrite map_app, IHn, map_map. simpl offset.
    rewrite <- (map_map (offset s) (fun o => a * numel s + o)), IH, map_add_seq.
    simpl Nat.mul. rewrite seq_app. f_equal; f_equal; lia. }
  apply (H m 0).
Qed.

Lemma bzip_same (s : list nat) : bzip s s = Some s.
Proof.
  induction s as [|a s IH]; simpl; [reflexivity|].
  now rewrite Nat.eqb_refl, IH.
Qed.

Lemma bshape_same (s : list nat) : bshape s s = Some s.
Proof.
  unfold bshape, pad. rewrite Nat.max_id, Nat.sub_diag. simpl. apply bzip_same.
Qed.

Lemma bidx_same (s idx : list nat) : inb s idx -> bidx s idx = idx.
Proof.
  intros H. unfold bidx. rewrite (inb_length _ _ H), Nat.sub_diag. simpl.
  revert idx H. induction s as [|n s IH]; intros [|i idx] H; simpl in *; try tauto.
  destruct H as [Hi H]. rewrite (IH _ H).
  destruct (Nat.eqb_spec n 1); [f_equal; lia|reflexivity].
Qed.

Section DFLFacts.
Context {A : Type} {SA : Scalar A}.

Lemma write_all_seq (vs pre old : list A) :
  length old = length vs ->
  write_all (combine (seq (length pre) (length vs)) vs) (pre ++ old) = pre ++ vs.
Proof.
  revert pre old. induction vs as [|v vs IH]; intros pre [|o old] H; simpl in *; try lia.
  - reflexivity.
  - rewrite upd_app_len.
    replace (pre ++ v :: old) with ((pre ++ [v]) ++ old) by now rewrite <- app_assoc.
    replace (S (length pre)) with (length (pre ++ [v])) by (rewrite length_app; simpl; lia).
    rewrite IH by lia. now rewrite <- app_assoc.
Qed.

Lemma data_broadcast_same (v : tensor A) :
  wf v ->
  map (fun idx => geta v (bidx (shape v) idx)) (indices (shape v)) = data v.
Proof.
  intros Hwf.
  transitivity (map (fun o => nth o (data v) s_zero) (map (offset (shape v)) (indices (shape v)))).
  - rewrite map_map. apply map_ext_in. intros idx Hin.
    apply indices_inb in Hin. now rewrite bidx_same.
  - rewrite offsets_indices, <- Hwf. apply map_nth_seq.
Qed.

(** Assignment of a tensor to the whole of a contiguous tensor of the
    same shape. *)
Lemma setitem_all_run (w : world A) (dst src : handle) :
  t_shape dst <> [] ->
  t_shape src = t_shape dst ->
  wf (lay src) ->
  data (lay dst) = seq 0 (numel (t_shape dst)) ->
  length (buffer w (buf dst)) = numel (t_shape dst) ->
  setitem_all dst src w =
  (Ok tt, mkW (upd (buf dst) (data (hval w src)) (heap w)) (rng w) (fs w)).
Proof.
  intros Hne Hs Hwf Hd Hl. unfold setitem_all.
  destruct (t_shape dst) as [|n s] eqn:E; [congruence|]. rewrite <- E in *.
  rewrite shape_hval, Hs, bshape_same.
  destruct (list_eq_dec Nat.eq_dec (t_shape dst) (t_shape dst)); [|congruence].
  assert (Hv : map (fun idx => geta (hval w src) (bidx (t_shape dst) idx))
                   (indices (t_shape dst)) = data (hval w src)).
  { rewrite <- Hs. apply data_broadcast_same. now apply wf_hval. }
  rewrite Hv.
  f_equal. f_equal. f_equal.
  rewrite Hd.
  assert (Hlv : length (data (hval w src)) = numel (t_shape dst)).
  { simpl. rewrite length_map. rewrite Hwf. unfold t_shape in Hs. now rewrite Hs. }
  rewrite <- Hlv.
  assert (H0 : length (buffer w (buf dst)) = length (data (hval w src)))
    by (rewrite Hl; symmetry; exact Hlv).
  apply write_all_seq with (pre := []). exact H0.
Qed.


Lemma view_shape_nat (n : nat) (s' : list nat) :
  numel s' = n -> view_shape n (map Z.of_nat s') = Some s'.
Proof.
  intros H. unfold view_shape.
  assert (Hf : filter (fun z => negb (z =? -1)%Z) (map Z.of_nat s') = map Z.of_nat s').
  { clear. induction s' as [|a s IH]; simpl; [reflexivity|].
    destruct (Z.eqb_spec (Z.of_nat a) (-1)); [lia|]. simpl. now rewrite IH. }
  rewrite Hf.
  assert (He : existsb (fun z => (z <? 0)%Z) (map Z.of_nat s') = false).
  { clear. induction s' as [|a s IH]; simpl; [reflexivity|].
    destruct (Z.ltb_spec (Z.of_nat a) 0); [lia|]. exact IH. }
  rewrite He, Nat.sub_diag.
  assert (Hm : map Z.to_nat (map Z.of_nat s') = s').
  { clear. induction s' as [|a s IH]; simpl; [reflexivity|]. now rewrite Nat2Z.id, IH. }
  rewrite Hm, H, Nat.eqb_refl. reflexivity.
Qed.

(** A handle on a whole buffer, in order. *)
Lemma contiguous_holds (w : world A) (h : handle) s (l : list A) :
  buf h < length (heap w) ->
  lay h = mkT s (seq 0 (numel s)) ->
  buffer w (buf h) = l ->
  holds w h s (fun idx => nth (offset s idx) l s_zero).
Proof.
  intros Hb Hl Hbuf. split; [|split].
  - split; [exact Hb|]. rewrite Hl. unfold wf. simpl. now rewrite length_seq.
  - unfold t_shape. now rewrite Hl.
  - intros idx Hi. unfold hget, get. rewrite Hl, Hbuf. simpl.
    rewrite seq_nth by now apply offset_lt. reflexivity.
Qed.

Lemma DFL_init_wp (w : world A) (n : nat) :
  wp (DFL_init n) w (fun dfl w' =>
    ext w w' /\ c1 dfl = n
    /\ holds w' (weight (conv dfl)) [1; n; 1; 1] (fun idx => s_of_nat (nth 1 idx 0))).
Proof.
  unfold DFL_init, nn_Conv2d.
  assert (Hn : numel [1; n; 1; 1] = n) by (simpl; lia).
  set (ar := map s_of_nat (seq 0 n) : list A).
  set (init := map (rng w) (seq 0 (numel [1; n; 1; 1]))).
  set (rng1 := fun i => rng w (numel [1; n; 1; 1] + i)).
  set (w1 := mkW (heap w ++ [init]) rng1 (fs w)).
  set (w2 := mkW ((heap w ++ [init]) ++ [ar]) rng1 (fs w)).
  set (wt := mkH (length (heap w)) (mkT [1; n; 1; 1] (seq 0 n))).
  set (x := mkH (length (heap w ++ [init])) (mkT [n] (seq 0 n))).
  set (xv := mkH (length (heap w ++ [init])) (mkT [1; n; 1; 1] (seq 0 n))).
  assert (R1 : (init <- draw (numel [1; n; 1; 1]) ;;
                wt <- alloc (mkT [1; n; 1; 1] init) ;; ret (mkConv2d wt)) w
               = (Ok (mkConv2d wt), w1)).
  { unfold bind, draw, alloc, ret. cbn [heap rng fs data shape].
    fold init. fold rng1. unfold wt, w1.
    replace (length init) with n by (unfold init; now rewrite length_map, length_seq).
    reflexivity. }
  assert (R2 : torch_arange n w1 = (Ok x, w2)).
  { unfold torch_arange, alloc, x, w2, w1, ar. simpl. now rewrite length_map, length_seq. }
  assert (R3 : t_view x [1; Z.of_nat n; 1; 1]%Z w2 = (Ok xv, w2)).
  { unfold t_view. change [1; Z.of_nat n; 1; 1]%Z with (map Z.of_nat [1; n; 1; 1]).
    rewrite view_shape_nat by (simpl; lia). unfold x. cbn [lay data buf].
    rewrite contiguous_strided by (simpl; lia). reflexivity. }
  assert (Hb2 : buffer w2 (buf xv) = ar).
  { unfold buffer, w2, xv. simpl. apply nth_app_len. }
  assert (Hb1 : buffer w2 (buf wt) = init).
  { unfold buffer, w2, wt. simpl. rewrite <- app_assoc. apply nth_app_len. }
  assert (Hv : data (hval w2 xv) = ar).
  { unfold hval. rewrite Hb2. simpl.
    replace n with (length ar) at 1 by (unfold ar; now rewrite length_map, length_seq).
    apply map_nth_seq. }
  assert (R4 : setitem_all wt xv w2
               = (Ok tt, mkW (heap w ++ [ar; ar]) rng1 (fs w))).
  { rewrite setitem_all_run.
    - rewrite Hv. unfold w2, wt. simpl. rewrite <- app_assoc. simpl.
      now rewrite upd_app_len.
    - discriminate.
    - reflexivity.
    - unfold wf. simpl. rewrite length_seq. lia.
    - simpl. f_equal. lia.
    - rewrite Hb1. unfold init. now rewrite length_map, length_seq. }
  eexists. eexists. split.
  - unfold bind at 1. rewrite R1. unfold bind at 1. rewrite R2.
    unfold bind at 1. rewrite R3. unfold nn_Parameter. unfold bind at 1. unfold ret at 1.
    unfold bind. cbn [weight]. rewrite R4. reflexivity.
  - split; [|split; [reflexivity|]].
    + split; [now exists [ar; ar]|reflexivity].
    + simpl. apply holds_eq with (f := fun idx => nth (offset [1; n; 1; 1] idx) ar s_zero).
      * apply contiguous_holds.
        -- simpl. rewrite length_app. simpl. lia.
        -- cbn [conv weight lay]. unfold wt. now rewrite Hn.
        -- unfold buffer. simpl. apply nth_app_len.
      * intros idx Hi.
        destruct idx as [|i [|c [|y [|x0 [|? ?]]]]]; simpl in Hi; try tauto.
        assert (Ho : offset [1; n; 1; 1] [i; c; y; x0] = c) by (simpl; nia).
        cbv beta. rewrite Ho. unfold ar.
        rewrite nth_map_default with (dx := 0) by (rewrite length_seq; lia).
        now rewrite seq_nth by lia.
Qed.

End DFLFacts.

(** ** [DFL.forward] *)

Lemma combine_map_same {X Y Z0} (f1 : X -> Y) (f2 : X -> Z0) (l : list X) :
  combine (map f1 l) (map f2 l) = map (fun x => (f1 x, f2 x)) l.
Proof. induction l as [|x l IH]; simpl; [reflexivity|]. now rewrite IH. Qed.

Section ForwardFacts.
Context {A : Type} {SA : Scalar A}.

Lemma expected_bin_seq (g : nat -> A) (n : nat) :
  expected_bin (map g (seq 0 n)) =
  ssum (map (fun k =>
               s_mul (s_div (s_exp (g k)) (ssum (map (fun k' => s_exp (g k')) (seq 0 n))))
                     (s_of_nat k)) (seq 0 n)).
Proof.
  unfold expected_bin, dot, softmax_list.
  rewrite length_map, length_seq, !map_map, combine_map_same, map_map. reflexivity.
Qed.

Lemma DFL_forward_wp (w : world A) (self : DFL) (x : handle) b a f :
  c1 self = 16 ->
  holds w (weight (conv self)) [1; 16; 1; 1] (fun idx => s_of_nat (nth 1 idx 0)) ->
  holds w x [b; 64; a] f ->
  viewable x [b; 4; 16; a] ->
  0 < a ->
  wp (DFL_forward self x) w (fun y w' =>
    ext w w' /\ rng w' = rng w
    /\ holds w' y [b; 4; a] (fun idx =>
         match idx with
         | [i; s; j] => expected_bin (side_logits f i s j)
         | _ => s_zero
         end)).
Proof.
  intros Hc Hw Hx Hxv Ha. pose proof Hx as [_ [Hsx _]].
  unfold DFL_forward. rewrite Hsx, Hc.
  unfold unpack3. apply wp_bind, wp_ret.
  (* x.view(b, 4, 16, a) *)
  apply wp_bind.
  eapply wp_mono.
  { change [Z.of_nat b; 4; Z.of_nat 16; Z.of_nat a]%Z with (map Z.of_nat [b; 4; 16; a]).
    apply t_view_wp with (1 := Hx)
      (g := fun idx => match idx with [i; s; k; j] => f [i; 16 * s + k; j] | _ => s_zero end).
    - apply view_shape_nat. simpl. lia.
    - exact Hxv.
    - simpl. lia.
    - intros idx Hi. destruct idx as [|i [|s [|k [|j [|? ?]]]]]; simpl in Hi; try tauto.
      exists [i; 16 * s + k; j]. simpl. repeat split; try lia. }
  intros v w0 [-> [Hv _]]. cbv beta.
  (* .transpose(2, 1) *)
  apply wp_bind. eapply wp_mono.
  { apply t_transpose_wp with (1 := Hv) (n1 := 2) (n2 := 1); reflexivity. }
  intros t w0 [-> [_ Ht]]. cbv beta.
  change (swap 2 1 [b; 4; 16; a]) with [b; 16; 4; a] in Ht.
  (* .softmax(1) *)
  apply wp_bind. eapply wp_mono.
  { apply t_softmax_wp with (1 := Ht) (n := 1). reflexivity. }
  intros sm w1 [E1 [R1 Hsm]]. cbv beta. simpl nth in Hsm.
  (* self.conv(...) *)
  apply wp_bind. eapply wp_mono.
  { apply wp_returns; [|apply returns_Conv2d_call].
    apply Conv2d_call_wp with (2 := Hsm) (1 := holds_ext E1 Hw). all: lia. }
  intros o w2 [[E2 [R2 Ho]] Hoc]. cbv beta.
  replace (a - 1 + 1) with a in Ho by lia. change (4 - 1 + 1) with 4 in Ho.
  assert (Hov : viewable o [b; 4; a]).
  { unfold viewable. rewrite Hoc. apply contiguous_strided.
    destruct Ho as [_ [-> _]]. simpl. lia. }
  (* .view(b, 4, a) *)
  eapply wp_mono.
  { change [Z.of_nat b; 4; Z.of_nat a]%Z with (map Z.of_nat [b; 4; a]).
    apply t_view_wp with (1 := Ho)
      (g := fun idx => match idx with
                       | [i; s; j] => expected_bin (side_logits f i s j)
                       | _ => s_zero
                       end).
    - apply view_shape_nat. simpl. lia.
    - exact Hov.
    - simpl. lia.
    - intros idx Hi. destruct idx as [|i [|s [|j [|? ?]]]]; simpl in Hi; try tauto.
      exists [i; 0; s; j]. split; [simpl; lia|]. split; [simpl; lia|].
      unfold side_logits. rewrite expected_bin_seq.
      change (indices [16; 1; 1]) with (map (fun k => [k; 0; 0]) (seq 0 16)).
      rewrite map_map. cbv beta iota.
      apply f_equal. apply map_ext_in. intros k Hk.
      cbn [swap upd nth]. rewrite !Nat.add_0_r. reflexivity. }
  intros y w3 [-> [Hy _]]. cbv beta.
  split; [eapply ext_trans; eassumption|]. split; [congruence|]. exact Hy.
Qed.

End ForwardFacts.

(** ** [dist2bbox] *)

Lemma bshape_lead1 (b : nat) (s : list nat) : bshape (1 :: s) (b :: s) = Some (b :: s).
Proof.
  unfold bshape, pad. simpl length. rewrite Nat.max_id, Nat.sub_diag. cbn [repeat app bzip].
  rewrite bzip_same. destruct (Nat.eqb_spec 1 b) as [<-|]; reflexivity.
Qed.

Lemma bidx_lead1 (s idx : list nat) (i : nat) :
  inb s idx -> bidx (1 :: s) (i :: idx) = 0 :: idx.
Proof.
  intros H. unfold bidx. simpl length. rewrite (inb_length _ _ H), Nat.sub_diag. simpl.
  f_equal. pose proof (bidx_same _ _ H) as E. unfold bidx in E.
  now rewrite (inb_length _ _ H), Nat.sub_diag in E.
Qed.

Section BoxFacts.
Context {A : Type} {SA : Scalar A}.

Lemma holds_eq_shape (w : world A) (h : handle) s s' (f g : list nat -> A) :
  holds w h s f -> s = s' -> (forall idx, inb s' idx -> f idx = g idx) ->
  holds w h s' g.
Proof. intros H <-. now apply holds_eq. Qed.

Lemma dist2bbox_wp (w : world A) (d ap : handle) b a fd fa (xywh : bool) :
  holds w d [b; 4; a] fd ->
  holds w ap [1; 2; a] fa ->
  wp (dist2bbox d ap xywh 1) w (fun y w' =>
    ext w w' /\ rng w' = rng w
    /\ holds w' y [b; 4; a] (fun idx =>
         match idx with
         | [i; k; j] =>
             box_coord xywh (fa [0; 0; j]) (fa [0; 1; j])
                       (fd [i; 0; j]) (fd [i; 1; j]) (fd [i; 2; j]) (fd [i; 3; j]) k
         | _ => s_zero
         end)).
Proof.
  intros Hd Hap. unfold dist2bbox.
  (* lt, rb = torch.split(distance, 2, dim) *)
  apply wp_bind. eapply wp_mono.
  { apply t_split2_wp with (1 := Hd) (dim := 1); reflexivity. }
  intros parts w0 [-> [lt [rb [-> [_ [_ [Hlt Hrb]]]]]]]. cbv beta.
  change (upd 1 2 [b; 4; a]) with [b; 2; a] in Hlt, Hrb.
  unfold unpack2. apply wp_bind, wp_ret.
  (* x1y1 = anchor_points - lt *)
  apply wp_bind. eapply wp_mono.
  { apply t_binop_wp with (1 := Hap) (2 := Hlt). apply bshape_lead1. }
  intros x1y1 w1 [E1 [R1 H1]]. cbv beta.
  apply holds_eq with
    (g := fun idx => match idx with
                     | [i; k; j] => s_sub (fa [0; k; j]) (fd [i; k; j])
                     | _ => s_zero
                     end) in H1.
  2:{ intros idx Hi. destruct idx as [|i [|k [|j [|? ?]]]]; simpl in Hi; try tauto.
      rewrite bidx_lead1, bidx_same by (simpl; tauto). reflexivity. }
  (* x2y2 = anchor_points + rb *)
  apply wp_bind. eapply wp_mono.
  { apply t_binop_wp with (1 := holds_ext E1 Hap) (2 := holds_ext E1 Hrb).
    apply bshape_lead1. }
  intros x2y2 w2 [E2 [R2 H2]]. cbv beta.
  apply holds_eq with
    (g := fun idx => match idx with
                     | [i; k; j] => s_add (fa [0; k; j]) (fd [i; 2 + k; j])
                     | _ => s_zero
                     end) in H2.
  2:{ intros idx Hi. destruct idx as [|i [|k [|j [|? ?]]]]; simpl in Hi; try tauto.
      rewrite bidx_lead1, bidx_same by (simpl; tauto). reflexivity. }
  pose proof (holds_ext E2 H1) as H1'.
  destruct xywh.
  - (* c_xy = (x1y1 + x2y2) / 2 *)
    apply wp_bind. eapply wp_mono.
    { apply t_binop_wp with (1 := H1') (2 := H2). apply bshape_same. }
    intros sm w3 [E3 [R3 H3]]. cbv beta.
    apply wp_bind. eapply wp_mono.
    { apply t_div_scalar_wp with (1 := H3). }
    intros cxy w4 [E4 [R4 H4]]. cbv beta.
    (* wh = x2y2 - x1y1 *)
    pose proof (ext_trans E3 E4) as E34.
    apply wp_bind. eapply wp_mono.
    { apply t_binop_wp with (1 := holds_ext E34 H2) (2 := holds_ext E34 H1').
      apply bshape_same. }
    intros wh w5 [E5 [R5 H5]]. cbv beta.
    eapply wp_mono.
    { match type of H5 with
      | holds _ _ _ ?f => apply t_cat_wp with (dim := 1) (parts := [([b; 2; a], f)])
      end.
      - constructor; [exact (holds_ext E5 H4)|]. constructor; [exact H5|constructor].
      - reflexivity.
      - repeat constructor. }
    intros y w6 [E6 [R6 H6]]. cbv beta.
    split; [eauto using ext_trans|]. split; [congruence|].
    apply holds_eq_shape with (1 := H6); [reflexivity|].
    intros idx Hi. destruct idx as [|i [|k [|j [|? ?]]]]; simpl in Hi; try tauto.
    destruct Hi as [Hi [Hk [Hj _]]].
    destruct k as [|[|[|[|k]]]]; try lia;
      cbn [cat_fun nth fst snd Nat.ltb Nat.leb Nat.sub upd box_coord];
      rewrite !bidx_same by (simpl; lia); reflexivity.
  - eapply wp_mono.
    { match type of H2 with
      | holds _ _ _ ?f => apply t_cat_wp with (dim := 1) (parts := [([b; 2; a], f)])
      end.
      - constructor; [exact H1'|]. constructor; [exact H2|constructor].
      - reflexivity.
      - repeat constructor. }
    intros y w6 [E6 [R6 H6]]. cbv beta.
    split; [eauto using ext_trans|]. split; [congruence|].
    apply holds_eq_shape with (1 := H6); [reflexivity|].
    intros idx Hi. destruct idx as [|i [|k [|j [|? ?]]]]; simpl in Hi; try tauto.
    destruct Hi as [Hi [Hk [Hj _]]].
    destruct k as [|[|[|[|k]]]]; try lia; reflexivity.
Qed.

End BoxFacts.

(** ** [post_process] *)

Lemma view_shape_infer (n b : nat) :
  0 < b -> n mod (b * 144) = 0 ->
  view_shape n [Z.of_nat b; 144; -1]%Z = Some [b; 144; n / (b * 144)].
Proof.
  intros Hb Hm. unfold view_shape. cbn [filter].
  destruct (Z.eqb_spec (Z.of_nat b) (-1)) as [E|_]; [lia|].
  cbn [negb Z.eqb Pos.eqb filter existsb Z.ltb Z.compare orb].
  destruct (Z.ltb_spec (Z.of_nat b) 0) as [E|_]; [lia|].
  cbn [map length Nat.sub orb].
  change (Z.to_nat 144) with 144. rewrite Nat2Z.id.
  cbn [numel fold_right]. rewrite Nat.mul_1_r.
  destruct (Nat.eqb_spec (b * 144) 0) as [E|_]; [lia|].
  rewrite Hm. cbn [Nat.eqb]. 
  destruct (Z.eqb_spec (Z.of_nat b) (-1)) as [E|_]; [lia|]. reflexivity.
Qed.

Lemma numel_view_infer (n b : nat) :
  n mod (b * 144) = 0 -> numel [b; 144; n / (b * 144)] = n.
Proof.
  intros Hm. cbn [numel fold_right]. rewrite Nat.mul_1_r, Nat.mul_assoc.
  symmetry. apply Nat.Div0.div_exact. exact Hm.
Qed.

(** The distribution channels of a concatenation can be regrouped by
    side. *)
Lemma box_viewable (b n : nat) (c box : handle) :
  t_shape c = [b; 144; n] ->
  contiguous c ->
  lay box = narrow 1 0 64 (lay c) ->
  viewable box [b; 4; 16; n].
Proof.
  intros Hs Hc Hl. unfold viewable. rewrite Hl. unfold narrow.
  unfold t_shape in Hs. rewrite Hs. change (upd 1 64 [b; 144; n]) with [b; 64; n].
  apply is_strided_intro with (B := 0) (st := [144 * n; 16 * n; n; 1]); [reflexivity|].
  intros idx Hi. destruct idx as [|i [|s [|k [|j [|? ?]]]]]; simpl in Hi; try tauto.
  assert (Hi' : inb [b; 64; n] [i; 16 * s + k; j]) by (simpl; lia).
  replace (offset [b; 4; 16; n] [i; s; k; j]) with (offset [b; 64; n] [i; 16 * s + k; j])
    by (simpl; lia).
  cbn [data tabulate].
  rewrite nth_map_default with (dx := [])
    by (rewrite length_indices; now apply offset_lt).
  rewrite nth_indices by exact Hi'.
  unfold get. rewrite Hs. unfold contiguous, t_shape in Hc. rewrite Hc, Hs.
  cbn [upd nth Nat.add].
  assert (Hi'' : inb [b; 144; n] [i; 16 * s + k; j]) by (simpl; lia).
  rewrite seq_nth by (now apply offset_lt). simpl. lia.
Qed.

Section PostProcessFacts.
Context {A : Type} {SA : Scalar A}.

(** The comprehension [[xi.view(x[0].shape[0], 144, -1) for xi in x]]. *)
Lemma views_wp (w : world A) (x : list handle) (x0 : handle) (b : nat) (l : list handle) :
  nth_error x 0 = Some x0 ->
  nth_error (t_shape x0) 0 = Some b ->
  0 < b ->
  Forall (valid w) l ->
  Forall (fun xi => numel (t_shape xi) mod (b * 144) = 0) l ->
  Forall (fun xi => viewable xi [b; 144; slots_of b xi]) l ->
  wp (mapM (fun xi =>
              x0 <- list_item x 0 ;;
              b <- list_item (t_shape x0) 0 ;;
              t_view xi [Z.of_nat b; 144; -1]%Z) l) w
     (fun vs w' =>
        w' = w /\ Forall2 (fun v p => holds w v (fst p) (snd p)) vs (raw_parts w b l)).
Proof.
  intros Hx0 Hb0 Hb Hv Hd Hw. induction l as [|xi l IH]; simpl.
  - apply wp_ret. split; [reflexivity|constructor].
  - inversion Hv as [|? ? Hv1 Hv2]; subst. inversion Hd as [|? ? Hd1 Hd2]; subst.
    inversion Hw as [|? ? Hw1 Hw2]; subst.
    apply wp_bind. unfold list_item at 1. rewrite Hx0. apply wp_bind, wp_ret.
    unfold list_item at 1. rewrite Hb0. apply wp_bind, wp_ret.
    eapply wp_mono.
    { apply t_view_flat with (1 := Hv1).
      - apply view_shape_infer; assumption.
      - exact Hw1.
      - apply numel_view_infer; assumption. }
    intros v w0 [-> [_ Hh]]. cbv beta.
    apply wp_bind. eapply wp_mono; [apply IH; assumption|].
    intros vs w0 [-> HF]. cbv beta. apply wp_ret.
    split; [reflexivity|]. constructor; [exact Hh|exact HF].
Qed.

Lemma raw_parts_ext (w w' : world A) (b : nat) (l : list handle) :
  ext w w' -> Forall (valid w) l -> raw_parts w' b l = raw_parts w b l.
Proof.
  intros He Hv. unfold raw_parts. apply map_ext_in. intros xi Hin.
  rewrite Forall_forall in Hv. now rewrite (hval_ext He (Hv _ Hin)).
Qed.

Lemma raw_parts_compatible (w : world A) (b : nat) (l : list handle) (n0 : nat) :
  Forall (fun p => upd 2 0 (fst p) = upd 2 0 [b; 144; n0]) (raw_parts w b l).
Proof.
  unfold raw_parts. apply Forall_forall. intros p Hin.
  apply in_map_iff in Hin. destruct Hin as [xi [<- _]]. reflexivity.
Qed.

Lemma cat_size_raw_parts (w : world A) (b : nat) (l : list handle) :
  cat_size 2 (raw_parts w b l) = slots b l.
Proof.
  unfold cat_size, raw_parts, slots. rewrite map_map. reflexivity.
Qed.


Lemma np_load_wp (w : world A) (path : string) (t : tensor A) :
  fs w path = Some t -> wp (np_load path) w (fun v w' => v = t /\ w' = w).
Proof.
  intros H. exists t, w. split; [|auto]. unfold np_load. now rewrite H.
Qed.

Lemma bshape_strides (b a : nat) : bshape [b; 4; a] [1; a] = Some [b; 4; a].
Proof.
  unfold bshape, pad. cbn [length Nat.max Nat.sub repeat app bzip].
  rewrite Nat.eqb_refl. cbn [Nat.eqb option_map].
  destruct (Nat.eqb_spec b 1) as [->|]; reflexivity.
Qed.

Lemma bidx_strides (a i k j : nat) : j < a -> bidx [1; a] [i; k; j] = [0; j].
Proof.
  intros Hj. unfold bidx. cbn [length Nat.sub skipn bidx_aligned Nat.eqb].
  destruct (Nat.eqb_spec a 1); [f_equal; f_equal; lia|reflexivity].
Qed.

(** [post_process] up to the call of [dist2bbox]: the module, the two
    tables, the views and their concatenation, the split and the decoded
    distances.  [phi] is any property of the outcome of the whole run. *)
Lemma post_process_prefix (w : world A) (x : list handle) (x0 : handle) (b na : nat)
      (an st : tensor A) (phi : result (handle * list handle) -> world A -> Prop) :
  nth_error x 0 = Some x0 ->
  nth_error (t_shape x0) 0 = Some b ->
  0 < b ->
  Forall (valid w) x ->
  Forall (fun xi => numel (t_shape xi) mod (b * 144) = 0) x ->
  Forall (fun xi => viewable xi [b; 144; slots_of b xi]) x ->
  0 < slots b x ->
  fs w "./anchors.npy" = Some an -> wf an -> shape an = [2; na] ->
  fs w "./strides.npy" = Some st -> wf st ->
  (forall w5 d au strides cls,
     ext w w5 ->
     holds w5 d [b; 4; slots b x] (fun idx =>
       match idx with
       | [i; s; j] => expected_bin (side_logits (raw_pred w b x) i s j)
       | _ => s_zero
       end) ->
     holds w5 au [1; 2; na] (fun idx => geta an (tl idx)) ->
     holds w5 strides (shape st) (geta st) ->
     holds w5 cls [b; 80; slots b x]
           (fun idx => raw_pred w b x (upd 1 (16 * 4 + nth 1 idx 0) idx)) ->
     outcome (db <- dist2bbox d au true 1 ;;
              dbox <- t_mul db strides ;;
              sg <- t_sigmoid cls ;;
              y <- t_cat [dbox; sg] 1 ;;
              ret (y, x)) w5 phi) ->
  outcome (post_process x) w phi.
Proof.
  intros Hx0 Hb0 Hb Hv Hd Hvw HA Han Hanwf Hans Hst Hstwf K.
  set (n := slots b x) in *.
  unfold post_process.
  (* dfl = DFL(16) *)
  apply outcome_bind. eapply wp_mono; [apply DFL_init_wp|].
  intros dfl w1 [E1 [Hc Hw]]. cbv beta.
  (* anchors, strides *)
  apply outcome_bind. eapply wp_mono.
  { apply np_load_wp. destruct E1 as [_ F]. rewrite F. exact Han. }
  intros ? ? [-> ->]. cbv beta.
  apply outcome_bind. eapply wp_mono.
  { unfold torch_tensor. apply alloc_holds with (g := geta an); [exact Hanwf|exact Hans|reflexivity]. }
  intros anchors w2 [E2 [_ Ha]]. cbv beta.
  pose proof (ext_trans E1 E2) as E02.
  apply outcome_bind. eapply wp_mono.
  { apply np_load_wp. destruct E02 as [_ F]. rewrite F. exact Hst. }
  intros ? ? [-> ->]. cbv beta.
  apply outcome_bind. eapply wp_mono.
  { unfold torch_tensor. apply alloc_holds with (g := geta st); [exact Hstwf|reflexivity|reflexivity]. }
  intros strides w3 [E3 [_ Hs]]. cbv beta.
  pose proof (ext_trans E02 E3) as E03.
  (* the views of the raw tensors, and their concatenation *)
  assert (Hv3 : Forall (valid w3) x).
  { rewrite Forall_forall in *. intros xi Hin. apply (valid_ext E03). now apply Hv. }
  apply outcome_bind. eapply wp_mono; [apply (views_wp x Hx0 Hb0 Hb Hv3 Hd Hvw)|].
  intros xs ? [-> HF]. cbv beta.
  rewrite (raw_parts_ext b E03 Hv) in HF.
  destruct x as [|x0' xr]; [discriminate|]. injection Hx0 as ->.
  pose proof (raw_parts_compatible w b (x0 :: xr) (slots_of b x0)) as Hcomp.
  pose proof (cat_size_raw_parts w b (x0 :: xr)) as Hsize. fold n in Hsize.
  unfold raw_pred.
  set (parts := raw_parts w b (x0 :: xr)) in *.
  assert (Hparts : parts = ([b; 144; slots_of b x0],
                            flat_fun [b; 144; slots_of b x0] (hval w x0))
                           :: raw_parts w b xr) by reflexivity.
  rewrite Hparts in HF, Hcomp.
  inversion HF as [|v0 ? vs ? Hh0 HFr]; subst xs.
  apply outcome_bind. eapply wp_mono.
  { apply wp_returns; [|apply returns_t_cat].
    apply t_cat_wp with (dim := 2); [exact HF|reflexivity|exact Hcomp]. }
  intros c w4 [[E4 [_ Hcat]] Hcc]. cbv beta.
  rewrite <- Hparts in Hcat. rewrite Hsize in Hcat.
  change (upd 2 n [b; 144; slots_of b x0]) with [b; 144; n] in Hcat.
  (* box, cls = ... .split((64, 80), 1) *)
  apply outcome_bind. eapply wp_mono.
  { apply t_split_sizes2_wp with (1 := Hcat) (dim := 1); reflexivity. }
  intros ps ? [-> [box [cls [-> [Hlbox [_ [Hbox Hcls]]]]]]]. cbv beta.
  change (upd 1 (16 * 4) [b; 144; n]) with [b; 64; n] in Hbox.
  change (upd 1 80 [b; 144; n]) with [b; 80; n] in Hcls.
  unfold unpack2. apply outcome_bind, wp_ret.
  (* dfl(box) *)
  pose proof (ext_trans E2 (ext_trans E3 E4)) as E14.
  apply outcome_bind. eapply wp_mono.
  { apply DFL_forward_wp with (3 := Hbox) (1 := Hc) (2 := holds_ext E14 Hw).
    - apply box_viewable with (c := c); [apply Hcat|exact Hcc|exact Hlbox].
    - exact HA. }
  intros d w5 [E5 [_ Hdd]]. cbv beta.
  (* anchors.unsqueeze(0) *)
  pose proof (ext_trans E3 (ext_trans E4 E5)) as E25.
  apply outcome_bind. eapply wp_mono; [apply t_unsqueeze0_wp with (1 := holds_ext E25 Ha)|].
  intros au ? [-> [_ Hau]]. cbv beta.
  (* what remains: the boxes and the fusion *)
  apply K.
  - eapply ext_trans; [exact E03|]. eapply ext_trans; eassumption.
  - apply holds_eq with (1 := Hdd).
    intros idx Hi. destruct idx as [|i [|s [|j [|? ?]]]]; reflexivity.
  - exact Hau.
  - exact (holds_ext (ext_trans E4 E5) Hs).
  - exact (holds_ext E5 Hcls).
Qed.

Lemma post_process_wp (w : world A) (x : list handle) (x0 : handle) (b : nat)
      (an st : tensor A) :
  nth_error x 0 = Some x0 ->
  nth_error (t_shape x0) 0 = Some b ->
  0 < b ->
  Forall (valid w) x ->
  Forall (fun xi => numel (t_shape xi) mod (b * 144) = 0) x ->
  Forall (fun xi => viewable xi [b; 144; slots_of b xi]) x ->
  0 < slots b x ->
  fs w "./anchors.npy" = Some an -> wf an -> shape an = [2; slots b x] ->
  fs w "./strides.npy" = Some st -> wf st -> shape st = [1; slots b x] ->
  wp (post_process x) w (fun r w' =>
    ext w w' /\ snd r = x
    /\ holds w' (fst r) [b; 84; slots b x] (fused (raw_pred w b x) an st)).
Proof.
  intros Hx0 Hb0 Hb Hv Hd Hvw HA Han Hanwf Hans Hst Hstwf Hsts.
  apply wp_of_outcome.
  apply post_process_prefix with (x0 := x0) (b := b) (na := slots b x) (an := an) (st := st);
    try assumption.
  intros w5 d au strides cls E05 Hdd Hau Hs Hcls. rewrite Hsts in Hs.
  apply outcome_of_wp.
  set (n := slots b x) in *.
  (* dist2bbox(...) * strides *)
  apply wp_bind. eapply wp_mono; [apply dist2bbox_wp with (1 := Hdd) (2 := Hau)|].
  intros db w6 [E6 [_ Hdb]]. cbv beta.
  apply wp_bind. eapply wp_mono.
  { apply t_binop_wp with (1 := Hdb) (2 := holds_ext E6 Hs). apply bshape_strides. }
  intros dbox w7 [E7 [_ Hdbox]]. cbv beta.
  (* cls.sigmoid() *)
  pose proof (ext_trans E6 E7) as E57.
  apply wp_bind. eapply wp_mono; [apply t_sigmoid_wp with (1 := holds_ext E57 Hcls)|].
  intros sg w8 [E8 [_ Hsg]]. cbv beta.
  (* y = torch.cat((dbox, cls.sigmoid()), 1) *)
  apply wp_bind. eapply wp_mono.
  { match type of Hsg with
    | holds _ _ _ ?f => apply t_cat_wp with (dim := 1) (parts := [([b; 80; n], f)])
    end.
    - constructor; [exact (holds_ext E8 Hdbox)|]. constructor; [exact Hsg|constructor].
    - reflexivity.
    - repeat constructor. }
  intros yf w9 [E9 [_ Hy]]. cbv beta.
  apply wp_ret. cbn [fst snd].
  split; [|split; [reflexivity|]].
  { eapply ext_trans; [exact E05|]. eapply ext_trans; [exact E57|].
    eapply ext_trans; eassumption. }
  apply holds_eq_shape with (1 := Hy); [reflexivity|].
  intros idx Hi. destruct idx as [|i [|k [|j [|? ?]]]]; simpl in Hi; try tauto.
  destruct Hi as [Hi [Hk [Hj _]]].
  unfold fused.
  destruct (Nat.ltb_spec k 4) as [Hk4|Hk4].
  - cbn [cat_fun nth fst snd]. replace (k <? 4) with true by (symmetry; now apply Nat.ltb_lt).
    rewrite bidx_same by (simpl; lia). rewrite bidx_strides by exact Hj.
    unfold decoded_box. cbn [tl Nat.add]. reflexivity.
  - cbn [cat_fun nth fst snd upd].
    replace (k <? 4) with false by (symmetry; apply Nat.ltb_ge; lia).
    replace (k - 4 <? 80) with true by (symmetry; apply Nat.ltb_lt; lia).
    reflexivity.
Qed.
End PostProcessFacts.

(** ** Real arithmetic of the decoder *)

Section RealFacts.
Open Scope R_scope.

Lemma ssum_R_nil : ssum (@nil R) = 0.
Proof. reflexivity. Qed.

Lemma ssum_R_cons (x : R) (l : list R) : ssum (x :: l) = x + ssum l.
Proof. reflexivity. Qed.

Lemma ssum_exp_pos (l : list R) : l <> [] -> 0 < ssum (map exp l).
Proof.
  intros Hne. destruct l as [|x l]; [congruence|]. clear Hne.
  revert x. induction l as [|y l IH]; intros x.
  - simpl map. rewrite ssum_R_cons, ssum_R_nil. pose proof (exp_pos x). lra.
  - specialize (IH y). simpl map in *. rewrite ssum_R_cons. pose proof (exp_pos x). lra.
Qed.







Lemma ssum_exp_shift (c : R) (l : list R) :
  ssum (map exp (map (fun v => v + c) l)) = exp c * ssum (map exp l).
Proof.
  induction l as [|x l IH]; simpl map.
  - rewrite ssum_R_nil. lra.
  - rewrite !ssum_R_cons, IH, exp_plus. lra.
Qed.

Lemma softmax_list_shift (c : R) (l : list R) :
  softmax_list (map (fun v => v + c) l) = softmax_list l.
Proof.
  destruct l as [|x0 l0] eqn:E; [reflexivity|]. rewrite <- E.
  assert (Hne : l <> []) by (rewrite E; discriminate). clear E.
  unfold softmax_list. rewrite map_map. apply map_ext. intros x.
  change (exp (x + c) / ssum (map exp (map (fun v => v + c) l))
          = exp x / ssum (map exp l)).
  rewrite ssum_exp_shift, exp_plus.
  pose proof (ssum_exp_pos Hne). pose proof (exp_pos c). field. lra.
Qed.

(** Softmax shift-invariance of the expected bin index. *)
Lemma expected_bin_shift (c : R) (l : list R) :
  expected_bin (map (fun v => v + c) l) = expected_bin l.
Proof.
  unfold expected_bin. now rewrite softmax_list_shift, length_map.
Qed.

End RealFacts.

(** ** The distribution decoder *)

Section DecoderClaims.
Context {A : Type} {SA : Scalar A}.

Lemma holds_self (w : world A) (h : handle) :
  valid w h -> holds w h (t_shape h) (hget w h).
Proof. intros Hv. split; [exact Hv|]. split; reflexivity. Qed.

(** [DFL(16)] applied to a tensor of shape [b, 64, a]. *)
Lemma DFL_decode_wp (w : world A) (x : handle) (b a : nat) :
  valid w x -> t_shape x = [b; 64; a] -> viewable x [b; 4; 16; a] -> 0 < a ->
  wp (dfl <- DFL_init 16 ;; DFL_forward dfl x) w (fun y w' =>
    ext w w'
    /\ holds w' y [b; 4; a] (fun idx =>
         match idx with
         | [i; s; j] => expected_bin (side_logits (hget w x) i s j)
         | _ => s_zero
         end)).
Proof.
  intros Hv Hs Hvw Ha.
  apply wp_bind. eapply wp_mono; [apply DFL_init_wp|].
  intros dfl w1 [E1 [Hc Hw]]. cbv beta.
  pose proof (holds_self Hv) as Hx. rewrite Hs in Hx.
  eapply wp_mono; [apply DFL_forward_wp with (3 := holds_ext E1 Hx); eassumption|].
  intros y w2 [E2 [_ Hy]]. cbv beta. split; [eapply ext_trans; eassumption|exact Hy].
Qed.

End DecoderClaims.

(** C1, as stated, fails: [forward] unpacks the shape of its input into
    three names, so that a tensor of shape [1, 4, 16, 1] is rejected with
    a [ValueError]. *)
Lemma DFL_forward_rejects_rank4 :
  t_shape x_rank4 = [1; 4; 16; 1]
  /\ raises (dfl <- DFL_init 16 ;; DFL_forward dfl x_rank4) w_zeros
            (ValueError "wrong number of values to unpack").
Proof.
  split; [reflexivity|].
  apply raises_bind_r. eapply wp_mono; [apply DFL_init_wp|].
  intros dfl w1 _. exists w1. reflexivity.
Qed.

(** C1, amended: on an input of shape [b, 64, a], whose channel 16*s+k
    holds the logit of bin k of side s, and which the library accepts to
    view as [b, 4, 16, a] (a contiguous tensor is one), [DFL.forward]
    returns a tensor of shape [b, 4, a] whose entry for a side and an
    anchor is the dot product of the softmax of the 16 bin logits of that
    side with the bin indices 0..15. *)
Theorem DFL_forward_expected_bin (w : world R) (x : handle) (b a : nat) :
  valid w x -> t_shape x = [b; 64; a] -> viewable x [b; 4; 16; a] -> 0 < a ->
  wp (dfl <- DFL_init 16 ;; DFL_forward dfl x) w (fun y w' =>
    t_shape y = [b; 4; a]
    /\ forall i s j, i < b -> s < 4 -> j < a ->
         hget w' y [i; s; j]
         = dot (softmax_list (map (fun k => hget w x [i; 16 * s + k; j]) (seq 0 16)))
               (map INR (seq 0 16))).
Proof.
  intros Hv Hs Hvw Ha. eapply wp_mono; [apply DFL_decode_wp; eassumption|].
  intros y w' [_ [_ [Hsy Hy]]]. split; [exact Hsy|].
  intros i s j Hi Hss Hj. rewrite Hy by (simpl; lia). reflexivity.
Qed.

Lemma DFL_forward_expected_bin_witness :
  wp (dfl <- DFL_init 16 ;; DFL_forward dfl x_one_anchor) w_zeros (fun y w' =>
    t_shape y = [1; 4; 1]
    /\ forall i s j, i < 1 -> s < 4 -> j < 1 ->
         hget w' y [i; s; j]
         = dot (softmax_list (map (fun k => hget w_zeros x_one_anchor [i; 16 * s + k; j]) (seq 0 16)))
               (map INR (seq 0 16))).
Proof.
  apply (@DFL_forward_expected_bin w_zeros x_one_anchor 1 1).
  - split; [simpl; lia|reflexivity].
  - reflexivity.
  - reflexivity.
  - lia.
Defined.





(** ** The box assembler *)

(** C2: the corners are the anchor minus (left, top) and plus (right,
    bottom); the box is, in centre form, the mean and the difference of
    the corners and, in corner form, the corners; each coordinate is
    multiplied by the stride of the slot.  The box of a slot is a
    function of its anchor, distances and stride alone. *)
Theorem box_assembler (w : world R) (distance anchor_points strides : handle)
        (b a : nat) (xywh : bool) :
  valid w distance -> t_shape distance = [b; 4; a] ->
  valid w anchor_points -> t_shape anchor_points = [1; 2; a] ->
  valid w strides -> t_shape strides = [1; a] ->
  wp (db <- dist2bbox distance anchor_points xywh 1 ;; t_mul db strides) w (fun y w' =>
    t_shape y = [b; 4; a]
    /\ forall i k j, i < b -> k < 4 -> j < a ->
         let ax := hget w anchor_points [0; 0; j] in
         let ay := hget w anchor_points [0; 1; j] in
         let left := hget w distance [i; 0; j] in
         let top := hget w distance [i; 1; j] in
         let right := hget w distance [i; 2; j] in
         let bottom := hget w distance [i; 3; j] in
         let stride := hget w strides [0; j] in
         let x1 := (ax - left)%R in
         let y1 := (ay - top)%R in
         let x2 := (ax + right)%R in
         let y2 := (ay + bottom)%R in
         hget w' y [i; k; j]
         = ((if xywh
             then nth k [(x1 + x2) / 2; (y1 + y2) / 2; x2 - x1; y2 - y1] 0
             else nth k [x1; y1; x2; y2] 0)
            * stride)%R).
Proof.
  intros Hvd Hsd Hva Hsa Hvs Hss.
  pose proof (holds_self Hvd) as Hd. rewrite Hsd in Hd.
  pose proof (holds_self Hva) as Ha. rewrite Hsa in Ha.
  pose proof (holds_self Hvs) as Hs. rewrite Hss in Hs.
  apply wp_bind. eapply wp_mono; [apply dist2bbox_wp with (1 := Hd) (2 := Ha)|].
  intros db w1 [E1 [_ Hdb]]. cbv beta.
  eapply wp_mono.
  { apply t_binop_wp with (1 := Hdb) (2 := holds_ext E1 Hs). apply bshape_strides. }
  intros y w2 [E2 [_ [_ [Hsy Hy]]]]. split; [exact Hsy|].
  intros i k j Hi Hk Hj. cbv zeta. rewrite Hy by (simpl; lia).
  rewrite bidx_same by (simpl; lia). rewrite bidx_strides by exact Hj.
  destruct xywh; destruct k as [|[|[|[|k]]]]; try lia; reflexivity.
Qed.

(** The scenario of the specification: anchor (10, 10), distances 2,
    stride 32. *)
Lemma box_assembler_witness :
  wp (db <- dist2bbox (mkH 0 (mkT [1; 4; 1] [0; 1; 2; 3]))
                      (mkH 1 (mkT [1; 2; 1] [0; 1])) true 1 ;;
      t_mul db (mkH 2 (mkT [1; 1] [0]))) w_scenario (fun y w' =>
    t_shape y = [1; 4; 1]
    /\ forall i k j, i < 1 -> k < 4 -> j < 1 ->
         hget w' y [i; k; j] = nth k [320; 320; 128; 128]%R 0%R).
Proof.
  eapply wp_mono.
  - apply (@box_assembler w_scenario (mkH 0 (mkT [1; 4; 1] [0; 1; 2; 3]))
             (mkH 1 (mkT [1; 2; 1] [0; 1])) (mkH 2 (mkT [1; 1] [0])) 1 1 true);
      try reflexivity; split; simpl; try lia; reflexivity.
  - intros y w' [Hs Hy]. split; [exact Hs|].
    intros i k j Hi Hk Hj. rewrite (Hy i k j Hi Hk Hj).
    assert (i = 0) by lia. assert (j = 0) by lia. subst i j.
    destruct k as [|[|[|[|k]]]]; try lia; cbn; lra.
Defined.

(** ** Frame: the buffers that exist before a call *)

Create HintDb frames.

Section FrameFacts.
Context {A : Type} {SA : Scalar A}.

Lemma frames_ret {X} (x : X) : frames (A := A) (ret x).
Proof. intros w. apply ext_refl. Qed.

Lemma frames_raise {X} (e : exn) : frames (A := A) (X := X) (raise e).
Proof. intros w. apply ext_refl. Qed.

Lemma frames_bind {X Y} (m : T A X) (f : X -> T A Y) :
  frames m -> (forall x, frames (f x)) -> frames (bind m f).
Proof.
  intros Hm Hf w. unfold bind. specialize (Hm w).
  destruct (m w) as [[x|e] w1]; simpl in Hm.
  - eapply ext_trans; [exact Hm|]. apply Hf.
  - exact Hm.
Qed.

Lemma frames_alloc (v : tensor A) : frames (alloc v).
Proof. intros w. split; [now exists [data v]|reflexivity]. Qed.

Lemma frames_alloc_opt (e : exn) (v : option (tensor A)) : frames (alloc_opt e v).
Proof. destruct v; [apply frames_alloc|apply frames_raise]. Qed.

Lemma frames_read (h : handle) : frames (read (A := A) h).
Proof. intros w. apply ext_refl. Qed.

Lemma frames_draw (n : nat) : frames (draw (A := A) n).
Proof. intros w. split; [exists []; simpl; now rewrite app_nil_r|reflexivity]. Qed.

Lemma frames_np_load (path : string) : frames (np_load (A := A) path).
Proof. intros w. unfold np_load. destruct (fs w path); apply ext_refl. Qed.

Lemma frames_mapM {X Y} (f : X -> T A Y) (l : list X) :
  (forall x, frames (f x)) -> frames (mapM f l).
Proof.
  intros Hf. induction l as [|x l IH]; simpl; [apply frames_ret|].
  apply frames_bind; [apply Hf|]. intros y.
  apply frames_bind; [exact IH|]. intros ys. apply frames_ret.
Qed.

Lemma frames_list_item {X} (l : list X) (i : nat) : frames (A := A) (list_item l i).
Proof. unfold list_item. destruct (nth_error l i); [apply frames_ret|apply frames_raise]. Qed.

Lemma frames_unpack2 {X} (l : list X) : frames (A := A) (unpack2 l).
Proof.
  unfold unpack2. destruct l as [|a [|b [|c l]]];
    first [apply frames_ret|apply frames_raise].
Qed.

Lemma frames_unpack3 {X} (l : list X) : frames (A := A) (unpack3 l).
Proof.
  unfold unpack3. destruct l as [|a [|b [|c [|d l]]]];
    first [apply frames_ret|apply frames_raise].
Qed.

Lemma frames_t_view (h : handle) (spec : list Z) : frames (A := A) (t_view h spec).
Proof.
  unfold t_view. destruct (view_shape _ _); [|apply frames_raise].
  destruct (is_strided _ _); [apply frames_ret|apply frames_raise].
Qed.

Lemma frames_t_transpose (h : handle) (d1 d2 : Z) : frames (A := A) (t_transpose h d1 d2).
Proof.
  unfold t_transpose. destruct (norm_dim _ d1); [destruct (norm_dim _ d2)|];
    first [apply frames_ret|apply frames_raise].
Qed.

Lemma frames_t_unsqueeze (h : handle) (d : Z) : frames (A := A) (t_unsqueeze h d).
Proof. unfold t_unsqueeze. destruct (norm_dim _ d); [apply frames_ret|apply frames_raise]. Qed.

Lemma frames_t_split_sizes (h : handle) (sizes : list nat) (d : Z) :
  frames (A := A) (t_split_sizes h sizes d).
Proof.
  unfold t_split_sizes. destruct (norm_dim _ d); [|apply frames_raise].
  destruct (_ =? _); [apply frames_ret|apply frames_raise].
Qed.

Lemma frames_t_split (h : handle) (size : nat) (d : Z) : frames (A := A) (t_split h size d).
Proof.
  unfold t_split. destruct (norm_dim _ d); [|apply frames_raise].
  destruct (chunk_sizes _ _); [apply frames_ret|apply frames_raise].
Qed.

Lemma frames_t_softmax (h : handle) (d : Z) : frames (t_softmax h d).
Proof.
  unfold t_softmax. destruct (norm_dim _ d); [|apply frames_raise].
  apply frames_bind; [apply frames_read|]. intros v. apply frames_alloc.
Qed.

Lemma frames_t_sigmoid (h : handle) : frames (t_sigmoid h).
Proof.
  unfold t_sigmoid. apply frames_bind; [apply frames_read|]. intros v. apply frames_alloc.
Qed.

Lemma frames_t_binop (op : A -> A -> A) (h1 h2 : handle) : frames (t_binop op h1 h2).
Proof.
  unfold t_binop. apply frames_bind; [apply frames_read|]. intros v1.
  apply frames_bind; [apply frames_read|]. intros v2. apply frames_alloc_opt.
Qed.

Lemma frames_t_div_scalar (h : handle) (c : nat) : frames (t_div_scalar h c).
Proof.
  unfold t_div_scalar. apply frames_bind; [apply frames_read|]. intros v. apply frames_alloc.
Qed.

Lemma frames_t_cat (hs : list handle) (d : Z) : frames (t_cat hs d).
Proof.
  unfold t_cat. destruct hs as [|h0 hs]; [apply frames_raise|].
  destruct (norm_dim _ d); [|apply frames_raise].
  apply frames_bind; [apply frames_mapM; apply frames_read|]. intros vs.
  apply frames_alloc_opt.
Qed.

Lemma frames_Conv2d_call (self : Conv2d) (x : handle) : frames (Conv2d_call self x).
Proof.
  unfold Conv2d_call. apply frames_bind; [apply frames_read|]. intros wt.
  apply frames_bind; [apply frames_read|]. intros v. apply frames_alloc_opt.
Qed.

(** The assignment in [DFL.__init__] writes to the weight the module has
    just allocated. *)
Lemma frames_DFL_init (n : nat) : frames (DFL_init n).
Proof.
  intros w. destruct (DFL_init_wp w n) as [dfl [w' [E [He _]]]]. now rewrite E.
Qed.

End FrameFacts.

#[export] Hint Resolve frames_ret frames_raise frames_alloc frames_alloc_opt frames_read
  frames_draw frames_np_load frames_list_item frames_unpack2 frames_unpack3
  frames_t_view frames_t_transpose frames_t_unsqueeze frames_t_split_sizes
  frames_t_split frames_t_softmax frames_t_sigmoid frames_t_binop frames_t_div_scalar
  frames_t_cat frames_Conv2d_call frames_DFL_init : frames.

Ltac frames_step :=
  first [ solve [auto with frames]
        | apply frames_mapM; intros
        | match goal with
          | |- frames (match ?p with (_, _) => _ end) => destruct p
          | |- frames (if ?c then _ else _) => destruct c
          end
        | apply frames_bind; [|intros] ].

Section FrameNotebook.
Context {A : Type} {SA : Scalar A}.

Lemma frames_DFL_forward (self : DFL) (x : handle) : frames (DFL_forward self x).
Proof. unfold DFL_forward. repeat frames_step. Qed.

Lemma frames_dist2bbox (d ap : handle) (xywh : bool) (dim : Z) :
  frames (dist2bbox d ap xywh dim).
Proof. unfold dist2bbox, t_add, t_sub. repeat frames_step. Qed.

Lemma frames_post_process (x : list handle) : frames (post_process x).
Proof.
  unfold post_process, torch_tensor, t_mul.
  repeat first [ apply frames_DFL_forward | apply frames_dist2bbox | frames_step ].
Qed.

Lemma returns_post_process (x : list handle) :
  returns (fun r => snd r = x) (post_process x).
Proof.
  unfold post_process.
  repeat (apply returns_bind; intros;
          try match goal with
              | |- returns _ (match ?p with (_, _) => _ end) => destruct p
              end).
  now apply returns_ret.
Qed.

End FrameNotebook.

(** C10: the buffers that exist before the call of [post_process], those
    of the tensors of the list among them, are unchanged by it, whatever
    its outcome, and a pair it returns has the list as second component;
    on raw tensors that regroup as [b, 144, n], with tables of one anchor
    and one stride per slot, it does return such a pair, and every tensor
    of the list has the elements it had. *)
Theorem post_process_frame (w : world R) (x : list handle) :
  (firstn (length (heap w)) (heap (snd (post_process x w))) = heap w
   /\ fs (snd (post_process x w)) = fs w
   /\ match fst (post_process x w) with
      | Ok (_, x') => x' = x
      | Raise _ => True
      end)
  /\ forall (x0 : handle) (b : nat) (an st : tensor R),
       nth_error x 0 = Some x0 ->
       nth_error (t_shape x0) 0 = Some b ->
       0 < b ->
       Forall (valid w) x ->
       Forall (fun xi => numel (t_shape xi) mod (b * 144) = 0) x ->
       Forall (fun xi => viewable xi [b; 144; slots_of b xi]) x ->
       0 < slots b x ->
       fs w "./anchors.npy" = Some an -> wf an -> shape an = [2; slots b x] ->
       fs w "./strides.npy" = Some st -> wf st -> shape st = [1; slots b x] ->
       wp (post_process x) w (fun r w' =>
         snd r = x /\ Forall (fun xi => hval w' xi = hval w xi) x).
Proof.
  split.
  - destruct (frames_post_process x w) as [[l Hl] Hf].
    split; [|split].
    + rewrite Hl, firstn_app, Nat.sub_diag, firstn_all. simpl. apply app_nil_r.
    + exact Hf.
    + pose proof (returns_post_process x w) as H.
      destruct (fst (post_process x w)) as [[y x']|e]; [exact H|exact I].
  - intros x0 b an st Hx0 Hb0 Hb Hv Hd Hvw HA Han Hanwf Hans Hst Hstwf Hsts.
    eapply wp_mono; [eapply post_process_wp with (an := an) (st := st); eassumption|].
    intros r w' [E [Hr _]]. cbv beta. split; [exact Hr|].
    rewrite Forall_forall in *. intros xi Hin. apply (hval_ext E). now apply Hv.
Qed.

Lemma post_process_frame_witness :
  wp (post_process [x_frame]) w_frame (fun r w' =>
    snd r = [x_frame] /\ Forall (fun xi => hval w' xi = hval w_frame xi) [x_frame]).
Proof.
  apply (proj2 (@post_process_frame w_frame [x_frame]) x_frame 1
           (mkT [2; 1] [10; 10]%R) (mkT [1; 1] [32]%R));
    try reflexivity; try lia.
  - repeat constructor.
  - repeat constructor.
  - repeat constructor.
  - unfold slots, slots_of. simpl. lia.
Defined.

(** ** Score fusion and determinism *)

Section ValueFacts.
Context {A : Type} {SA : Scalar A}.

(** A handle that holds [f] has the value [tabulate s f]. *)
Lemma holds_hval (w : world A) (h : handle) s f :
  holds w h s f -> hval w h = tabulate s f.
Proof.
  intros [[Hb Hwf] [Hs Hf]]. unfold hval, tmap, tabulate. unfold t_shape in Hs.
  rewrite Hs. f_equal.
  apply nth_ext with (d := s_zero) (d' := s_zero).
  - rewrite !length_map, length_indices. unfold wf in Hwf. now rewrite Hwf, Hs.
  - intros p Hp. rewrite length_map in Hp. unfold wf in Hwf. rewrite Hwf, Hs in Hp.
    assert (Hinb : inb s (nth p (indices s) [])).
    { apply indices_inb, nth_In. now rewrite length_indices. }
    assert (Hoff : offset s (nth p (indices s) []) = p).
    { pose proof (offsets_indices s) as Ho.
      apply (f_equal (fun l => nth p l 0)) in Ho.
      rewrite seq_nth in Ho by exact Hp. simpl in Ho. rewrite <- Ho at 2.
      symmetry. apply nth_map_default. now rewrite length_indices. }
    rewrite nth_map_default with (dx := 0) by (unfold wf in Hwf; now rewrite Hwf, Hs).
    rewrite nth_map_default with (dx := []) by now rewrite length_indices.
    rewrite <- (Hf _ Hinb). unfold hget, get. now rewrite Hs, Hoff.
Qed.

Lemma raw_parts_same (w w' : world A) (b : nat) (l : list handle) :
  map (hval w') l = map (hval w) l -> raw_parts w' b l = raw_parts w b l.
Proof.
  unfold raw_parts. induction l as [|xi l IH]; simpl; [reflexivity|].
  intros H.
  pose proof (f_equal (fun l => nth 0 l (hval w xi)) H) as H1.
  pose proof (f_equal (@tl _) H) as H2. cbn [nth tl map] in H1, H2.
  now rewrite H1, IH.
Qed.

(** The outcome of [post_process] is a function of the contents of the
    raw tensors and of the two tables: the random generator and the
    other buffers have no part in it. *)
Lemma post_process_no_hidden_state (w w' : world A) (x : list handle) (x0 : handle)
      (b : nat) (an st : tensor A) :
  nth_error x 0 = Some x0 ->
  nth_error (t_shape x0) 0 = Some b ->
  0 < b ->
  Forall (fun xi => numel (t_shape xi) mod (b * 144) = 0) x ->
  Forall (fun xi => viewable xi [b; 144; slots_of b xi]) x ->
  0 < slots b x ->
  wf an -> shape an = [2; slots b x] ->
  wf st -> shape st = [1; slots b x] ->
  Forall (valid w) x ->
  fs w "./anchors.npy" = Some an -> fs w "./strides.npy" = Some st ->
  Forall (valid w') x ->
  fs w' "./anchors.npy" = Some an -> fs w' "./strides.npy" = Some st ->
  map (hval w') x = map (hval w) x ->
  wp (post_process x) w (fun r1 w1 =>
    wp (post_process x) w' (fun r2 w2 =>
      hval w2 (fst r2) = hval w1 (fst r1) /\ snd r2 = snd r1)).
Proof.
  intros Hx0 Hb0 Hb Hd Hvw HA Hanwf Hans Hstwf Hsts Hv Han Hst Hv' Han' Hst' Heq.
  eapply wp_mono; [eapply post_process_wp with (an := an) (st := st); eassumption|].
  intros r1 w1 [_ [Hr1 H1]]. cbv beta.
  eapply wp_mono; [eapply post_process_wp with (an := an) (st := st); eassumption|].
  intros r2 w2 [_ [Hr2 H2]]. cbv beta.
  split; [|congruence].
  rewrite (holds_hval H1), (holds_hval H2).
  unfold raw_pred. now rewrite (@raw_parts_same w w' b x Heq).
Qed.

End ValueFacts.

(** C3: on raw tensors that regroup as [b, 144, n], and with tables of
    one anchor and one stride per slot, [post_process] returns; the fused
    tensor has, for each anchor slot, the four box coordinates in pixels,
    then the 80 class probabilities, each the sigmoid of its own class
    logit. *)
Theorem post_process_fused (w : world R) (x : list handle) (x0 : handle) (b : nat)
        (an st : tensor R) :
  nth_error x 0 = Some x0 ->
  nth_error (t_shape x0) 0 = Some b ->
  0 < b ->
  Forall (valid w) x ->
  Forall (fun xi => numel (t_shape xi) mod (b * 144) = 0) x ->
  Forall (fun xi => viewable xi [b; 144; slots_of b xi]) x ->
  0 < slots b x ->
  fs w "./anchors.npy" = Some an -> wf an -> shape an = [2; slots b x] ->
  fs w "./strides.npy" = Some st -> wf st -> shape st = [1; slots b x] ->
  wp (post_process x) w (fun r w' =>
    t_shape (fst r) = [b; 84; slots b x]
    /\ forall i j, i < b -> j < slots b x ->
         (forall k, k < 4 ->
            hget w' (fst r) [i; k; j] = decoded_box (raw_pred w b x) an st i k j)
         /\ (forall c, c < 80 ->
               let logit := raw_pred w b x [i; 64 + c; j] in
               hget w' (fst r) [i; 4 + c; j] = (1 / (1 + exp (- logit)))%R)).
Proof.
  intros Hx0 Hb0 Hb Hv Hd Hvw HA Han Hanwf Hans Hst Hstwf Hsts.
  eapply wp_mono; [eapply post_process_wp with (an := an) (st := st); eassumption|].
  intros r w' [_ [_ [_ [Hs Hy]]]]. split; [exact Hs|].
  intros i j Hi Hj. split.
  - intros k Hk. rewrite Hy by (simpl; lia). unfold fused.
    replace (k <? 4) with true by (symmetry; now apply Nat.ltb_lt). reflexivity.
  - intros c Hc. cbv zeta. rewrite Hy by (simpl; lia). unfold fused.
    replace (4 + c <? 4) with false by (symmetry; apply Nat.ltb_ge; lia).
    replace (4 + c - 4) with c by lia. reflexivity.
Qed.

(** C8: a second run of [post_process] on the same list, from the state
    the first run leaves, returns a tensor with the same shape and the
    same elements, and the same list. *)
Theorem post_process_deterministic (w : world R) (x : list handle) (x0 : handle)
        (b : nat) (an st : tensor R) :
  nth_error x 0 = Some x0 ->
  nth_error (t_shape x0) 0 = Some b ->
  0 < b ->
  Forall (valid w) x ->
  Forall (fun xi => numel (t_shape xi) mod (b * 144) = 0) x ->
  Forall (fun xi => viewable xi [b; 144; slots_of b xi]) x ->
  0 < slots b x ->
  fs w "./anchors.npy" = Some an -> wf an -> shape an = [2; slots b x] ->
  fs w "./strides.npy" = Some st -> wf st -> shape st = [1; slots b x] ->
  wp (post_process x) w (fun r1 w1 =>
    wp (post_process x) w1 (fun r2 w2 =>
      hval w2 (fst r2) = hval w1 (fst r1) /\ snd r2 = snd r1)).
Proof.
  intros Hx0 Hb0 Hb Hv Hd Hvw HA Han Hanwf Hans Hst Hstwf Hsts.
  destruct (@post_process_wp R _ w x x0 b an st) as [r1 [w1 [Hrun [_ [Hr1 H1]]]]];
    try assumption.
  exists r1, w1. split; [exact Hrun|].
  (* the first run leaves the raw tensors and the files as they were *)
  pose proof (frames_post_process x w) as E1. rewrite Hrun in E1. cbn [snd] in E1.
  assert (Hv1 : Forall (valid w1) x).
  { rewrite Forall_forall in *. intros xi Hin. apply (valid_ext E1). now apply Hv. }
  assert (Han1 : fs w1 "./anchors.npy" = Some an) by (destruct E1 as [_ F]; now rewrite F).
  assert (Hst1 : fs w1 "./strides.npy" = Some st) by (destruct E1 as [_ F]; now rewrite F).
  eapply wp_mono; [eapply post_process_wp with (an := an) (st := st); eassumption|].
  intros r2 w2 [E2 [Hr2 H2]]. cbv beta.
  split; [|congruence].
  rewrite (holds_hval H1), (holds_hval H2).
  unfold raw_pred. now rewrite (@raw_parts_ext _ _ w w1 b x E1 Hv).
Qed.

Lemma post_process_fused_witness :
  wp (post_process [x_frame]) w_frame (fun r w' =>
    t_shape (fst r) = [1; 84; 1]
    /\ forall i j, i < 1 -> j < 1 ->
         (forall k, k < 4 ->
            hget w' (fst r) [i; k; j]
            = decoded_box (raw_pred w_frame 1 [x_frame]) (mkT [2; 1] [10; 10]%R)
                          (mkT [1; 1] [32]%R) i k j)
         /\ (forall c, c < 80 ->
               let logit := raw_pred w_frame 1 [x_frame] [i; 64 + c; j] in
               hget w' (fst r) [i; 4 + c; j] = (1 / (1 + exp (- logit)))%R)).
Proof.
  apply (@post_process_fused w_frame [x_frame] x_frame 1 (mkT [2; 1] [10; 10]%R) (mkT [1; 1] [32]%R));
    try reflexivity; try lia.
  - repeat constructor.
  - repeat constructor.
  - repeat constructor.
  - unfold slots, slots_of. simpl. lia.
Defined.

Lemma post_process_deterministic_witness :
  wp (post_process [x_frame]) w_frame (fun r1 w1 =>
    wp (post_process [x_frame]) w1 (fun r2 w2 =>
      hval w2 (fst r2) = hval w1 (fst r1) /\ snd r2 = snd r1)).
Proof.
  apply (@post_process_deterministic w_frame [x_frame] x_frame 1
           (mkT [2; 1] [10; 10]%R) (mkT [1; 1] [32]%R));
    try reflexivity; try lia.
  - repeat constructor.
  - repeat constructor.
  - repeat constructor.
  - unfold slots, slots_of. simpl. lia.
Defined.

(** ** NaN in the logits *)

Lemma x_add_nan_r (a : xreal) : x_add a NaN = NaN.
Proof. destruct a; reflexivity. Qed.

Lemma x_div_nan_r (a : xreal) : x_div a NaN = NaN.
Proof. destruct a; reflexivity. Qed.

Lemma ssum_nan (l : list xreal) : In NaN l -> ssum l = NaN.
Proof.
  induction l as [|a l IH]; intros Hin; [contradiction|].
  change (x_add a (ssum l) = NaN).
  destruct Hin as [->|Hin]; [reflexivity|]. rewrite (IH Hin). apply x_add_nan_r.
Qed.

Lemma softmax_list_nan (l : list xreal) :
  In NaN l -> softmax_list l = map (fun _ => NaN) l.
Proof.
  intros Hin. unfold softmax_list.
  assert (Hs : ssum (map s_exp l) = NaN).
  { apply ssum_nan. apply in_map_iff. exists NaN. split; [reflexivity|exact Hin]. }
  rewrite Hs. apply map_ext. intros a. apply x_div_nan_r.
Qed.

Lemma expected_bin_nan (l : list xreal) : In NaN l -> expected_bin l = NaN.
Proof.
  intros Hin. unfold expected_bin. rewrite (softmax_list_nan _ Hin).
  destruct l as [|a l]; [contradiction|]. reflexivity.
Qed.

Lemma x_add_nan_l (b : xreal) : x_add NaN b = NaN.
Proof. reflexivity. Qed.

Lemma x_sub_nan_l (b : xreal) : x_sub NaN b = NaN.
Proof. reflexivity. Qed.

Lemma x_sub_nan_r (a : xreal) : x_sub a NaN = NaN.
Proof. destruct a; reflexivity. Qed.

Lemma x_div_nan_l (b : xreal) : x_div NaN b = NaN.
Proof. reflexivity. Qed.

Lemma x_mul_nan_l (b : xreal) : x_mul NaN b = NaN.
Proof. reflexivity. Qed.

Lemma box_coord_nan (ax ay l t r b st : xreal) (s k : nat) :
  s < 4 -> k < 4 -> k mod 2 = s mod 2 ->
  nth s [l; t; r; b] (Fin 0) = NaN ->
  s_mul (box_coord true ax ay l t r b k) st = NaN.
Proof.
  intros Hs Hk Hm Hn.
  destruct s as [|[|[|[|s]]]]; try lia;
  destruct k as [|[|[|[|k]]]]; try lia; try discriminate Hm;
  simpl in Hn; subst; unfold box_coord;
  cbn [s_add s_sub s_mul s_div s_of_nat xreal_Scalar];
  rewrite ?x_sub_nan_l, ?x_sub_nan_r, ?x_add_nan_l, ?x_add_nan_r,
    ?x_div_nan_l, ?x_mul_nan_l; reflexivity.
Qed.

(** The decoding of a slot one of whose bin logits is NaN: [post_process]
    returns, and the coordinates of the box that depend on the side of
    that logit are NaN. *)
Lemma post_process_nan_wp (w : world xreal) (x : list handle) (x0 : handle) (b : nat)
      (an st : tensor xreal) (i s k0 j k : nat) :
  nth_error x 0 = Some x0 ->
  nth_error (t_shape x0) 0 = Some b ->
  0 < b ->
  Forall (valid w) x ->
  Forall (fun xi => numel (t_shape xi) mod (b * 144) = 0) x ->
  Forall (fun xi => viewable xi [b; 144; slots_of b xi]) x ->
  0 < slots b x ->
  fs w "./anchors.npy" = Some an -> wf an -> shape an = [2; slots b x] ->
  fs w "./strides.npy" = Some st -> wf st -> shape st = [1; slots b x] ->
  i < b -> j < slots b x -> s < 4 -> k0 < 16 -> k < 4 -> k mod 2 = s mod 2 ->
  raw_pred w b x [i; 16 * s + k0; j] = NaN ->
  wp (post_process x) w (fun r w' => snd r = x /\ hget w' (fst r) [i; k; j] = NaN).
Proof.
  intros Hx0 Hb0 Hb Hv Hd Hvw HA Han Hanwf Hans Hst Hstwf Hsts Hi Hj Hs Hk0 Hk Hm Hnan.
  eapply wp_mono; [eapply post_process_wp with (an := an) (st := st); eassumption|].
  intros r w' [_ [Hr [_ [_ Hy]]]]. split; [exact Hr|].
  rewrite Hy by (simpl; lia). unfold fused.
  replace (k <? 4) with true by (symmetry; now apply Nat.ltb_lt).
  unfold decoded_box. apply box_coord_nan with (s := s); try assumption.
  assert (Hside : expected_bin (side_logits (raw_pred w b x) i s j) = NaN).
  { apply expected_bin_nan. unfold side_logits. apply in_map_iff.
    exists k0. split; [exact Hnan|]. apply in_seq. lia. }
  destruct s as [|[|[|[|s]]]]; try lia; exact Hside.
Qed.

(** C6, as stated, fails: on a raw tensor all of whose logits are NaN,
    [post_process] raises no error; it returns, and the box it returns
    has a NaN coordinate. *)
Lemma post_process_returns_nan_box :
  hget w_nan x_nan [0; 0; 0; 0] = NaN
  /\ wp (post_process [x_nan]) w_nan (fun r w' =>
        snd r = [x_nan] /\ hget w' (fst r) [0; 0; 0] = NaN).
Proof.
  split; [reflexivity|].
  apply (@post_process_nan_wp w_nan [x_nan] x_nan 1 (mkT [2; 1] [Fin 10; Fin 10])
           (mkT [1; 1] [Fin 32]) 0 0 0 0 0);
    try reflexivity; try lia.
  - repeat constructor.
  - repeat constructor.
  - repeat constructor.
  - unfold slots, slots_of. simpl. lia.
  - unfold slots, slots_of. simpl. lia.
Qed.

(** C6, amended: [post_process] does not test the values of the logits.
    On an input of well-formed shape it returns, also when logits are
    NaN; a NaN among the bin logits of a side of a slot makes NaN the box
    coordinates of that slot that depend on that side (x and width on
    left and right, y and height on top and bottom). *)
Theorem post_process_propagates_nan (w : world xreal) (x : list handle) (x0 : handle)
        (b : nat) (an st : tensor xreal) (i s k0 j k : nat) :
  nth_error x 0 = Some x0 ->
  nth_error (t_shape x0) 0 = Some b ->
  0 < b ->
  Forall (valid w) x ->
  Forall (fun xi => numel (t_shape xi) mod (b * 144) = 0) x ->
  Forall (fun xi => viewable xi [b; 144; slots_of b xi]) x ->
  0 < slots b x ->
  fs w "./anchors.npy" = Some an -> wf an -> shape an = [2; slots b x] ->
  fs w "./strides.npy" = Some st -> wf st -> shape st = [1; slots b x] ->
  i < b -> j < slots b x -> s < 4 -> k0 < 16 -> k < 4 -> k mod 2 = s mod 2 ->
  raw_pred w b x [i; 16 * s + k0; j] = NaN ->
  wp (post_process x) w (fun r w' => snd r = x /\ hget w' (fst r) [i; k; j] = NaN).
Proof. apply post_process_nan_wp. Qed.

Lemma post_process_propagates_nan_witness :
  wp (post_process [x_nan]) w_nan (fun r w' =>
    snd r = [x_nan] /\ hget w' (fst r) [0; 2; 0] = NaN).
Proof.
  apply (@post_process_propagates_nan w_nan [x_nan] x_nan 1 (mkT [2; 1] [Fin 10; Fin 10])
           (mkT [1; 1] [Fin 32]) 0 2 5 0 2);
    try reflexivity; try lia.
  - repeat constructor.
  - repeat constructor.
  - repeat constructor.
  - unfold slots, slots_of. simpl. lia.
  - unfold slots, slots_of. simpl. lia.
Defined.

(** ** Malformed inputs *)




Section ErrorFacts.
Context {A : Type} {SA : Scalar A}.

Lemma alloc_ext_wp (v : tensor A) (w : world A) :
  wp (alloc v) w (fun _ w' => ext w w').
Proof. eexists. eexists. split; [reflexivity|]. apply (frames_alloc v w). Qed.












End ErrorFacts.




(** ** The detection filter *)

Module NMSFacts.
Import NMS.

Lemma insert_length (d : Detection) (l : list Detection) :
  length (insert d l) = S (length l).
Proof.
  induction l as [|e r IH]; simpl; [reflexivity|].
  destruct (Rlt_dec (det_conf d) (det_conf e)); simpl; [now rewrite IH|reflexivity].
Qed.

Lemma sort_length (l : list Detection) : length (sort l) = length l.
Proof.
  induction l as [|d l IH]; simpl; [reflexivity|]. now rewrite insert_length, IH.
Qed.

Lemma insert_In (d x : Detection) (l : list Detection) :
  In x (insert d l) -> x = d \/ In x l.
Proof.
  induction l as [|e r IH]; simpl.
  - intros [<-|[]]. now left.
  - destruct (Rlt_dec (det_conf d) (det_conf e)); simpl.
    + intros [<-|H]; [right; now left|]. destruct (IH H); auto.
    + intros [<-|[<-|H]]; auto.
Qed.

Lemma insert_sorted (d : Detection) (l : list Detection) :
  StronglySorted descending l -> StronglySorted descending (insert d l).
Proof.
  induction 1 as [|e r Hr IH He]; simpl.
  - constructor; [constructor|constructor].
  - destruct (Rlt_dec (det_conf d) (det_conf e)) as [Hlt|Hge].
    + constructor; [exact IH|].
      apply Forall_forall. intros x Hx. apply insert_In in Hx.
      destruct Hx as [->|Hx].
      * unfold descending. lra.
      * rewrite Forall_forall in He. now apply He.
    + constructor; [now constructor|].
      constructor; [unfold descending; lra|].
      apply Forall_forall. intros x Hx. rewrite Forall_forall in He.
      specialize (He x Hx). unfold descending in *. lra.
Qed.

Lemma sort_sorted (l : list Detection) : StronglySorted descending (sort l).
Proof.
  induction l as [|d l IH]; simpl; [constructor|]. now apply insert_sorted.
Qed.

Lemma filter_sorted (f : Detection -> bool) (l : list Detection) :
  StronglySorted descending l -> StronglySorted descending (filter f l).
Proof.
  induction 1 as [|e r Hr IH He]; simpl; [constructor|].
  destruct (f e); [|exact IH]. constructor; [exact IH|].
  apply Forall_forall. intros x Hx. apply filter_In in Hx.
  rewrite Forall_forall in He. now apply He.
Qed.

Lemma greedy_In (cfg : config) (n : nat) (l : list Detection) (x : Detection) :
  In x (greedy cfg n l) -> In x l.
Proof.
  revert l. induction n as [|n IH]; intros [|d r]; simpl; try tauto.
  intros [<-|H]; [now left|]. right. apply IH in H. now apply filter_In in H.
Qed.

Lemma greedy_sorted (cfg : config) (n : nat) (l : list Detection) :
  StronglySorted descending l -> StronglySorted descending (greedy cfg n l).
Proof.
  revert l. induction n as [|n IH]; intros l Hl; [destruct l; constructor|].
  destruct l as [|d r]; [constructor|]. simpl.
  inversion Hl as [|? ? Hr Hd]; subst.
  constructor.
  - apply IH. now apply filter_sorted.
  - apply Forall_forall. intros x Hx. apply greedy_In in Hx. apply filter_In in Hx.
    rewrite Forall_forall in Hd. now apply Hd.
Qed.

Lemma greedy_length (cfg : config) (n : nat) (l : list Detection) :
  length (greedy cfg n l) <= n /\ length (greedy cfg n l) <= length l.
Proof.
  revert l. induction n as [|n IH]; intros [|d r]; simpl; try lia.
  destruct (IH (filter (fun e => negb (suppresses cfg d e)) r)) as [H1 H2].
  pose proof (filter_length_le (fun e => negb (suppresses cfg d e)) r). lia.
Qed.

Lemma detections_length (id : nat) (rows : list row) :
  length (detections id rows) = length rows.
Proof.
  revert id. induction rows as [|[box scores] r IH]; intros id; simpl; [reflexivity|].
  now rewrite IH.
Qed.

Lemma candidates_length (cfg : config) (rows : list row) :
  length (candidates cfg rows) <= length rows.
Proof.
  unfold candidates. rewrite <- (detections_length 0 rows). apply filter_length_le.
Qed.

(** C4: with a positive maximum, the detection filter returns a sequence
    of detections of non-increasing confidence, of length at most the
    maximum and at most the number of rows. *)
Theorem nms_sorted_bounded (cfg : config) (rows : list row) :
  0 < max_det cfg ->
  exists out,
    non_max_suppression cfg rows = Ok out
    /\ StronglySorted descending out
    /\ length out <= max_det cfg
    /\ length out <= length rows.
Proof.
  intros Hm. unfold non_max_suppression.
  destruct (Nat.eqb_spec (max_det cfg) 0) as [E|_]; [lia|].
  eexists. split; [reflexivity|]. split; [|split].
  - apply greedy_sorted, sort_sorted.
  - apply greedy_length.
  - destruct (greedy_length cfg (max_det cfg) (sort (candidates cfg rows))) as [_ H].
    rewrite sort_length in H. pose proof (candidates_length cfg rows). lia.
Qed.

(** The call of [inference], on two rows. *)
Lemma nms_sorted_bounded_witness :
  exists out,
    non_max_suppression inference_config
      [((320, 320, 128, 128)%R, [9 / 10; 1 / 10]%R);
       ((322, 320, 128, 128)%R, [8 / 10; 1 / 10]%R)] = Ok out
    /\ StronglySorted descending out
    /\ length out <= 300
    /\ length out <= 2.
Proof.
  apply (nms_sorted_bounded inference_config
           [((320, 320, 128, 128)%R, [9 / 10; 1 / 10]%R);
            ((322, 320, 128, 128)%R, [8 / 10; 1 / 10]%R)]).
  simpl. lia.
Defined.

End NMSFacts.

(** ** Edges of [post_process] *)

Section DecodableFacts.
Context {A : Type} {SA : Scalar A}.

Lemma post_process_decodable_wp (w : world A) (x : list handle) (b : nat)
      (an st : tensor A) :
  decodable w x b an st ->
  wp (post_process x) w (fun r w' =>
    ext w w' /\ snd r = x
    /\ holds w' (fst r) [b; 84; slots b x] (fused (raw_pred w b x) an st)).
Proof.
  intros [[[x0 [Hx0 Hb0]] [Hb [Hv [Hd [Hvw HA]]]]] [[Han [Hanwf Hans]] [Hst [Hstwf Hsts]]]].
  now apply post_process_wp with (x0 := x0).
Qed.


(** The statements of [post_process] that come before the views: the
    module and the two tables. *)
Lemma post_process_tables_wp (w : world A) (x : list handle) (an st : tensor A)
      (e : exn) :
  fs w "./anchors.npy" = Some an ->
  fs w "./strides.npy" = Some st ->
  (forall w' : world A,
     raises (xs <- mapM (fun xi =>
                x0 <- list_item x 0 ;;
                b <- list_item (t_shape x0) 0 ;;
                t_view xi [Z.of_nat b; 144; -1]%Z) x ;;
             t_cat xs 2) w' e) ->
  raises (post_process x) w e.
Proof.
  intros Han Hst K. unfold post_process.
  apply raises_bind_r. eapply wp_mono; [apply DFL_init_wp|].
  intros dfl w1 [E1 _]. cbv beta.
  apply raises_bind_r. eapply wp_mono.
  { apply np_load_wp. destruct E1 as [_ F]. rewrite F. exact Han. }
  intros ? ? [-> ->]. cbv beta.
  apply raises_bind_r. eapply wp_mono; [apply alloc_ext_wp|].
  intros anchors w2 E2. cbv beta.
  apply raises_bind_r. eapply wp_mono.
  { apply np_load_wp. destruct E2 as [_ F2]. destruct E1 as [_ F1]. rewrite F2, F1. exact Hst. }
  intros ? ? [-> ->]. cbv beta.
  apply raises_bind_r. eapply wp_mono; [apply alloc_ext_wp|].
  intros strides w3 E3. cbv beta.
  destruct (K w3) as [w4 HK]. unfold bind in HK.
  unfold raises, bind.
  destruct (mapM _ x w3) as [[xs|e'] w5].
  - rewrite HK. now exists w4.
  - injection HK as -> ->. now exists w4.
Qed.

End DecodableFacts.

(** The preconditions of [post_process] on a concrete list whose first
    tensor is [x0], by computation. *)
Ltac regroupable_example x0 :=
  split; [exists x0; split; reflexivity|];
  split; [lia|];
  split; [repeat constructor|];
  split; [repeat constructor|];
  split; [repeat constructor|];
  unfold slots, slots_of; simpl; lia.

Ltac decodable_example x0 :=
  split; [regroupable_example x0|];
  split; (split; [reflexivity|split; reflexivity]).

(** On the empty list [post_process] builds the module, loads the two
    tables and fails in [torch.cat]: the views, and [x[0]] with them,
    are never evaluated. *)
Theorem post_process_empty_list {A : Type} {SA : Scalar A} (w : world A)
        (an st : tensor A) :
  fs w "./anchors.npy" = Some an ->
  fs w "./strides.npy" = Some st ->
  raises (post_process []) w (RuntimeError "expected a non-empty list of tensors").
Proof.
  intros Han Hst. apply post_process_tables_wp with (an := an) (st := st); auto.
  intros w'. exists w'. reflexivity.
Qed.

Lemma post_process_empty_list_witness :
  raises (post_process []) w_frame (RuntimeError "expected a non-empty list of tensors").
Proof.
  apply (@post_process_empty_list R _ w_frame (mkT [2; 1] [10; 10]%R) (mkT [1; 1] [32]%R));
    reflexivity.
Defined.

(** A missing table: [post_process] raises [FileNotFoundError] for the
    anchors first, then for the strides, whatever the list it is given. *)
Theorem post_process_missing_table {A : Type} {SA : Scalar A} (w : world A)
        (x : list handle) :
  (fs w "./anchors.npy" = None ->
   raises (post_process x) w (FileNotFoundError "./anchors.npy"))
  /\ (forall an, fs w "./anchors.npy" = Some an -> fs w "./strides.npy" = None ->
      raises (post_process x) w (FileNotFoundError "./strides.npy")).
Proof.
  split.
  - intros Han. unfold post_process.
    apply raises_bind_r. eapply wp_mono; [apply DFL_init_wp|].
    intros dfl w1 [[_ F] _]. cbv beta.
    apply raises_bind_l. exists w1. unfold np_load. now rewrite F, Han.
  - intros an Han Hst. unfold post_process.
    apply raises_bind_r. eapply wp_mono; [apply DFL_init_wp|].
    intros dfl w1 [E1 _]. cbv beta.
    apply raises_bind_r. eapply wp_mono.
    { apply np_load_wp. destruct E1 as [_ F]. rewrite F. exact Han. }
    intros ? ? [-> ->]. cbv beta.
    apply raises_bind_r. eapply wp_mono; [apply alloc_ext_wp|].
    intros anchors w2 [_ F2]. cbv beta.
    apply raises_bind_l. exists w2. unfold np_load.
    destruct E1 as [_ F1]. now rewrite F2, F1, Hst.
Qed.

Lemma post_process_missing_table_witness :
  raises (post_process [x_frame]) w_zeros (FileNotFoundError "./anchors.npy")
  /\ raises (post_process [x_frame]) w_no_strides (FileNotFoundError "./strides.npy").
Proof.
  split.
  - apply (proj1 (@post_process_missing_table R _ w_zeros [x_frame])). reflexivity.
  - apply (proj2 (@post_process_missing_table R _ w_no_strides [x_frame])
             (mkT [2; 1] [10; 10]%R)); reflexivity.
Defined.

(** ** Edges of [dist2bbox] *)

Lemma split_layout_length (dim start : nat) (sizes : list nat) (t : tensor nat) :
  length (split_layout dim start sizes t) = length sizes.
Proof.
  revert start. induction sizes as [|n r IH]; intros start; simpl; auto.
Qed.

(** [split] with size 2 gives two chunks exactly when the dimension has
    3 or 4 entries. *)
Lemma chunk_sizes_2_length (total : nat) (sizes : list nat) :
  chunk_sizes 2 total = Some sizes ->
  total <> 3 -> total <> 4 -> length sizes <> 2.
Proof.
  unfold chunk_sizes. destruct (Nat.eqb_spec total 0) as [->|H0].
  - intros [= <-] _ _. discriminate.
  - change (2 =? 0) with false. cbv iota. intros H H3 H4.
    apply (f_equal (fun o => match o with Some l => length l | None => 0 end)) in H.
    rewrite <- H, length_app, repeat_length.
    pose proof (Nat.div_mod_eq total 2) as Hd.
    pose proof (Nat.mod_upper_bound total 2) as Hm.
    destruct (Nat.eqb_spec (total mod 2) 0); cbn [length]; lia.
Qed.

Lemma chunk_sizes_2_some (total : nat) : exists sizes, chunk_sizes 2 total = Some sizes.
Proof.
  unfold chunk_sizes. destruct (total =? 0); [now eexists|].
  change (2 =? 0) with false. cbv iota. now eexists.
Qed.

Lemma unpack2_raises {W X} (l : list X) (w : W) :
  length l <> 2 ->
  unpack2 l w = (Raise (ValueError "wrong number of values to unpack"), w).
Proof.
  destruct l as [|a [|b [|c l]]]; simpl; intros H; try reflexivity. lia.
Qed.

(** [dist2bbox] checks its arguments nowhere.  On a distance tensor
    with at least one dimension, what it raises is the [IndexError] of
    [split] when [dim] is not one of its dimensions, and the
    [ValueError] of the unpacking [lt, rb = ...] when that dimension has
    neither 3 nor 4 entries. *)
Theorem dist2bbox_wrong_size {A : Type} {SA : Scalar A} (w : world A)
        (distance anchor_points : handle) (xywh : bool) (dim : Z) :
  t_shape distance <> [] ->
  (norm_dim (length (t_shape distance)) dim = None ->
   raises (dist2bbox distance anchor_points xywh dim) w
          (IndexError "dimension out of range"))
  /\ (forall n, norm_dim (length (t_shape distance)) dim = Some n ->
      nth n (t_shape distance) 0 <> 3 -> nth n (t_shape distance) 0 <> 4 ->
      raises (dist2bbox distance anchor_points xywh dim) w
             (ValueError "wrong number of values to unpack")).
Proof.
  intros _. split.
  - intros Hd. unfold dist2bbox. apply raises_bind_l.
    unfold t_split. rewrite Hd. now exists w.
  - intros n Hd H3 H4. unfold dist2bbox.
    destruct (chunk_sizes_2_some (nth n (t_shape distance) 0)) as [sizes Hc].
    apply raises_bind_r. unfold t_split. rewrite Hd, Hc. apply wp_ret.
    apply raises_bind_l. exists w. apply unpack2_raises.
    rewrite length_map, split_layout_length.
    now apply chunk_sizes_2_length with (total := nth n (t_shape distance) 0).
Qed.

Lemma dist2bbox_wrong_size_witness :
  raises (dist2bbox (mkH 0 (mkT [1; 4; 1] [0; 1; 2; 3]))
                    (mkH 1 (mkT [1; 2; 1] [0; 1])) true 3) w_scenario
         (IndexError "dimension out of range")
  /\ raises (dist2bbox (mkH 0 (mkT [1; 4; 1] [0; 1; 2; 3]))
                       (mkH 1 (mkT [1; 2; 1] [0; 1])) true (-1)) w_scenario
            (ValueError "wrong number of values to unpack").
Proof.
  split.
  - apply (proj1 (@dist2bbox_wrong_size R _ w_scenario (mkH 0 (mkT [1; 4; 1] [0; 1; 2; 3]))
                    (mkH 1 (mkT [1; 2; 1] [0; 1])) true 3 ltac:(discriminate))).
    reflexivity.
  - apply (proj2 (@dist2bbox_wrong_size R _ w_scenario (mkH 0 (mkT [1; 4; 1] [0; 1; 2; 3]))
                    (mkH 1 (mkT [1; 2; 1] [0; 1])) true (-1) ltac:(discriminate)) 2);
      [reflexivity|simpl; lia|simpl; lia].
Defined.

Lemma bshape_mid1 (b a : nat) : bshape [1; 2; a] [b; 1; a] = Some [b; 2; a].
Proof.
  unfold bshape, pad. cbn [length Nat.max Nat.sub repeat app bzip].
  rewrite Nat.eqb_refl. cbn [Nat.eqb option_map].
  destruct b as [|[|b]]; reflexivity.
Qed.

Lemma bidx_mid1 (b a i k j : nat) :
  i < b -> j < a -> bidx [b; 1; a] [i; k; j] = [i; 0; j].
Proof.
  intros Hi Hj. unfold bidx. cbn [length Nat.sub skipn bidx_aligned Nat.eqb].
  destruct (Nat.eqb_spec b 1); destruct (Nat.eqb_spec a 1); repeat f_equal; lia.
Qed.

Section BoxEdgeFacts.
Context {A : Type} {SA : Scalar A}.

(** [split] in chunks of 2 of a dimension of 3 entries. *)
Lemma t_split21_wp (w : world A) (h : handle) s f d dim :
  holds w h s f ->
  norm_dim (length s) d = Some dim ->
  nth dim s 0 = 3 ->
  wp (t_split h 2 d) w (fun parts w' =>
    w' = w /\ exists h1 h2, parts = [h1; h2]
    /\ holds w h1 (upd dim 2 s) (fun idx => f (upd dim (0 + nth dim idx 0) idx))
    /\ holds w h2 (upd dim 1 s) (fun idx => f (upd dim (2 + nth dim idx 0) idx))).
Proof.
  intros Hh Hd Hn. pose proof Hh as [_ [Hs _]].
  unfold t_split. rewrite Hs, Hd, Hn.
  change (chunk_sizes 2 3) with (Some [2; 1]).
  apply wp_ret. split; [reflexivity|]. simpl.
  eexists. eexists. split; [reflexivity|].
  pose proof (norm_dim_lt _ _ Hd) as Hlt.
  split; apply narrow_holds; auto; lia.
Qed.

(** With its default arguments [dist2bbox] works along the last
    dimension. *)
Lemma dist2bbox_last_wp (w : world A) (d ap : handle) n fd fa (xywh : bool) :
  holds w d [n; 4] fd ->
  holds w ap [n; 2] fa ->
  wp (dist2bbox d ap xywh (-1)) w (fun y w' =>
    ext w w' /\ rng w' = rng w
    /\ holds w' y [n; 4] (fun idx =>
         match idx with
         | [j; k] =>
             box_coord xywh (fa [j; 0]) (fa [j; 1])
                       (fd [j; 0]) (fd [j; 1]) (fd [j; 2]) (fd [j; 3]) k
         | _ => s_zero
         end)).
Proof.
  intros Hd Hap. unfold dist2bbox.
  apply wp_bind. eapply wp_mono.
  { apply t_split2_wp with (1 := Hd) (dim := 1); reflexivity. }
  intros parts w0 [-> [lt [rb [-> [_ [_ [Hlt Hrb]]]]]]]. cbv beta.
  change (upd 1 2 [n; 4]) with [n; 2] in Hlt, Hrb.
  unfold unpack2. apply wp_bind, wp_ret.
  apply wp_bind. eapply wp_mono.
  { apply t_binop_wp with (1 := Hap) (2 := Hlt). apply bshape_same. }
  intros x1y1 w1 [E1 [R1 H1]]. cbv beta.
  apply holds_eq with
    (g := fun idx => match idx with
                     | [j; k] => s_sub (fa [j; k]) (fd [j; k])
                     | _ => s_zero
                     end) in H1.
  2:{ intros idx Hi. destruct idx as [|j [|k [|? ?]]]; simpl in Hi; try tauto.
      rewrite !bidx_same by (simpl; tauto). reflexivity. }
  apply wp_bind. eapply wp_mono.
  { apply t_binop_wp with (1 := holds_ext E1 Hap) (2 := holds_ext E1 Hrb).
    apply bshape_same. }
  intros x2y2 w2 [E2 [R2 H2]]. cbv beta.
  apply holds_eq with
    (g := fun idx => match idx with
                     | [j; k] => s_add (fa [j; k]) (fd [j; 2 + k])
                     | _ => s_zero
                     end) in H2.
  2:{ intros idx Hi. destruct idx as [|j [|k [|? ?]]]; simpl in Hi; try tauto.
      rewrite !bidx_same by (simpl; tauto). reflexivity. }
  pose proof (holds_ext E2 H1) as H1'.
  destruct xywh.
  - apply wp_bind. eapply wp_mono.
    { apply t_binop_wp with (1 := H1') (2 := H2). apply bshape_same. }
    intros sm w3 [E3 [R3 H3]]. cbv beta.
    apply wp_bind. eapply wp_mono.
    { apply t_div_scalar_wp with (1 := H3). }
    intros cxy w4 [E4 [R4 H4]]. cbv beta.
    pose proof (ext_trans E3 E4) as E34.
    apply wp_bind. eapply wp_mono.
    { apply t_binop_wp with (1 := holds_ext E34 H2) (2 := holds_ext E34 H1').
      apply bshape_same. }
    intros wh w5 [E5 [R5 H5]]. cbv beta.
    eapply wp_mono.
    { match type of H5 with
      | holds _ _ _ ?f => apply t_cat_wp with (dim := 1) (parts := [([n; 2], f)])
      end.
      - constructor; [exact (holds_ext E5 H4)|]. constructor; [exact H5|constructor].
      - reflexivity.
      - repeat constructor. }
    intros y w6 [E6 [R6 H6]]. cbv beta.
    split; [eauto using ext_trans|]. split; [congruence|].
    apply holds_eq_shape with (1 := H6); [reflexivity|].
    intros idx Hi. destruct idx as [|j [|k [|? ?]]]; simpl in Hi; try tauto.
    destruct Hi as [Hj [Hk _]].
    destruct k as [|[|[|[|k]]]]; try lia;
      cbn [cat_fun nth fst snd Nat.ltb Nat.leb Nat.sub upd box_coord];
      rewrite !bidx_same by (simpl; lia); reflexivity.
  - eapply wp_mono.
    { match type of H2 with
      | holds _ _ _ ?f => apply t_cat_wp with (dim := 1) (parts := [([n; 2], f)])
      end.
      - constructor; [exact H1'|]. constructor; [exact H2|constructor].
      - reflexivity.
      - repeat constructor. }
    intros y w6 [E6 [R6 H6]]. cbv beta.
    split; [eauto using ext_trans|]. split; [congruence|].
    apply holds_eq_shape with (1 := H6); [reflexivity|].
    intros idx Hi. destruct idx as [|j [|k [|? ?]]]; simpl in Hi; try tauto.
    destruct Hi as [Hj [Hk _]].
    destruct k as [|[|[|[|k]]]]; try lia; reflexivity.
Qed.

(** A distance tensor with three entries for an anchor. *)
Lemma dist2bbox_three_wp (w : world A) (d ap : handle) b a fd fa :
  holds w d [b; 3; a] fd ->
  holds w ap [1; 2; a] fa ->
  wp (dist2bbox d ap false 1) w (fun y w' =>
    ext w w' /\ rng w' = rng w
    /\ holds w' y [b; 4; a] (fun idx =>
         match idx with
         | [i; k; j] =>
             box_coord false (fa [0; 0; j]) (fa [0; 1; j])
                       (fd [i; 0; j]) (fd [i; 1; j]) (fd [i; 2; j]) (fd [i; 2; j]) k
         | _ => s_zero
         end)).
Proof.
  intros Hd Hap. unfold dist2bbox.
  apply wp_bind. eapply wp_mono.
  { apply t_split21_wp with (1 := Hd) (dim := 1); reflexivity. }
  intros parts w0 [-> [lt [rb [-> [Hlt Hrb]]]]]. cbv beta.
  change (upd 1 2 [b; 3; a]) with [b; 2; a] in Hlt.
  change (upd 1 1 [b; 3; a]) with [b; 1; a] in Hrb.
  unfold unpack2. apply wp_bind, wp_ret.
  apply wp_bind. eapply wp_mono.
  { apply t_binop_wp with (1 := Hap) (2 := Hlt). apply bshape_lead1. }
  intros x1y1 w1 [E1 [R1 H1]]. cbv beta.
  apply holds_eq with
    (g := fun idx => match idx with
                     | [i; k; j] => s_sub (fa [0; k; j]) (fd [i; k; j])
                     | _ => s_zero
                     end) in H1.
  2:{ intros idx Hi. destruct idx as [|i [|k [|j [|? ?]]]]; simpl in Hi; try tauto.
      rewrite bidx_lead1, bidx_same by (simpl; tauto). reflexivity. }
  apply wp_bind. eapply wp_mono.
  { apply t_binop_wp with (1 := holds_ext E1 Hap) (2 := holds_ext E1 Hrb).
    apply bshape_mid1. }
  intros x2y2 w2 [E2 [R2 H2]]. cbv beta.
  apply holds_eq with
    (g := fun idx => match idx with
                     | [i; k; j] => s_add (fa [0; k; j]) (fd [i; 2; j])
                     | _ => s_zero
                     end) in H2.
  2:{ intros idx Hi. destruct idx as [|i [|k [|j [|? ?]]]]; simpl in Hi; try tauto.
      rewrite bidx_lead1 by (simpl; tauto). rewrite bidx_mid1 by tauto. reflexivity. }
  pose proof (holds_ext E2 H1) as H1'.
  eapply wp_mono.
  { match type of H2 with
    | holds _ _ _ ?f => apply t_cat_wp with (dim := 1) (parts := [([b; 2; a], f)])
    end.
    - constructor; [exact H1'|]. constructor; [exact H2|constructor].
    - reflexivity.
    - repeat constructor. }
  intros y w6 [E6 [R6 H6]]. cbv beta.
  split; [eauto using ext_trans|]. split; [congruence|].
  apply holds_eq_shape with (1 := H6); [reflexivity|].
  intros idx Hi. destruct idx as [|i [|k [|j [|? ?]]]]; simpl in Hi; try tauto.
  destruct Hi as [Hi [Hk [Hj _]]].
  destruct k as [|[|[|[|k]]]]; try lia; reflexivity.
Qed.

End BoxEdgeFacts.

(** [dist2bbox] with its default arguments, [xywh=True] and [dim=-1]:
    on [n] distances (left, top, right, bottom) and [n] anchor points it
    returns [n] boxes in centre form, the centre the mean of the corners
    anchor - (left, top) and anchor + (right, bottom), the size their
    difference. *)
Theorem dist2bbox_defaults (w : world R) (distance anchor_points : handle) (n : nat) :
  valid w distance -> t_shape distance = [n; 4] ->
  valid w anchor_points -> t_shape anchor_points = [n; 2] ->
  wp (dist2bbox distance anchor_points true (-1)) w (fun y w' =>
    t_shape y = [n; 4]
    /\ forall j, j < n ->
         let ax := hget w anchor_points [j; 0] in
         let ay := hget w anchor_points [j; 1] in
         let left := hget w distance [j; 0] in
         let top := hget w distance [j; 1] in
         let right := hget w distance [j; 2] in
         let bottom := hget w distance [j; 3] in
         let x1 := (ax - left)%R in
         let y1 := (ay - top)%R in
         let x2 := (ax + right)%R in
         let y2 := (ay + bottom)%R in
         let cx := hget w' y [j; 0] in
         let cy := hget w' y [j; 1] in
         let bw := hget w' y [j; 2] in
         let bh := hget w' y [j; 3] in
         (cx = (x1 + x2) / 2 /\ cy = (y1 + y2) / 2 /\ bw = x2 - x1 /\ bh = y2 - y1)%R).
Proof.
  intros Hvd Hsd Hva Hsa.
  pose proof (holds_self Hvd) as Hd. rewrite Hsd in Hd.
  pose proof (holds_self Hva) as Ha. rewrite Hsa in Ha.
  eapply wp_mono; [apply dist2bbox_last_wp with (1 := Hd) (2 := Ha)|].
  intros y w' [_ [_ [_ [Hs Hy]]]]. split; [exact Hs|].
  intros j Hj. cbv zeta. rewrite !Hy by (simpl; lia).
  unfold box_coord. simpl. replace (1 + 1)%R with 2%R by ring. repeat split.
Qed.

Lemma dist2bbox_defaults_witness :
  wp (dist2bbox distance_rows anchor_rows true (-1)) w_scenario (fun y w' =>
    t_shape y = [1; 4]
    /\ forall j, j < 1 ->
         let cx := hget w' y [j; 0] in
         let cy := hget w' y [j; 1] in
         let bw := hget w' y [j; 2] in
         let bh := hget w' y [j; 3] in
         (cx = 10 /\ cy = 10 /\ bw = 4 /\ bh = 4)%R).
Proof.
  eapply wp_mono.
  - apply (@dist2bbox_defaults w_scenario distance_rows anchor_rows 1);
      try reflexivity; split; simpl; try lia; reflexivity.
  - intros y w' [Hs Hy]. split; [exact Hs|].
    intros j Hj. destruct (Hy j Hj) as [H0 [H1 [H2 H3]]]. cbv zeta.
    assert (j = 0) by lia. subst j.
    rewrite H0, H1, H2, H3. cbn. repeat split; lra.
Defined.

(** A distance tensor with three entries for an anchor instead of four
    is accepted: the third entry is taken for the right and for the
    bottom distance. *)
Theorem dist2bbox_three_entries (w : world R) (distance anchor_points : handle)
        (b a : nat) :
  valid w distance -> t_shape distance = [b; 3; a] ->
  valid w anchor_points -> t_shape anchor_points = [1; 2; a] ->
  wp (dist2bbox distance anchor_points false 1) w (fun y w' =>
    t_shape y = [b; 4; a]
    /\ forall i j, i < b -> j < a ->
         let ax := hget w anchor_points [0; 0; j] in
         let ay := hget w anchor_points [0; 1; j] in
         let left := hget w distance [i; 0; j] in
         let top := hget w distance [i; 1; j] in
         let third := hget w distance [i; 2; j] in
         let x1 := hget w' y [i; 0; j] in
         let y1 := hget w' y [i; 1; j] in
         let x2 := hget w' y [i; 2; j] in
         let y2 := hget w' y [i; 3; j] in
         (x1 = ax - left /\ y1 = ay - top /\ x2 = ax + third /\ y2 = ay + third)%R).
Proof.
  intros Hvd Hsd Hva Hsa.
  pose proof (holds_self Hvd) as Hd. rewrite Hsd in Hd.
  pose proof (holds_self Hva) as Ha. rewrite Hsa in Ha.
  eapply wp_mono; [apply dist2bbox_three_wp with (1 := Hd) (2 := Ha)|].
  intros y w' [_ [_ [_ [Hs Hy]]]]. split; [exact Hs|].
  intros i j Hi Hj. cbv zeta. rewrite !Hy by (simpl; lia).
  unfold box_coord. simpl. repeat split.
Qed.

Lemma dist2bbox_three_entries_witness :
  wp (dist2bbox distance_three (mkH 1 (mkT [1; 2; 1] [0; 1])) false 1) w_scenario
     (fun y w' =>
        t_shape y = [1; 4; 1]
        /\ forall i j, i < 1 -> j < 1 ->
             let x1 := hget w' y [i; 0; j] in
             let y1 := hget w' y [i; 1; j] in
             let x2 := hget w' y [i; 2; j] in
             let y2 := hget w' y [i; 3; j] in
             (x1 = 8 /\ y1 = 8 /\ x2 = 12 /\ y2 = 12)%R).
Proof.
  eapply wp_mono.
  - apply (@dist2bbox_three_entries w_scenario distance_three
             (mkH 1 (mkT [1; 2; 1] [0; 1])) 1 1);
      try reflexivity; split; simpl; try lia; reflexivity.
  - intros y w' [Hs Hy]. split; [exact Hs|].
    intros i j Hi Hj. destruct (Hy i j Hi Hj) as [H0 [H1 [H2 H3]]]. cbv zeta.
    assert (i = 0) by lia. assert (j = 0) by lia. subst i j.
    rewrite H0, H1, H2, H3. cbn. repeat split; lra.
Defined.




(** ** What [post_process] returns: ranges, memory, dependencies *)

Lemma sigmoid_range (x : R) : (0 <= sigmoid x <= 1)%R.
Proof.
  unfold sigmoid. simpl.
  pose proof (exp_pos (- x)) as He.
  assert (H1 : (0 < 1 + exp (- x))%R) by lra.
  split.
  - apply Rlt_le. apply Rdiv_lt_0_compat; lra.
  - apply Rmult_le_reg_r with (1 + exp (- x))%R; [exact H1|].
    unfold Rdiv. rewrite Rmult_assoc, Rinv_l by lra. lra.
Qed.





(** The class scores of [post_process] lie between 0 and 1. *)
Theorem post_process_scores_range (w : world R) (x : list handle) (b : nat)
        (an st : tensor R) :
  decodable w x b an st ->
  wp (post_process x) w (fun r w' =>
    forall i c j, i < b -> c < 80 -> j < slots b x ->
      let score := hget w' (fst r) [i; 4 + c; j] in
      (0 <= score <= 1)%R).
Proof.
  intros Hpre.
  eapply wp_mono; [apply post_process_decodable_wp; exact Hpre|].
  intros r w' [_ [_ [_ [_ Hy]]]] i c j Hi Hc Hj. cbv zeta.
  rewrite Hy by (simpl; lia). unfold fused.
  replace (4 + c <? 4) with false by (symmetry; apply Nat.ltb_ge; lia).
  apply sigmoid_range.
Qed.

Lemma post_process_scores_range_witness :
  wp (post_process [x_frame]) w_frame (fun r w' =>
    forall i c j, i < 1 -> c < 80 -> j < slots 1 [x_frame] ->
      let score := hget w' (fst r) [i; 4 + c; j] in
      (0 <= score <= 1)%R).
Proof.
  apply (@post_process_scores_range w_frame [x_frame] 1
           (mkT [2; 1] [10; 10]%R) (mkT [1; 1] [32]%R)).
  decodable_example x_frame.
Defined.

Section AllocationFacts.
Context {A : Type} {SA : Scalar A}.

Lemma allocates_bind {X Y} (proj : Y -> handle) (m : T A X) (f : X -> T A Y) :
  frames m -> (forall x, allocates proj (f x)) -> allocates proj (bind m f).
Proof.
  intros Hm Hf w. unfold bind. specialize (Hm w).
  destruct (m w) as [[x|e] w1]; simpl in Hm; [|exact I].
  specialize (Hf x w1). destruct (fst (f x w1)); [|exact I].
  destruct Hm as [[l Hl] _]. rewrite Hl, length_app in Hf. lia.
Qed.

Lemma allocates_alloc_opt (e : exn) (v : option (tensor A)) :
  allocates (fun h => h) (alloc_opt e v).
Proof. intros w. destruct v; simpl; [lia|exact I]. Qed.

Lemma allocates_t_cat (hs : list handle) (d : Z) : allocates (fun h => h) (t_cat hs d).
Proof.
  unfold t_cat. destruct hs as [|h0 hs]; [intros w; exact I|].
  destruct (norm_dim _ d); [|intros w; exact I].
  apply allocates_bind; [apply frames_mapM; apply frames_read|].
  intros vs. apply allocates_alloc_opt.
Qed.

Lemma allocates_post_process (x : list handle) :
  allocates (fun r => fst r) (post_process x).
Proof.
  unfold post_process, torch_tensor, t_mul.
  do 14 (apply allocates_bind;
          [repeat first [ apply frames_DFL_forward | apply frames_dist2bbox | frames_step ]
          |intros;
           try match goal with
               | |- allocates _ (match ?p with (_, _) => _ end) => destruct p
               end]).
  match goal with
  | |- allocates _ (bind (t_cat ?l ?d) _) =>
      intros w; pose proof (allocates_t_cat l d w) as H;
      unfold bind; destruct (t_cat l d w) as [[y|e] w']; [exact H|exact I]
  end.
Qed.

Lemma returns_contiguous_post_process (x : list handle) :
  returns (fun r => contiguous (fst r)) (post_process x).
Proof.
  unfold post_process.
  do 14 (apply returns_bind; intros;
          try match goal with
              | |- returns _ (match ?p with (_, _) => _ end) => destruct p
              end).
  match goal with
  | |- returns _ (bind (t_cat ?l ?d) _) =>
      intros w; pose proof (returns_t_cat l d w) as H;
      unfold bind; destruct (t_cat l d w) as [[y|e] w']; [exact H|exact I]
  end.
Qed.

End AllocationFacts.

(** The fused tensor of [post_process] is contiguous and lies in a
    buffer that the call has allocated: it shares no memory with the raw
    tensors, which the call returns beside it. *)
Theorem post_process_result_fresh {A : Type} {SA : Scalar A} (w : world A)
        (x : list handle) (b : nat) (an st : tensor A) :
  decodable w x b an st ->
  wp (post_process x) w (fun r w' =>
    contiguous (fst r)
    /\ length (heap w) <= buf (fst r) < length (heap w')
    /\ Forall (fun xi => buf xi <> buf (fst r)) (snd r)).
Proof.
  intros Hpre.
  destruct (post_process_decodable_wp Hpre) as [r [w' [Hrun [_ [Hr [[Hb _] _]]]]]].
  exists r, w'. split; [exact Hrun|].
  pose proof (returns_contiguous_post_process x w) as Hc.
  pose proof (allocates_post_process x w) as Ha.
  rewrite Hrun in Hc, Ha. cbn [fst] in Hc, Ha.
  split; [exact Hc|]. split; [lia|].
  rewrite Hr. destruct Hpre as [[_ [_ [Hv _]]] _].
  eapply Forall_impl; [|exact Hv]. intros xi [Hxi _]. lia.
Qed.

Lemma post_process_result_fresh_witness :
  wp (post_process [x_frame]) w_frame (fun r w' =>
    contiguous (fst r)
    /\ length (heap w_frame) <= buf (fst r) < length (heap w')
    /\ Forall (fun xi => buf xi <> buf (fst r)) (snd r)).
Proof.
  apply (@post_process_result_fresh R _ w_frame [x_frame] 1
           (mkT [2; 1] [10; 10]%R) (mkT [1; 1] [32]%R)).
  decodable_example x_frame.
Defined.

(** The fused tensor is a function of the contents of the raw tensors
    and of the two tables: runs from two states that agree on these
    return the same tensor, whatever the random generator and the rest
    of the memory hold. *)
Theorem post_process_ignores_generator {A : Type} {SA : Scalar A} (w w' : world A)
        (x : list handle) (b : nat) (an st : tensor A) :
  decodable w x b an st ->
  decodable w' x b an st ->
  map (hval w') x = map (hval w) x ->
  wp (post_process x) w (fun r1 w1 =>
    wp (post_process x) w' (fun r2 w2 =>
      hval w2 (fst r2) = hval w1 (fst r1))).
Proof.
  intros Hpre Hpre' Heq.
  eapply wp_mono; [apply post_process_decodable_wp; exact Hpre|].
  intros r1 w1 [_ [_ H1]]. cbv beta.
  eapply wp_mono; [apply post_process_decodable_wp; exact Hpre'|].
  intros r2 w2 [_ [_ H2]]. cbv beta.
  rewrite (holds_hval H1), (holds_hval H2).
  unfold raw_pred. now rewrite (@raw_parts_same _ _ w w' b x Heq).
Qed.

Lemma post_process_ignores_generator_witness :
  wp (post_process [x_frame]) w_frame (fun r1 w1 =>
    wp (post_process [x_frame]) w_frame_other (fun r2 w2 =>
      hval w2 (fst r2) = hval w1 (fst r1))).
Proof.
  apply (@post_process_ignores_generator R _ w_frame w_frame_other [x_frame] 1
           (mkT [2; 1] [10; 10]%R) (mkT [1; 1] [32]%R)).
  - decodable_example x_frame.
  - decodable_example x_frame.
  - reflexivity.
Defined.



(** ** Tables with a single entry *)

Lemma bshape_last1 (b a : nat) : bshape [1; 2; 1] [b; 2; a] = Some [b; 2; a].
Proof.
  unfold bshape, pad. cbn [length Nat.max Nat.sub repeat app bzip Nat.eqb option_map].
  destruct b as [|[|b]]; destruct a as [|[|a]]; reflexivity.
Qed.

Lemma bidx_last1 (i k j : nat) : bidx [1; 2; 1] [i; k; j] = [0; k; 0].
Proof. reflexivity. Qed.

Lemma bshape_one_stride (b a : nat) : bshape [b; 4; a] [1; 1] = Some [b; 4; a].
Proof.
  unfold bshape, pad. cbn [length Nat.max Nat.sub repeat app bzip Nat.eqb option_map].
  destruct b as [|[|b]]; destruct a as [|[|a]]; reflexivity.
Qed.

Lemma bidx_one_stride (i k j : nat) : bidx [1; 1] [i; k; j] = [0; 0].
Proof. reflexivity. Qed.

Section SingleEntryFacts.
Context {A : Type} {SA : Scalar A}.

(** [dist2bbox] with one anchor point for all the anchors. *)
Lemma dist2bbox_single_wp (w : world A) (d ap : handle) b a fd fa :
  holds w d [b; 4; a] fd ->
  holds w ap [1; 2; 1] fa ->
  wp (dist2bbox d ap true 1) w (fun y w' =>
    ext w w' /\ rng w' = rng w
    /\ holds w' y [b; 4; a] (fun idx =>
         match idx with
         | [i; k; j] =>
             box_coord true (fa [0; 0; 0]) (fa [0; 1; 0])
                       (fd [i; 0; j]) (fd [i; 1; j]) (fd [i; 2; j]) (fd [i; 3; j]) k
         | _ => s_zero
         end)).
Proof.
  intros Hd Hap. unfold dist2bbox.
  apply wp_bind. eapply wp_mono.
  { apply t_split2_wp with (1 := Hd) (dim := 1); reflexivity. }
  intros parts w0 [-> [lt [rb [-> [_ [_ [Hlt Hrb]]]]]]]. cbv beta.
  change (upd 1 2 [b; 4; a]) with [b; 2; a] in Hlt, Hrb.
  unfold unpack2. apply wp_bind, wp_ret.
  apply wp_bind. eapply wp_mono.
  { apply t_binop_wp with (1 := Hap) (2 := Hlt). apply bshape_last1. }
  intros x1y1 w1 [E1 [R1 H1]]. cbv beta.
  apply holds_eq with
    (g := fun idx => match idx with
                     | [i; k; j] => s_sub (fa [0; k; 0]) (fd [i; k; j])
                     | _ => s_zero
                     end) in H1.
  2:{ intros idx Hi. destruct idx as [|i [|k [|j [|? ?]]]]; simpl in Hi; try tauto.
      rewrite bidx_last1, bidx_same by (simpl; tauto). reflexivity. }
  apply wp_bind. eapply wp_mono.
  { apply t_binop_wp with (1 := holds_ext E1 Hap) (2 := holds_ext E1 Hrb).
    apply bshape_last1. }
  intros x2y2 w2 [E2 [R2 H2]]. cbv beta.
  apply holds_eq with
    (g := fun idx => match idx with
                     | [i; k; j] => s_add (fa [0; k; 0]) (fd [i; 2 + k; j])
                     | _ => s_zero
                     end) in H2.
  2:{ intros idx Hi. destruct idx as [|i [|k [|j [|? ?]]]]; simpl in Hi; try tauto.
      rewrite bidx_last1, bidx_same by (simpl; tauto). reflexivity. }
  pose proof (holds_ext E2 H1) as H1'.
  apply wp_bind. eapply wp_mono.
  { apply t_binop_wp with (1 := H1') (2 := H2). apply bshape_same. }
  intros sm w3 [E3 [R3 H3]]. cbv beta.
  apply wp_bind. eapply wp_mono.
  { apply t_div_scalar_wp with (1 := H3). }
  intros cxy w4 [E4 [R4 H4]]. cbv beta.
  pose proof (ext_trans E3 E4) as E34.
  apply wp_bind. eapply wp_mono.
  { apply t_binop_wp with (1 := holds_ext E34 H2) (2 := holds_ext E34 H1').
    apply bshape_same. }
  intros wh w5 [E5 [R5 H5]]. cbv beta.
  eapply wp_mono.
  { match type of H5 with
    | holds _ _ _ ?f => apply t_cat_wp with (dim := 1) (parts := [([b; 2; a], f)])
    end.
    - constructor; [exact (holds_ext E5 H4)|]. constructor; [exact H5|constructor].
    - reflexivity.
    - repeat constructor. }
  intros y w6 [E6 [R6 H6]]. cbv beta.
  split; [eauto using ext_trans|]. split; [congruence|].
  apply holds_eq_shape with (1 := H6); [reflexivity|].
  intros idx Hi. destruct idx as [|i [|k [|j [|? ?]]]]; simpl in Hi; try tauto.
  destruct Hi as [Hi [Hk [Hj _]]].
  destruct k as [|[|[|[|k]]]]; try lia;
    cbn [cat_fun nth fst snd Nat.ltb Nat.leb Nat.sub upd box_coord];
    rewrite !bidx_same by (simpl; lia); reflexivity.
Qed.

End SingleEntryFacts.

(** Tables with a single entry are accepted, whatever the number of
    slots: [post_process] returns, and the box of every slot is
    assembled around the one anchor point and scaled by the one
    stride. *)
Theorem post_process_single_entry_tables {A : Type} {SA : Scalar A} (w : world A)
        (x : list handle) (b : nat) (an st : tensor A) :
  regroupable w x b ->
  fs w "./anchors.npy" = Some an -> wf an -> shape an = [2; 1] ->
  fs w "./strides.npy" = Some st -> wf st -> shape st = [1; 1] ->
  wp (post_process x) w (fun r w' =>
    t_shape (fst r) = [b; 84; slots b x]
    /\ forall i k j, i < b -> k < 4 -> j < slots b x ->
         hget w' (fst r) [i; k; j]
         = s_mul (box_coord true (geta an [0; 0]) (geta an [1; 0])
                            (expected_bin (side_logits (raw_pred w b x) i 0 j))
                            (expected_bin (side_logits (raw_pred w b x) i 1 j))
                            (expected_bin (side_logits (raw_pred w b x) i 2 j))
                            (expected_bin (side_logits (raw_pred w b x) i 3 j)) k)
                 (geta st [0; 0])).
Proof.
  intros [[x0 [Hx0 Hb0]] [Hb [Hv [Hd [Hvw HA]]]]] Han Hanwf Hans Hst Hstwf Hsts.
  apply wp_of_outcome.
  apply post_process_prefix with (x0 := x0) (b := b) (na := 1) (an := an) (st := st);
    try assumption.
  intros w5 d au strides cls E05 Hdd Hau Hs Hcls. rewrite Hsts in Hs.
  apply outcome_of_wp.
  set (n := slots b x) in *.
  apply wp_bind. eapply wp_mono; [apply dist2bbox_single_wp with (1 := Hdd) (2 := Hau)|].
  intros db w6 [E6 [_ Hdb]]. cbv beta.
  apply wp_bind. eapply wp_mono.
  { apply t_binop_wp with (1 := Hdb) (2 := holds_ext E6 Hs). apply bshape_one_stride. }
  intros dbox w7 [E7 [_ Hdbox]]. cbv beta.
  pose proof (ext_trans E6 E7) as E57.
  apply wp_bind. eapply wp_mono; [apply t_sigmoid_wp with (1 := holds_ext E57 Hcls)|].
  intros sg w8 [E8 [_ Hsg]]. cbv beta.
  apply wp_bind. eapply wp_mono.
  { match type of Hsg with
    | holds _ _ _ ?f => apply t_cat_wp with (dim := 1) (parts := [([b; 80; n], f)])
    end.
    - constructor; [exact (holds_ext E8 Hdbox)|]. constructor; [exact Hsg|constructor].
    - reflexivity.
    - repeat constructor. }
  intros y w9 [E9 [_ Hy]]. cbv beta. apply wp_ret. cbn [fst].
  destruct Hy as [_ [Hsy Hy]]. split; [exact Hsy|].
  intros i k j Hi Hk Hj.
  rewrite Hy by (change (inb [b; 84; n] [i; k; j]); simpl; lia).
  cbn [cat_fun nth fst snd].
  replace (k <? 4) with true by (symmetry; now apply Nat.ltb_lt).
  rewrite bidx_same by (simpl; lia). rewrite bidx_one_stride. reflexivity.
Qed.

Lemma post_process_single_entry_tables_witness :
  wp (post_process [x_two_slots]) w_single_tables (fun r w' =>
    t_shape (fst r) = [1; 84; 2]
    /\ forall i k j, i < 1 -> k < 4 -> j < 2 ->
         hget w' (fst r) [i; k; j]
         = s_mul (box_coord true 10%R 10%R
                    (expected_bin (side_logits (raw_pred w_single_tables 1 [x_two_slots]) i 0 j))
                    (expected_bin (side_logits (raw_pred w_single_tables 1 [x_two_slots]) i 1 j))
                    (expected_bin (side_logits (raw_pred w_single_tables 1 [x_two_slots]) i 2 j))
                    (expected_bin (side_logits (raw_pred w_single_tables 1 [x_two_slots]) i 3 j))
                    k)
                 32%R).
Proof.
  apply (@post_process_single_entry_tables R _ w_single_tables [x_two_slots] 1
           (mkT [2; 1] [10; 10]%R) (mkT [1; 1] [32]%R)); try reflexivity.
  regroupable_example x_two_slots.
Defined.

(** ** More on [DFL] *)

Lemma is_strided_empty (s offs : list nat) : numel s = 0 -> is_strided s offs = true.
Proof.
  intros H. unfold is_strided.
  assert (E : indices s = []).
  { apply length_zero_iff_nil. now rewrite length_indices. }
  now rewrite E.
Qed.

Section EmptyFacts.
Context {A : Type} {SA : Scalar A}.

Lemma Conv2d_call_small (w : world A) (self : Conv2d) (x : handle)
      co ci kh kw fw n hh ww fx :
  holds w (weight self) [co; ci; kh; kw] fw ->
  holds w x [n; ci; hh; ww] fx ->
  hh < kh \/ ww < kw ->
  raises (Conv2d_call self x) w (RuntimeError "conv2d: bad input shape").
Proof.
  intros [_ [Hsw _]] [_ [Hsx _]] Hk. unfold Conv2d_call.
  apply raises_bind_r. eexists. eexists. split; [reflexivity|].
  apply raises_bind_r. eexists. eexists. split; [reflexivity|].
  unfold conv2d_val. rewrite !shape_hval, Hsw, Hsx.
  rewrite Nat.eqb_refl. cbn [andb].
  replace ((kh <=? hh) && (kw <=? ww)) with false.
  - now exists w.
  - symmetry. apply andb_false_iff.
    destruct Hk; [left|right]; apply Nat.leb_gt; assumption.
Qed.

(** [forward] on a tensor without anchors. *)
Lemma DFL_forward_no_anchor_raises (w : world A) (self : DFL) (x : handle) b f :
  c1 self = 16 ->
  holds w (weight (conv self)) [1; 16; 1; 1] (fun idx => s_of_nat (nth 1 idx 0)) ->
  holds w x [b; 64; 0] f ->
  raises (DFL_forward self x) w (RuntimeError "conv2d: bad input shape").
Proof.
  intros Hc Hw Hx. pose proof Hx as [_ [Hsx _]].
  unfold DFL_forward. rewrite Hsx, Hc.
  unfold unpack3. apply raises_bind_r, wp_ret.
  apply raises_bind_r.
  eapply wp_mono.
  { change [Z.of_nat b; 4; Z.of_nat 16; Z.of_nat 0]%Z with (map Z.of_nat [b; 4; 16; 0]).
    apply t_view_wp with (1 := Hx)
      (g := fun idx => match idx with [i; s; k; j] => f [i; 16 * s + k; j] | _ => s_zero end).
    - apply view_shape_nat. simpl. lia.
    - apply is_strided_empty. simpl. lia.
    - simpl. lia.
    - intros idx Hi. destruct idx as [|i [|s [|k [|j [|? ?]]]]]; simpl in Hi; try tauto. lia. }
  intros v w0 [-> [Hv _]]. cbv beta.
  apply raises_bind_r. eapply wp_mono.
  { apply t_transpose_wp with (1 := Hv) (n1 := 2) (n2 := 1); reflexivity. }
  intros t w0 [-> [_ Ht]]. cbv beta.
  change (swap 2 1 [b; 4; 16; 0]) with [b; 16; 4; 0] in Ht.
  apply raises_bind_r. eapply wp_mono.
  { apply t_softmax_wp with (1 := Ht) (n := 1). reflexivity. }
  intros sm w1 [E1 [R1 Hsm]]. cbv beta.
  apply raises_bind_l.
  apply Conv2d_call_small with (1 := holds_ext E1 Hw) (2 := Hsm). right. lia.
Qed.

End EmptyFacts.

(** [DFL(16)] on a tensor of shape [b, 64, 0]: the views and the softmax
    go through, and the convolution refuses an input that has no
    column. *)
Theorem DFL_forward_no_anchor {A : Type} {SA : Scalar A} (w : world A) (x : handle)
        (b : nat) :
  valid w x -> t_shape x = [b; 64; 0] ->
  raises (dfl <- DFL_init 16 ;; DFL_forward dfl x) w
         (RuntimeError "conv2d: bad input shape").
Proof.
  intros Hv Hs.
  apply raises_bind_r. eapply wp_mono; [apply DFL_init_wp|].
  intros dfl w1 [E1 [Hc Hw]]. cbv beta.
  pose proof (holds_self Hv) as Hx. rewrite Hs in Hx.
  now apply DFL_forward_no_anchor_raises with (3 := holds_ext E1 Hx).
Qed.

Lemma DFL_forward_no_anchor_witness :
  raises (dfl <- DFL_init 16 ;; DFL_forward dfl x_no_anchor) w_zeros
         (RuntimeError "conv2d: bad input shape").
Proof.
  apply (@DFL_forward_no_anchor R _ w_zeros x_no_anchor 2).
  - split; [simpl; lia|reflexivity].
  - reflexivity.
Defined.

(** [DFL(n)]: the weights of the convolution are the bin indices
    0 .. n-1, whatever values the random initialisation of [nn.Conv2d]
    gave them; nothing that was in memory is changed. *)
Theorem DFL_init_weights {A : Type} {SA : Scalar A} (w : world A) (n : nat) :
  0 < n ->
  wp (DFL_init n) w (fun dfl w' =>
    c1 dfl = n
    /\ t_shape (weight (conv dfl)) = [1; n; 1; 1]
    /\ (forall k, k < n -> hget w' (weight (conv dfl)) [0; k; 0; 0] = s_of_nat k)
    /\ firstn (length (heap w)) (heap w') = heap w).
Proof.
  intros _.
  eapply wp_mono; [apply DFL_init_wp|].
  intros dfl w' [[[l Hl] _] [Hc [_ [Hs Hf]]]].
  split; [exact Hc|]. split; [exact Hs|]. split.
  - intros k Hk. now rewrite Hf by (simpl; lia).
  - rewrite Hl, firstn_app, Nat.sub_diag, firstn_all. simpl. apply app_nil_r.
Qed.

Lemma DFL_init_weights_witness :
  wp (DFL_init 16) w_shifted (fun dfl w' =>
    c1 dfl = 16
    /\ t_shape (weight (conv dfl)) = [1; 16; 1; 1]
    /\ (forall k, k < 16 -> hget w' (weight (conv dfl)) [0; k; 0; 0] = s_of_nat k)
    /\ firstn (length (heap w_shifted)) (heap w') = heap w_shifted).
Proof.
  apply (@DFL_init_weights R _ w_shifted 16). lia.
Defined.

Lemma indices_n11 (n : nat) : indices [n; 1; 1] = map (fun k => [k; 0; 0]) (seq 0 n).
Proof.
  change (indices [n; 1; 1])
    with (flat_map (fun i => map (cons i) [[0; 0]]) (seq 0 n)).
  induction (seq 0 n) as [|k l IH]; [reflexivity|].
  simpl. rewrite <- IH. reflexivity.
Qed.

Section ForwardAnyFacts.
Context {A : Type} {SA : Scalar A}.

Lemma DFL_forward_any_wp (w : world A) (self : DFL) (x : handle) n b a f :
  c1 self = n ->
  holds w (weight (conv self)) [1; n; 1; 1] (fun idx => s_of_nat (nth 1 idx 0)) ->
  holds w x [b; 4 * n; a] f ->
  viewable x [b; 4; n; a] ->
  0 < a ->
  wp (DFL_forward self x) w (fun y w' =>
    ext w w' /\ rng w' = rng w
    /\ holds w' y [b; 4; a] (fun idx =>
         match idx with
         | [i; s; j] => expected_bin (bin_logits n f i s j)
         | _ => s_zero
         end)).
Proof.
  intros Hc Hw Hx Hxv Ha. pose proof Hx as [_ [Hsx _]].
  unfold DFL_forward. rewrite Hsx, Hc.
  unfold unpack3. apply wp_bind, wp_ret.
  assert (Hnum : numel [b; 4; n; a] = numel [b; 4 * n; a]) by (simpl; lia).
  apply wp_bind.
  eapply wp_mono.
  { change [Z.of_nat b; 4; Z.of_nat n; Z.of_nat a]%Z with (map Z.of_nat [b; 4; n; a]).
    apply t_view_wp with (1 := Hx)
      (g := fun idx => match idx with [i; s; k; j] => f [i; n * s + k; j] | _ => s_zero end).
    - apply view_shape_nat. exact Hnum.
    - exact Hxv.
    - exact Hnum.
    - intros idx Hi. destruct idx as [|i [|s [|k [|j [|? ?]]]]]; simpl in Hi; try tauto.
      exists [i; n * s + k; j]. split; [simpl; nia|]. split; [simpl; nia|reflexivity]. }
  intros v w0 [-> [Hv _]]. cbv beta.
  apply wp_bind. eapply wp_mono.
  { apply t_transpose_wp with (1 := Hv) (n1 := 2) (n2 := 1); reflexivity. }
  intros t w0 [-> [_ Ht]]. cbv beta.
  change (swap 2 1 [b; 4; n; a]) with [b; n; 4; a] in Ht.
  apply wp_bind. eapply wp_mono.
  { apply t_softmax_wp with (1 := Ht) (n := 1). reflexivity. }
  intros sm w1 [E1 [R1 Hsm]]. cbv beta. cbn [nth] in Hsm.
  apply wp_bind. eapply wp_mono.
  { apply wp_returns; [|apply returns_Conv2d_call].
    apply Conv2d_call_wp with (2 := Hsm) (1 := holds_ext E1 Hw). all: lia. }
  intros o w2 [[E2 [R2 Ho]] Hoc]. cbv beta.
  replace (a - 1 + 1) with a in Ho by lia. change (4 - 1 + 1) with 4 in Ho.
  assert (Hov : viewable o [b; 4; a]).
  { unfold viewable. rewrite Hoc. apply contiguous_strided.
    destruct Ho as [_ [-> _]]. simpl. lia. }
  eapply wp_mono.
  { change [Z.of_nat b; 4; Z.of_nat a]%Z with (map Z.of_nat [b; 4; a]).
    apply t_view_wp with (1 := Ho)
      (g := fun idx => match idx with
                       | [i; s; j] => expected_bin (bin_logits n f i s j)
                       | _ => s_zero
                       end).
    - apply view_shape_nat. simpl. lia.
    - exact Hov.
    - simpl. lia.
    - intros idx Hi. destruct idx as [|i [|s [|j [|? ?]]]]; simpl in Hi; try tauto.
      exists [i; 0; s; j]. split; [simpl; lia|]. split; [simpl; lia|].
      unfold bin_logits. rewrite expected_bin_seq.
      rewrite indices_n11, map_map. cbv beta iota.
      apply f_equal. apply map_ext_in. intros k Hk.
      cbn [swap upd nth]. rewrite !Nat.add_0_r. reflexivity. }
  intros y w3 [-> [Hy _]]. cbv beta.
  split; [eapply ext_trans; eassumption|]. split; [congruence|]. exact Hy.
Qed.

End ForwardAnyFacts.

(** [DFL(n)], for any number [n] of bins: on a tensor of shape
    [b, 4 * n, a], channel [n * s + k] of which holds the logit of bin
    [k] of side [s], [forward] returns the tensor of shape [b, 4, a] of
    the expected bin indices: the dot product of the softmax of the [n]
    logits of a side with 0, 1, ..., n - 1. *)
Theorem DFL_any_bins {A : Type} {SA : Scalar A} (w : world A) (x : handle)
        (n b a : nat) :
  0 < n ->
  valid w x -> t_shape x = [b; 4 * n; a] -> viewable x [b; 4; n; a] -> 0 < a ->
  wp (dfl <- DFL_init n ;; DFL_forward dfl x) w (fun y w' =>
    t_shape y = [b; 4; a]
    /\ forall i s j, i < b -> s < 4 -> j < a ->
         hget w' y [i; s; j]
         = dot (softmax_list (map (fun k => hget w x [i; n * s + k; j]) (seq 0 n)))
               (map s_of_nat (seq 0 n))).
Proof.
  intros _ Hv Hs Hvw Ha.
  apply wp_bind. eapply wp_mono; [apply DFL_init_wp|].
  intros dfl w1 [E1 [Hc Hw]]. cbv beta.
  pose proof (holds_self Hv) as Hx. rewrite Hs in Hx.
  eapply wp_mono; [apply DFL_forward_any_wp with (3 := holds_ext E1 Hx); eassumption|].
  intros y w2 [_ [_ [_ [Hsy Hy]]]]. split; [exact Hsy|].
  intros i s j Hi Hss Hj. rewrite Hy by (simpl; lia).
  unfold expected_bin, bin_logits. now rewrite length_map, length_seq.
Qed.

Lemma DFL_any_bins_witness :
  wp (dfl <- DFL_init 2 ;; DFL_forward dfl x_two_bins) w_zeros (fun y w' =>
    t_shape y = [1; 4; 1]
    /\ forall i s j, i < 1 -> s < 4 -> j < 1 ->
         hget w' y [i; s; j]
         = dot (softmax_list (map (fun k => hget w_zeros x_two_bins [i; 2 * s + k; j])
                                  (seq 0 2)))
               (map s_of_nat (seq 0 2))).
Proof.
  apply (@DFL_any_bins R _ w_zeros x_two_bins 2 1 1).
  - lia.
  - split; [simpl; lia|reflexivity].
  - reflexivity.
  - reflexivity.
  - lia.
Defined.

Lemma expected_bin_flat (c : R) :
  expected_bin (map (fun _ : nat => c) (seq 0 16)) = 7.5%R.
Proof.
  replace (map (fun _ : nat => c) (seq 0 16))
    with (map (fun v => (v + c)%R) (map (fun _ : nat => 0%R) (seq 0 16))).
  - rewrite expected_bin_shift. unfold expected_bin, dot, softmax_list. simpl.
    rewrite exp_0. lra.
  - rewrite map_map. apply map_ext. intros. lra.
Qed.

(** When the 16 logits of a side of an anchor are equal, the distance
    decoded for it is 7.5, the mean of the bin indices. *)
Theorem DFL_forward_flat (w : world R) (x : handle) (b a : nat) (i s j : nat) (c : R) :
  valid w x -> t_shape x = [b; 64; a] -> viewable x [b; 4; 16; a] -> 0 < a ->
  i < b -> s < 4 -> j < a ->
  (forall k, k < 16 -> hget w x [i; 16 * s + k; j] = c) ->
  wp (dfl <- DFL_init 16 ;; DFL_forward dfl x) w (fun y w' =>
    hget w' y [i; s; j] = 7.5%R).
Proof.
  intros Hv Hs Hvw Ha Hi Hss Hj Hflat.
  eapply wp_mono; [apply DFL_decode_wp; eassumption|].
  intros y w' [_ [_ [_ Hy]]]. rewrite Hy by (simpl; lia).
  unfold side_logits. rewrite <- (expected_bin_flat c). f_equal.
  apply map_ext_in. intros k Hk. apply in_seq in Hk. apply Hflat. lia.
Qed.

Lemma DFL_forward_flat_witness :
  wp (dfl <- DFL_init 16 ;; DFL_forward dfl x_one_anchor) w_zeros (fun y w' =>
    hget w' y [0; 2; 0] = 7.5%R).
Proof.
  apply (@DFL_forward_flat w_zeros x_one_anchor 1 1 0 2 0 0%R); try lia; try reflexivity.
  - split; [simpl; lia|reflexivity].
  - intros k Hk. do 16 (destruct k as [|k]; [reflexivity|]). lia.
Defined.

(** ** Infinite logits *)

Lemma x_exp_not_ninf (a : xreal) : x_exp a <> NInf.
Proof. destruct a; discriminate. Qed.

Lemma ssum_not_ninf (l : list xreal) : Forall (fun a => a <> NInf) l -> ssum l <> NInf.
Proof.
  induction 1 as [|a l Ha _ IH]; [discriminate|].
  change (x_add a (ssum l) <> NInf).
  destruct a; try congruence; destruct (ssum l); try congruence; discriminate.
Qed.

Lemma ssum_pinf (l : list xreal) :
  Forall (fun a => a <> NInf) l -> In PInf l -> ssum l = PInf \/ ssum l = NaN.
Proof.
  induction 1 as [|a l Ha HF IH]; intros Hin; [contradiction|].
  change (x_add a (ssum l) = PInf \/ x_add a (ssum l) = NaN).
  pose proof (ssum_not_ninf HF) as Hs.
  destruct Hin as [->|Hin].
  - destruct (ssum l); try congruence; auto.
  - destruct (IH Hin) as [E|E]; rewrite E; destruct a; try congruence; auto.
Qed.

Lemma expected_bin_pinf (l : list xreal) : In PInf l -> expected_bin l = NaN.
Proof.
  intros Hin. unfold expected_bin, dot.
  apply ssum_nan. apply in_map_iff.
  assert (Hs : ssum (map s_exp l) = PInf \/ ssum (map s_exp l) = NaN).
  { apply ssum_pinf.
    - apply Forall_forall. intros a Ha. apply in_map_iff in Ha.
      destruct Ha as [a0 [<- _]]. apply x_exp_not_ninf.
    - apply in_map_iff. exists PInf. split; [reflexivity|exact Hin]. }
  assert (Hsm : In NaN (softmax_list l)).
  { unfold softmax_list. apply in_map_iff. exists PInf. split; [|exact Hin].
    destruct Hs as [-> | ->]; reflexivity. }
  apply In_nth with (d := NaN) in Hsm. destruct Hsm as [n [Hn Hnth]].
  assert (Hl : length (softmax_list l) = length l)
    by (unfold softmax_list; apply length_map).
  exists (NaN, s_of_nat n). split; [reflexivity|].
  replace (NaN, s_of_nat n)
    with (nth n (combine (softmax_list l) (map s_of_nat (seq 0 (length l))))
              (NaN, s_of_nat 0)).
  - apply nth_In. rewrite length_combine, length_map, length_seq. lia.
  - rewrite combine_nth by (rewrite length_map, length_seq; exact Hl).
    rewrite Hnth. f_equal.
    rewrite nth_map_default with (dx := 0) by (rewrite length_seq; lia).
    rewrite seq_nth by lia. reflexivity.
Qed.

Lemma sigmoid_pinf : sigmoid PInf = Fin 1.
Proof.
  unfold sigmoid. cbn [s_div s_one s_add s_exp s_neg xreal_Scalar x_neg x_exp x_add x_div].
  destruct (Req_dec_T (1 + 0) 0) as [E|_]; [lra|]. f_equal. field.
Qed.

Lemma sigmoid_ninf : sigmoid NInf = Fin 0.
Proof. reflexivity. Qed.

(** Infinite logits raise no error either.  A bin logit that is
    +infinity makes NaN the distance of its side, and the coordinates of
    the box that depend on that side; a class logit that is +infinity or
    -infinity gives the score 1 or 0. *)
Theorem post_process_infinite_logits (w : world xreal) (x : list handle) (b : nat)
        (an st : tensor xreal) (i j : nat) :
  decodable w x b an st ->
  i < b -> j < slots b x ->
  wp (post_process x) w (fun r w' =>
    (forall s k0 k, s < 4 -> k0 < 16 -> k < 4 -> k mod 2 = s mod 2 ->
       raw_pred w b x [i; 16 * s + k0; j] = PInf ->
       hget w' (fst r) [i; k; j] = NaN)
    /\ (forall c, c < 80 ->
          (raw_pred w b x [i; 64 + c; j] = PInf -> hget w' (fst r) [i; 4 + c; j] = Fin 1)
          /\ (raw_pred w b x [i; 64 + c; j] = NInf -> hget w' (fst r) [i; 4 + c; j] = Fin 0))).
Proof.
  intros Hpre Hi Hj.
  eapply wp_mono; [apply post_process_decodable_wp; exact Hpre|].
  intros r w' [_ [_ [_ [_ Hy]]]]. split.
  - intros s k0 k Hs Hk0 Hk Hm Hinf.
    rewrite Hy by (simpl; lia). unfold fused.
    replace (k <? 4) with true by (symmetry; now apply Nat.ltb_lt).
    unfold decoded_box. apply box_coord_nan with (s := s); try assumption.
    assert (Hside : expected_bin (side_logits (raw_pred w b x) i s j) = NaN).
    { apply expected_bin_pinf. unfold side_logits. apply in_map_iff.
      exists k0. split; [exact Hinf|]. apply in_seq. lia. }
    destruct s as [|[|[|[|s]]]]; try lia; exact Hside.
  - intros c Hc.
    assert (E : hget w' (fst r) [i; 4 + c; j] = sigmoid (raw_pred w b x [i; 64 + c; j])).
    { rewrite Hy by (simpl; lia). unfold fused.
      replace (4 + c <? 4) with false by (symmetry; apply Nat.ltb_ge; lia).
      now replace (4 + c - 4) with c by lia. }
    rewrite E. split; intros ->; [apply sigmoid_pinf|apply sigmoid_ninf].
Qed.

Lemma post_process_infinite_logits_witness :
  wp (post_process [x_nan]) w_inf (fun r w' =>
    hget w' (fst r) [0; 2; 0] = NaN /\ hget w' (fst r) [0; 4 + 7; 0] = Fin 1).
Proof.
  eapply wp_mono.
  - apply (@post_process_infinite_logits w_inf [x_nan] 1 (mkT [2; 1] [Fin 10; Fin 10])
             (mkT [1; 1] [Fin 32]) 0 0).
    + decodable_example x_nan.
    + lia.
    + unfold slots, slots_of. simpl. lia.
  - intros r w' [Hbox Hcls]. split.
    + apply (Hbox 0 5 2); try lia; reflexivity.
    + apply (proj1 (Hcls 7 ltac:(lia))). reflexivity.
Defined.

(** ** The callers: [frame_process] and [inference] *)

Lemma nodupb_NoDup (l : list nat) : NoDup l -> nodupb l = true.
Proof.
  induction 1 as [|x l Hx _ IH]; simpl; [reflexivity|].
  rewrite IH, andb_true_r. apply negb_true_iff.
  destruct (existsb (Nat.eqb x) l) eqn:E; [|reflexivity].
  apply existsb_exists in E. destruct E as [y [Hy E]].
  apply Nat.eqb_eq in E. subst y. contradiction.
Qed.

Section PermuteFacts.
Context {A : Type} {SA : Scalar A}.

Lemma t_permute_wp (w : world A) (h : handle) s f dims p :
  holds w h s f ->
  length dims = length s ->
  permute_dims (length s) [] dims = Ok p ->
  (forall idx, inb (map (fun d => nth d s 0) p) idx -> inb s (unpermute p idx)) ->
  wp (t_permute h dims) w (fun h' w' =>
    w' = w /\ buf h' = buf h /\ lay h' = permute_layout p (lay h)
    /\ holds w h' (map (fun d => nth d s 0) p) (fun idx => f (unpermute p idx))).
Proof.
  intros [[Hb Hwf] [Hs Hf]] Hl Hp Hin.
  unfold t_permute. rewrite Hs, Hl, Nat.eqb_refl, Hp. apply wp_ret.
  split; [reflexivity|]. split; [reflexivity|]. split; [reflexivity|].
  unfold t_shape in Hs.
  split; [|split].
  - split; [exact Hb|]. apply wf_tabulate.
  - unfold t_shape. simpl. now rewrite Hs.
  - intros idx Hi. unfold hget. simpl. unfold permute_layout.
    rewrite Hs, get_tabulate by exact Hi.
    apply (Hf (unpermute p idx)). now apply Hin.
Qed.

Lemma np_transpose_wp (w : world A) (h : handle) s f axes p :
  holds w h s f ->
  length axes = length s ->
  permute_dims (length s) [] axes = Ok p ->
  (forall idx, inb (map (fun d => nth d s 0) p) idx -> inb s (unpermute p idx)) ->
  wp (np_transpose h axes) w (fun h' w' =>
    w' = w /\ buf h' = buf h /\ lay h' = permute_layout p (lay h)
    /\ holds w h' (map (fun d => nth d s 0) p) (fun idx => f (unpermute p idx))).
Proof.
  intros [[Hb Hwf] [Hs Hf]] Hl Hp Hin.
  unfold np_transpose. rewrite Hs, Hl, Nat.eqb_refl, Hp. apply wp_ret.
  split; [reflexivity|]. split; [reflexivity|]. split; [reflexivity|].
  unfold t_shape in Hs.
  split; [|split].
  - split; [exact Hb|]. apply wf_tabulate.
  - unfold t_shape. simpl. now rewrite Hs.
  - intros idx Hi. unfold hget. simpl. unfold permute_layout.
    rewrite Hs, get_tabulate by exact Hi.
    apply (Hf (unpermute p idx)). now apply Hin.
Qed.

End PermuteFacts.

(** A tensor that holds an array of shape [b, H, W, C] in order, once
    permuted to [b, C, H, W], can be viewed as [b, C, H * W]. *)
Lemma nhwc_viewable (b H W C : nat) (o : handle) :
  lay o = permute_layout [0; 3; 1; 2] (mkT [b; H; W; C] (seq 0 (numel [b; H; W; C]))) ->
  viewable o [b; C; H * W].
Proof.
  intros Hl. unfold viewable. rewrite Hl. unfold permute_layout.
  cbn [shape map nth data tabulate].
  apply is_strided_intro with (B := 0) (st := [H * W * C; 1; C]); [reflexivity|].
  intros idx Hi. destruct idx as [|i [|c [|j [|? ?]]]]; simpl in Hi; try tauto.
  destruct Hi as [Hi [Hc [Hj _]]].
  assert (HW : 0 < W) by nia.
  pose proof (Nat.div_mod_eq j W) as Hdm.
  pose proof (Nat.mod_upper_bound j W ltac:(lia)) as Hm.
  assert (Hy : j / W < H).
  { apply Nat.Div0.div_lt_upper_bound. lia. }
  assert (Hi' : inb [b; C; H; W] [i; c; j / W; j mod W]) by (simpl; lia).
  replace (offset [b; C; H * W] [i; c; j])
    with (offset [b; C; H; W] [i; c; j / W; j mod W]) by (simpl; nia).
  rewrite nth_map_default with (dx := [])
    by (rewrite length_indices; now apply offset_lt).
  rewrite nth_indices by exact Hi'.
  unfold get. cbn [shape data unpermute length seq map place Nat.eqb nth].
  assert (Hi'' : inb [b; H; W; C] [i; j / W; j mod W; c]) by (simpl; lia).
  rewrite seq_nth by (now apply offset_lt).
  simpl. nia.
Qed.

Lemma upd_app_ge {X} (l r : list X) (k : nat) (v : X) :
  length l <= k -> upd k v (l ++ r) = l ++ upd (k - length l) v r.
Proof.
  revert k. induction l as [|y l IH]; intros k Hk; simpl.
  - now rewrite Nat.sub_0_r.
  - destruct k as [|k]; [simpl in Hk; lia|]. simpl. rewrite IH by (simpl in Hk; lia).
    reflexivity.
Qed.

Lemma map_nth_seq_map {X Y} (g : X -> Y) (l : list X) (d : X) :
  map (fun o => g (nth o l d)) (seq 0 (length l)) = map g l.
Proof.
  rewrite <- (map_map (fun o => nth o l d) g). now rewrite map_nth_seq.
Qed.

Section FrameProcessFacts.
Context {A : Type} {SA : Scalar A}.

Lemma alloc_fresh_wp (w : world A) (v : tensor A) s (g : list nat -> A) :
  wf v -> shape v = s ->
  (forall idx, inb s idx -> geta v idx = g idx) ->
  wp (alloc v) w (fun h w' =>
    ext w w' /\ rng w' = rng w /\ holds w' h s g
    /\ buf h = length (heap w) /\ contiguous h
    /\ heap w' = heap w ++ [data v]).
Proof.
  intros Hwf Hs Hg.
  destruct (@alloc_holds _ _ w v s g Hwf Hs Hg) as [h [w' [Hrun [He [Hr Hh]]]]].
  exists h, w'. split; [exact Hrun|].
  unfold alloc in Hrun. injection Hrun as <- <-.
  split; [exact He|]. split; [exact Hr|]. split; [exact Hh|].
  split; [reflexivity|]. split; [|reflexivity].
  unfold contiguous, t_shape. simpl. now rewrite Hwf.
Qed.

(** Extension of an older state is kept by a write to a newer buffer. *)
Lemma ext_write (w0 w w' : world A) (k : nat) (b : list A) :
  ext w0 w -> length (heap w0) <= k ->
  heap w' = upd k b (heap w) -> fs w' = fs w ->
  ext w0 w'.
Proof.
  intros [[l Hl] Hf] Hk Hh Hfs. split; [|congruence].
  exists (upd (k - length (heap w0)) b l). rewrite Hh, Hl. now apply upd_app_ge.
Qed.

Lemma t_idiv_scalar_wp (w : world A) (h : handle) s f (c : nat) :
  holds w h s f -> contiguous h ->
  length (buffer w (buf h)) = numel s ->
  wp (t_idiv_scalar h c) w (fun _ w' =>
    holds w' h s (fun idx => s_div (f idx) (s_of_nat c))
    /\ heap w' = upd (buf h) (map (fun x => s_div x (s_of_nat c)) (buffer w (buf h))) (heap w)
    /\ rng w' = rng w /\ fs w' = fs w).
Proof.
  intros [[Hb Hwf] [Hs Hf]] Hc Hlen. unfold contiguous in Hc. rewrite Hs in Hc.
  set (b := buffer w (buf h)) in *.
  set (vals := map (fun o => s_div (nth o b s_zero) (s_of_nat c)) (seq 0 (numel s))).
  assert (Hvals : vals = map (fun x => s_div x (s_of_nat c)) b).
  { unfold vals. rewrite <- Hlen.
    apply (map_nth_seq_map (fun x => s_div x (s_of_nat c)) b s_zero). }
  assert (Hw : write_all (combine (seq 0 (numel s)) vals) b = vals).
  { replace (numel s) with (length vals)
      by (unfold vals; now rewrite length_map, length_seq).
    apply write_all_seq with (pre := []).
    rewrite Hvals, length_map. reflexivity. }
  exists tt, (mkW (upd (buf h) vals (heap w)) (rng w) (fs w)). split.
  { unfold t_idiv_scalar. rewrite Hc.
    rewrite (nodupb_NoDup (seq_NoDup (numel s) 0)).
    fold b. fold vals. now rewrite Hw. }
  rewrite Hvals. cbn [heap rng fs].
  split; [|repeat split].
  split; [|split].
  - split; [cbn [heap]; now rewrite upd_length|exact Hwf].
  - exact Hs.
  - intros idx Hi. rewrite <- Hf by exact Hi.
    unfold hget, buffer. cbn [heap].
    rewrite nth_upd_same by exact Hb. fold (buffer w (buf h)). fold b.
    unfold get. unfold t_shape in Hs. rewrite Hs, Hc.
    rewrite seq_nth by now apply offset_lt. cbn [Nat.add].
    rewrite nth_map_default with (dx := s_zero); [reflexivity|].
    rewrite Hlen. now apply offset_lt.
Qed.

Lemma frame_process_wp (cv2 : cv2_lib) (w : world A) (frame rgb img : tensor nat)
      (input_shape : nat * nat) (H W C : nat) :
  cv2_cvtColor_BGR2RGB cv2 frame = Ok rgb ->
  cv2_resize cv2 rgb input_shape = Ok img ->
  wf img -> shape img = [H; W; C] ->
  wp (frame_process cv2 frame input_shape) w (fun im w' =>
    ext w w' /\ rng w' = rng w /\ length (heap w) <= buf im
    /\ holds w' im [C; H; W] (fun idx =>
         match idx with
         | [c; y; x] => s_div (s_of_nat (get 0 img [y; x; c])) (s_of_nat 255)
         | _ => s_zero
         end)).
Proof.
  intros Hcv Hrs Hwf Hs. unfold frame_process, lift_result.
  apply wp_bind. exists rgb, w. split; [now rewrite Hcv|].
  apply wp_bind. exists img, w. split; [now rewrite Hrs|].
  (* torch.from_numpy(img) *)
  apply wp_bind. eapply wp_mono.
  { unfold torch_from_numpy.
    apply alloc_fresh_wp with (s := [H; W; C])
      (g := fun idx => s_of_nat (get 0 img idx)).
    - unfold wf. simpl. now rewrite length_map.
    - exact Hs.
    - intros idx Hi. apply geta_tmap; [exact Hwf|now rewrite Hs]. }
  intros t1 w1 [E1 [R1 [H1 _]]]. cbv beta.
  (* img.float() *)
  apply wp_bind. unfold t_float.
  apply wp_bind. eexists. eexists. split; [reflexivity|].
  eapply wp_mono.
  { apply alloc_fresh_wp with (s := [H; W; C])
      (g := fun idx => s_of_nat (get 0 img idx)).
    - apply wf_hval. apply H1.
    - rewrite shape_hval. apply H1.
    - intros idx Hi. now apply (geta_hval _ H1). }
  intros t2 w2 [E2 [R2 [H2 [Hb2 [Hc2 Hh2]]]]]. cbv beta.
  assert (Hlen : length (buffer w2 (buf t2)) = numel [H; W; C]).
  { unfold buffer. rewrite Hh2, Hb2, nth_app_len. simpl. rewrite length_map.
    destruct H1 as [[_ Hwf1] [Hs1 _]]. unfold wf in Hwf1. unfold t_shape in Hs1.
    now rewrite Hwf1, Hs1. }
  (* img /= 255 *)
  apply wp_bind. eapply wp_mono; [apply t_idiv_scalar_wp with (1 := H2); assumption|].
  intros [] w3 [H3 [Hh3 [R3 F3]]]. cbv beta.
  assert (E3 : ext w w3).
  { eapply ext_write; [| |exact Hh3|exact F3].
    - eapply ext_trans; eassumption.
    - rewrite Hb2. destruct E1 as [[l Hl] _]. rewrite Hl, length_app. lia. }
  (* np.transpose(img, (2, 0, 1)) *)
  eapply wp_mono.
  { apply np_transpose_wp with (1 := H3) (p := [2; 0; 1]); try reflexivity.
    intros idx Hi. destruct idx as [|c [|y [|x [|? ?]]]]; simpl in Hi; try tauto.
    simpl. lia. }
  intros im ? [-> [Hbi [_ Him]]]. cbv beta.
  split; [exact E3|]. split; [congruence|]. split.
  - rewrite Hbi, Hb2. destruct E1 as [[l Hl] _]. rewrite Hl, length_app. lia.
  - cbn [map nth] in Him. apply holds_eq with (1 := Him).
    intros idx Hi. destruct idx as [|c [|y [|x [|? ?]]]]; simpl in Hi;
      try contradiction; try reflexivity; tauto.
Qed.

Lemma inference_input_wp (cv2 : cv2_lib) (w : world A) (frame rgb img : tensor nat)
      (H W C : nat) :
  cv2_cvtColor_BGR2RGB cv2 frame = Ok rgb ->
  cv2_resize cv2 rgb (640, 640) = Ok img ->
  wf img -> shape img = [H; W; C] ->
  wp (inference_input cv2 frame) w (fun a w' =>
    ext w w'
    /\ a = tabulate [1; H; W; C] (fun idx =>
             match idx with
             | [_; y; x; c] => s_div (s_of_nat (get 0 img [y; x; c])) (s_of_nat 255)
             | _ => s_zero
             end)).
Proof.
  intros Hcv Hrs Hwf Hs. unfold inference_input. cbv zeta.
  apply wp_bind. eapply wp_mono.
  { apply frame_process_wp with (rgb := rgb) (img := img) (H := H) (W := W) (C := C);
      assumption. }
  intros im w1 [E1 [_ [_ Him]]]. cbv beta.
  pose proof Him as [_ [Hsi _]]. rewrite Hsi. cbn [length Nat.eqb].
  apply wp_bind. eapply wp_mono; [apply t_unsqueeze0_wp with (1 := Him)|].
  intros im1 ? [-> [_ Him1]]. cbv beta.
  apply wp_bind. eapply wp_mono.
  { apply t_permute_wp with (1 := Him1) (p := [0; 2; 3; 1]); try reflexivity.
    intros idx Hi. destruct idx as [|n [|y [|x [|c [|? ?]]]]]; simpl in Hi; try tauto.
    simpl. lia. }
  intros p ? [-> [_ [_ Hp]]]. cbv beta.
  eexists. eexists. split; [reflexivity|]. split; [exact E1|].
  cbn [map nth] in Hp. rewrite (holds_hval Hp). unfold tabulate. f_equal.
  apply map_ext_in. intros idx Hin. apply indices_inb in Hin.
  destruct idx as [|n [|y [|x [|c [|? ?]]]]]; simpl in Hin;
    try contradiction; try reflexivity; tauto.
Qed.

End FrameProcessFacts.

Lemma cat_fun_level {A} {SA : Scalar A} (parts : list (list nat * (list nat -> A)))
      (l : nat) s f (i c j : nat) :
  nth_error parts l = Some (s, f) -> j < nth 2 s 0 ->
  cat_fun 2 parts
          [i; c; list_sum (map (fun p => nth 2 (fst p) 0) (firstn l parts)) + j]
  = f [i; c; j].
Proof.
  revert l. induction parts as [|[s0 f0] parts IH]; intros [|l] Hn Hj;
    try discriminate.
  - injection Hn as -> ->. cbn [firstn map cat_fun nth].
    change (list_sum [] + j) with j.
    replace (j <? nth 2 s 0) with true by (symmetry; now apply Nat.ltb_lt). reflexivity.
  - cbn [nth_error] in Hn. cbn [firstn map fst cat_fun nth].
    change (list_sum (nth 2 s0 0 :: ?l)) with (nth 2 s0 0 + list_sum l).
    set (rest := list_sum (map (fun p => nth 2 (fst p) 0) (firstn l parts))).
    replace (nth 2 s0 0 + rest + j <? nth 2 s0 0) with false
      by (symmetry; apply Nat.ltb_ge; lia).
    cbn [upd]. replace (nth 2 s0 0 + rest + j - nth 2 s0 0) with (rest + j) by lia.
    now apply IH.
Qed.

Section DecodeFacts.
Context {A : Type} {SA : Scalar A}.

Lemma channels_first_ext (w w' : world A) (b : nat) (o : handle) (item : tensor A) :
  ext w w' -> channels_first w b o item -> channels_first w' b o item.
Proof.
  intros E [H [W [Hs [Hl Hh]]]]. exists H, W. split; [exact Hs|]. split; [exact Hl|].
  now apply (holds_ext E).
Qed.

Lemma outputs_wp (w : world A) (b : nat) (items : list (tensor A)) :
  Forall (fun item => wf item /\ exists H W, shape item = [b; H; W; 144]) items ->
  wp (mapM (fun item => t <- torch_tensor item ;; t_permute t [0; 3; 1; 2]%Z) items) w
     (fun outs w' => ext w w' /\ Forall2 (channels_first w' b) outs items).
Proof.
  intros HF. revert w. induction HF as [|item items [Hwf [H [W Hs]]] _ IH]; intros w.
  - simpl. apply wp_ret. split; [apply ext_refl|constructor].
  - cbn [mapM]. apply wp_bind. apply wp_bind. unfold torch_tensor.
    eapply wp_mono.
    { apply alloc_fresh_wp with (s := [b; H; W; 144]) (g := geta item);
        [exact Hwf|exact Hs|reflexivity]. }
    intros t w1 [E1 [_ [Ht [_ [Hc _]]]]]. cbv beta.
    eapply wp_mono.
    { apply t_permute_wp with (1 := Ht) (p := [0; 3; 1; 2]); try reflexivity.
      intros idx Hi. destruct idx as [|i [|c [|y [|x [|? ?]]]]]; simpl in Hi; try tauto.
      simpl. lia. }
    intros o ? [-> [_ [Hl Ho]]]. cbv beta.
    apply wp_bind. eapply wp_mono; [apply IH|].
    intros outs w2 [E2 HF2]. cbv beta. apply wp_ret.
    split; [eapply ext_trans; eassumption|].
    constructor; [|exact HF2].
    apply (channels_first_ext E2). exists H, W. split; [exact Hs|]. split.
    + rewrite Hl. f_equal. destruct Ht as [_ [Hst _]].
      assert (Hlt : lay t = mkT (t_shape t) (data (lay t)))
        by (unfold t_shape; destruct (lay t); reflexivity).
      unfold contiguous in Hc. rewrite Hlt, Hc, Hst. reflexivity.
    + cbn [map nth] in Ho. apply holds_eq with (1 := Ho).
      intros idx Hi. destruct idx as [|i [|c [|y [|x [|? ?]]]]]; simpl in Hi;
        try contradiction; try reflexivity; tauto.
Qed.

Lemma channels_first_slots (w : world A) (b : nat) (o : handle) (item : tensor A) :
  0 < b -> channels_first w b o item ->
  valid w o
  /\ nth_error (t_shape o) 0 = Some b
  /\ numel (t_shape o) mod (b * 144) = 0
  /\ slots_of b o = cells item
  /\ viewable o [b; 144; slots_of b o].
Proof.
  intros Hb [H [W [Hs [Hl [Hv [Hso _]]]]]].
  assert (Hn : numel (t_shape o) = H * W * (b * 144)) by (rewrite Hso; simpl; lia).
  assert (Hsl : slots_of b o = H * W).
  { unfold slots_of. rewrite Hn. apply Nat.div_mul. lia. }
  split; [exact Hv|]. split; [now rewrite Hso|]. split.
  - rewrite Hn. apply Nat.Div0.mod_mul.
  - split; [rewrite Hsl; unfold cells; now rewrite Hs|].
    rewrite Hsl. now apply nhwc_viewable.
Qed.

Lemma outputs_decodable (w : world A) (b : nat) (outs : list handle)
      (items : list (tensor A)) (an st : tensor A) :
  0 < b -> items <> [] ->
  Forall2 (channels_first w b) outs items ->
  0 < list_sum (map cells items) ->
  fs w "./anchors.npy" = Some an -> wf an -> shape an = [2; list_sum (map cells items)] ->
  fs w "./strides.npy" = Some st -> wf st -> shape st = [1; list_sum (map cells items)] ->
  map (slots_of b) outs = map cells items /\ decodable w outs b an st.
Proof.
  intros Hb Hne HF Hn Han Hanwf Hans Hst Hstwf Hsts.
  assert (Hm : map (slots_of b) outs = map cells items).
  { clear -HF Hb. induction HF as [|o item outs items Hc _ IH]; simpl; [reflexivity|].
    destruct (channels_first_slots Hb Hc) as [_ [_ [_ [-> _]]]]. now rewrite IH. }
  split; [exact Hm|].
  assert (Hsl : slots b outs = list_sum (map cells items)) by (unfold slots; now rewrite Hm).
  unfold decodable, regroupable. rewrite Hsl.
  split; [|repeat split; assumption].
  split.
  { destruct HF as [|o item outs items Hc _]; [congruence|].
    exists o. split; [reflexivity|]. apply (channels_first_slots Hb Hc). }
  split; [exact Hb|].
  split.
  { clear -HF Hb. induction HF as [|o item outs items Hc _ IH]; constructor; [|exact IH].
    apply (channels_first_slots Hb Hc). }
  split.
  { clear -HF Hb. induction HF as [|o item outs items Hc _ IH]; constructor; [|exact IH].
    apply (channels_first_slots Hb Hc). }
  split.
  { clear -HF Hb. induction HF as [|o item outs items Hc _ IH]; constructor; [|exact IH].
    apply (channels_first_slots Hb Hc). }
  exact Hn.
Qed.

(** The raw prediction of a cell: the channels of the array at that
    cell. *)
Lemma raw_pred_cell (w : world A) (b : nat) (outs : list handle) (items : list (tensor A))
      (l : nat) (item : tensor A) (i c y x : nat) :
  0 < b ->
  Forall2 (channels_first w b) outs items ->
  nth_error items l = Some item ->
  i < b -> c < 144 -> y < nth 1 (shape item) 0 -> x < nth 2 (shape item) 0 ->
  raw_pred w b outs [i; c; first_slot items l + y * nth 2 (shape item) 0 + x]
  = geta item [i; y; x; c].
Proof.
  intros Hb HF Hl Hi Hc Hy Hx.
  assert (Ho : exists o, nth_error outs l = Some o /\ channels_first w b o item).
  { clear -HF Hl. revert l Hl. induction HF as [|o it outs items Hc _ IH]; intros [|l] Hl;
      try discriminate.
    - injection Hl as ->. now exists o.
    - now apply IH. }
  destruct Ho as [o [Hno Hco]].
  destruct (channels_first_slots Hb Hco) as [_ [_ [_ [Hsl _]]]].
  destruct Hco as [H [W [Hs [_ Hh]]]].
  rewrite Hs in Hy, Hx. cbn [nth] in Hy, Hx. rewrite Hs. cbn [nth].
  assert (Hcells : cells item = H * W) by (unfold cells; now rewrite Hs).
  unfold raw_pred.
  assert (Hfs : first_slot items l
                = list_sum (map (fun p => nth 2 (fst p) 0) (firstn l (raw_parts w b outs)))).
  { unfold first_slot, raw_parts. rewrite firstn_map, map_map. cbn [fst nth].
    clear -HF Hb. revert l. induction HF as [|o it outs items Hc _ IH]; intros [|l];
      simpl; try reflexivity.
    destruct (channels_first_slots Hb Hc) as [_ [_ [_ [-> _]]]]. now rewrite IH. }
  rewrite Hfs, <- Nat.add_assoc.
  rewrite cat_fun_level with (s := [b; 144; slots_of b o])
                             (f := flat_fun [b; 144; slots_of b o] (hval w o)).
  - unfold flat_fun. rewrite Hsl, Hcells.
    replace (offset [b; 144; H * W] [i; c; y * W + x])
      with (offset [b; 144; H; W] [i; c; y; x]) by (simpl; nia).
    pose proof Hh as [_ [Hso _]].
    assert (Hin : inb [b; 144; H; W] [i; c; y; x]) by (simpl; lia).
    rewrite <- (geta_hval _ Hh Hin). unfold geta, get. now rewrite shape_hval, Hso.
  - unfold raw_parts. rewrite nth_error_map, Hno. reflexivity.
  - cbn [nth]. rewrite Hsl, Hcells. nia.
Qed.

End DecodeFacts.

Lemma first_slot_bound {A} (items : list (tensor A)) (l : nat) (item : tensor A) :
  nth_error items l = Some item ->
  first_slot items l + cells item <= list_sum (map cells items).
Proof.
  unfold first_slot. revert l. induction items as [|it items IH]; intros [|l] Hl;
    try discriminate.
  - injection Hl as ->. simpl. lia.
  - simpl in Hl. specialize (IH l Hl). simpl. lia.
Qed.

(** [frame_process]: when the image library returns an image of shape
    [H, W, C], the tensor returned has shape [C, H, W]; its element
    [c, y, x] is byte [y, x, c] of the image divided by 255, a number
    between 0 and 1.  The tensor lies in a buffer of its own, and what
    was in memory before the call is unchanged. *)
Theorem frame_process_scaled (cv2 : cv2_lib) (w : world R) (frame rgb img : tensor nat)
        (input_shape : nat * nat) (H W C : nat) :
  cv2_cvtColor_BGR2RGB cv2 frame = Ok rgb ->
  cv2_resize cv2 rgb input_shape = Ok img ->
  wf img -> shape img = [H; W; C] ->
  (forall v, In v (data img) -> v <= 255) ->
  wp (frame_process cv2 frame input_shape) w (fun im w' =>
    t_shape im = [C; H; W]
    /\ (forall c y x, c < C -> y < H -> x < W ->
          let byte := get 0 img [y; x; c] in
          let v := hget w' im [c; y; x] in
          (v = INR byte / 255 /\ 0 <= v <= 1)%R)
    /\ firstn (length (heap w)) (heap w') = heap w
    /\ length (heap w) <= buf im).
Proof.
  intros Hcv Hrs Hwf Hs Hbytes.
  eapply wp_mono.
  { apply frame_process_wp with (rgb := rgb) (img := img) (H := H) (W := W) (C := C);
      eassumption. }
  intros im w' [[[l Hl] _] [_ [Hfresh [_ [Hsi Him]]]]].
  split; [exact Hsi|]. split; [|split; [|exact Hfresh]].
  - intros c y x Hc Hy Hx. cbv zeta. rewrite Him by (simpl; lia).
    assert (E255 : INR 255 = 255%R) by (rewrite INR_IZR_INZ; reflexivity).
    assert (Hb : get 0 img [y; x; c] <= 255).
    { apply Hbytes. unfold get. apply nth_In. rewrite Hwf, Hs.
      apply offset_lt. simpl. lia. }
    set (byte := get 0 img [y; x; c]) in *.
    apply le_INR in Hb. pose proof (pos_INR byte) as Hp.
    change (s_div (s_of_nat byte) (s_of_nat 255)) with (INR byte / INR 255)%R.
    rewrite E255 in *.
    split; [reflexivity|].
    split.
    + apply Rmult_le_reg_r with 255%R; [lra|]. unfold Rdiv.
      rewrite Rmult_assoc, Rinv_l by lra. lra.
    + apply Rmult_le_reg_r with 255%R; [lra|]. unfold Rdiv.
      rewrite Rmult_assoc, Rinv_l by lra. lra.
  - rewrite Hl, firstn_app, Nat.sub_diag, firstn_all. simpl. apply app_nil_r.
Qed.

Lemma frame_process_scaled_witness :
  wp (frame_process cv2_nearest frame_bgr (2, 1)) w_zeros (fun im w' =>
    t_shape im = [3; 1; 2]
    /\ (forall c y x, c < 3 -> y < 1 -> x < 2 ->
          let byte := get 0 (nearest_pixels (reverse_channels frame_bgr) (2, 1)) [y; x; c] in
          let v := hget w' im [c; y; x] in
          (v = INR byte / 255 /\ 0 <= v <= 1)%R)
    /\ firstn (length (heap w_zeros)) (heap w') = heap w_zeros
    /\ length (heap w_zeros) <= buf im).
Proof.
  apply (@frame_process_scaled cv2_nearest w_zeros frame_bgr (reverse_channels frame_bgr)
           (nearest_pixels (reverse_channels frame_bgr) (2, 1)) (2, 1) 1 2 3);
    try reflexivity.
  intros v Hv. vm_compute in Hv.
  repeat (destruct Hv as [<-|Hv]; [lia|]). contradiction.
Defined.

(** The input of the session: [inference] undoes the transposition of
    [frame_process].  When the image library returns an image of shape
    [H, W, C] for the size (640, 640), the array given to [ep.run] has
    shape [1, H, W, C], and its element [0, y, x, c] is byte [y, x, c]
    of the image divided by 255. *)
Theorem inference_input_nhwc {A : Type} {SA : Scalar A} (cv2 : cv2_lib) (w : world A)
        (frame rgb img : tensor nat) (H W C : nat) :
  cv2_cvtColor_BGR2RGB cv2 frame = Ok rgb ->
  cv2_resize cv2 rgb (640, 640) = Ok img ->
  wf img -> shape img = [H; W; C] ->
  wp (inference_input cv2 frame) w (fun a w' =>
    shape a = [1; H; W; C] /\ wf a
    /\ forall y x c, y < H -> x < W -> c < C ->
         geta a [0; y; x; c] = s_div (s_of_nat (get 0 img [y; x; c])) (s_of_nat 255)).
Proof.
  intros Hcv Hrs Hwf Hs.
  eapply wp_mono.
  { apply inference_input_wp with (rgb := rgb) (img := img) (H := H) (W := W) (C := C);
      eassumption. }
  intros a w' [_ ->]. split; [reflexivity|]. split; [apply wf_tabulate|].
  intros y x c Hy Hx Hc. unfold geta. rewrite get_tabulate by (simpl; lia). reflexivity.
Qed.

Lemma inference_input_nhwc_witness :
  wp (inference_input cv2_nearest frame_bgr) w_zeros (fun a w' =>
    shape a = [1; 640; 640; 3] /\ wf a
    /\ forall y x c, y < 640 -> x < 640 -> c < 3 ->
         geta a [0; y; x; c]
         = s_div (s_of_nat (get 0 (nearest_pixels (reverse_channels frame_bgr) (640, 640))
                                [y; x; c]))
                 (s_of_nat 255)).
Proof.
  apply (@inference_input_nhwc R _ cv2_nearest w_zeros frame_bgr (reverse_channels frame_bgr)
           (nearest_pixels (reverse_channels frame_bgr) (640, 640)) 640 640 3).
  - reflexivity.
  - reflexivity.
  - apply wf_tabulate.
  - reflexivity.
Defined.

(** The decoding of the arrays of the session, as [inference] does it:
    each array, of shape [b, H, W, 144], is turned into a tensor and
    permuted to [b, 144, H, W], and [post_process] accepts the list.  In
    the fused tensor, cell [(y, x)] of array [l] is the slot
    [first_slot outputs l + y * W + x]; its box is decoded from channels
    0 .. 63 of the array at that cell, and score [c] is the sigmoid of
    channel 64 + c. *)
Theorem inference_decode_cells {A : Type} {SA : Scalar A} (w : world A)
        (outputs : list (tensor A)) (b : nat) (an st : tensor A) :
  0 < b -> outputs <> [] ->
  Forall (fun item => wf item /\ exists H W, shape item = [b; H; W; 144]) outputs ->
  0 < list_sum (map cells outputs) ->
  fs w "./anchors.npy" = Some an -> wf an ->
  shape an = [2; list_sum (map cells outputs)] ->
  fs w "./strides.npy" = Some st -> wf st ->
  shape st = [1; list_sum (map cells outputs)] ->
  wp (inference_decode outputs) w (fun r w' =>
    t_shape (fst r) = [b; 84; list_sum (map cells outputs)]
    /\ forall l item, nth_error outputs l = Some item ->
       forall i y x, i < b -> y < nth 1 (shape item) 0 -> x < nth 2 (shape item) 0 ->
         let j := first_slot outputs l + y * nth 2 (shape item) 0 + x in
         let cell := fun idx => geta item [nth 0 idx 0; y; x; nth 1 idx 0] in
         (forall k, k < 4 -> hget w' (fst r) [i; k; j] = decoded_box cell an st i k j)
         /\ (forall c, c < 80 ->
               hget w' (fst r) [i; 4 + c; j] = sigmoid (geta item [i; y; x; 64 + c]))).
Proof.
  intros Hb Hne HF Hn Han Hanwf Hans Hst Hstwf Hsts.
  unfold inference_decode.
  apply wp_bind. eapply wp_mono; [apply outputs_wp; exact HF|].
  intros outs w1 [E1 HF1]. cbv beta.
  destruct (@outputs_decodable _ _ w1 b outs outputs an st) as [Hm Hdec]; try assumption.
  { destruct E1 as [_ F]. now rewrite F. }
  { destruct E1 as [_ F]. now rewrite F. }
  assert (Hsl : slots b outs = list_sum (map cells outputs))
    by (unfold slots; now rewrite Hm).
  eapply wp_mono; [apply post_process_decodable_wp; exact Hdec|].
  intros r w2 [_ [_ [_ [Hsr Hy]]]]. rewrite Hsl in Hsr, Hy.
  split; [exact Hsr|].
  intros l item Hl i y x Hi Hy' Hx. cbv zeta.
  pose proof (first_slot_bound _ _ Hl) as Hfb.
  assert (Hce : cells item = nth 1 (shape item) 0 * nth 2 (shape item) 0) by reflexivity.
  rewrite Hce in Hfb. clear Hce.
  set (W := nth 2 (shape item) 0) in *. set (H := nth 1 (shape item) 0) in *.
  set (j := first_slot outputs l + y * W + x).
  assert (Hyx : y * W + x < H * W).
  { apply Nat.lt_le_trans with (y * W + W); [lia|].
    replace (y * W + W) with ((y + 1) * W) by lia. apply Nat.mul_le_mono_r. lia. }
  assert (Hj : j < list_sum (map cells outputs)) by (unfold j; lia).
  assert (Hraw : forall c, c < 144 -> raw_pred w1 b outs [i; c; j] = geta item [i; y; x; c]).
  { intros c Hc. unfold j, W. now apply raw_pred_cell. }
  split.
  - intros k Hk. rewrite Hy by (simpl; lia). unfold fused.
    replace (k <? 4) with true by (symmetry; now apply Nat.ltb_lt).
    unfold decoded_box, side_logits. do 2 f_equal.
    all: f_equal; apply map_ext_in; intros q Hq; apply in_seq in Hq;
      rewrite Hraw by lia; reflexivity.
  - intros c Hc. rewrite Hy by (simpl; lia). unfold fused.
    replace (4 + c <? 4) with false by (symmetry; apply Nat.ltb_ge; lia).
    replace (4 + c - 4) with c by lia. now rewrite Hraw by lia.
Qed.

Lemma inference_decode_cells_witness :
  wp (inference_decode [output_one_cell]) w_frame (fun r w' =>
    t_shape (fst r) = [1; 84; 1]
    /\ forall c, c < 80 -> hget w' (fst r) [0; 4 + c; 0] = sigmoid 0%R).
Proof.
  eapply wp_mono.
  - apply (@inference_decode_cells R _ w_frame [output_one_cell] 1
             (mkT [2; 1] [10; 10]%R) (mkT [1; 1] [32]%R));
      try reflexivity; try (simpl; lia); try discriminate.
    repeat constructor. exists 1, 1. reflexivity.
  - intros r w' [Hs H]. split; [exact Hs|].
    intros c Hc.
    destruct (H 0 output_one_cell eq_refl 0 0 0) as [_ Hsc]; try (simpl; lia).
    cbv zeta in Hsc. change (first_slot [output_one_cell] 0 + 0 * nth 2 (shape output_one_cell) 0 + 0)
      with 0 in Hsc.
    rewrite (Hsc c Hc). f_equal.
    unfold geta, get, output_one_cell. cbn [shape data].
    apply nth_repeat.
Defined.

(** ** The training notebook: [update_lr] *)

Lemma dict_get_set_same {V} (k : string) (v : V) (d : dict V) :
  dict_get k (dict_set k v d) = Some v.
Proof.
  induction d as [|[k' v'] d IH]; simpl.
  - now rewrite String.eqb_refl.
  - destruct (String.eqb k' k) eqn:E; simpl; rewrite E; [reflexivity|exact IH].
Qed.

Lemma dict_get_set_other {V} (k k0 : string) (v : V) (d : dict V) :
  k0 <> k -> dict_get k0 (dict_set k v d) = dict_get k0 d.
Proof.
  intros Hne. induction d as [|[k' v'] d IH]; simpl.
  - destruct (String.eqb_spec k k0); [congruence|reflexivity].
  - destruct (String.eqb_spec k' k) as [->|Hk]; simpl.
    + destruct (String.eqb_spec k k0); [congruence|reflexivity].
    + destruct (String.eqb_spec k' k0); [reflexivity|exact IH].
Qed.

Lemma dict_set_keys {V} (k : string) (v : V) (d : dict V) :
  dict_get k d <> None -> map fst (dict_set k v d) = map fst d.
Proof.
  induction d as [|[k' v'] d IH]; simpl; [congruence|].
  destruct (String.eqb k' k); simpl; [reflexivity|].
  intros H. now rewrite IH.
Qed.

(** [update_lr]: afterwards every parameter group of the optimizer has
    the learning rate [lr]; the groups are as many as before, and in each
    the other hyper-parameters have the values they had; a group that
    had a learning rate keeps its keys, in their order. *)
Theorem update_lr_every_group {V : Type} (optimizer : Optimizer V) (lr : V) :
  length (param_groups (update_lr optimizer lr)) = length (param_groups optimizer)
  /\ forall i group, nth_error (param_groups optimizer) i = Some group ->
       exists group', nth_error (param_groups (update_lr optimizer lr)) i = Some group'
         /\ dict_get "lr" group' = Some lr
         /\ (forall k, k <> "lr"%string -> dict_get k group' = dict_get k group)
         /\ (dict_get "lr" group <> None -> map fst group' = map fst group).
Proof.
  split; [apply length_map|].
  intros i group Hi. exists (dict_set "lr" lr group).
  split; [simpl; now rewrite nth_error_map, Hi|].
  split; [apply dict_get_set_same|].
  split; [intros k Hk; now apply dict_get_set_other|].
  apply dict_set_keys.
Qed.

Lemma update_lr_every_group_witness :
  exists group',
    nth_error (param_groups (update_lr optimizer_two_groups 5%R)) 1 = Some group'
    /\ dict_get "lr" group' = Some 5%R
    /\ (forall k, k <> "lr"%string -> dict_get k group' = dict_get k [("eps"%string, 3%R)])
    /\ (dict_get "lr" [("eps"%string, 3%R)] <> None
        -> map fst group' = map fst [("eps"%string, 3%R)]).
Proof.
  apply (proj2 (@update_lr_every_group R optimizer_two_groups 5%R) 1 [("eps"%string, 3%R)]).
  reflexivity.
Defined.
